(** * Lab One: simulating ODEs and SDEs ([labs/lab1.py])

    A shallow embedding of the simulation engine (Euler and Euler-Maruyama),
    the vector fields (Brownian motion, Ornstein-Uhlenbeck, Langevin) and the
    densities (Gaussian, Gaussian mixture) of [labs/lab1.py], with the
    properties the specification states about them.

    Modelling conventions.
    - A scalar is a real number ([R]); rounding is outside the model.
    - A tensor of shape (batch_size, dim) is the list of its rows.  The
      elementwise operations pair equal positions; the docstrings' contract
      (drift and diffusion have the shape of the state) is what makes this
      torch's [+] and [*].
    - A Python exception is a [Raise] in the [result] type.
    - The ambient random generator is passed explicitly: [Rng] holds the
      sequences of draws the generator will deliver and how many were used. *)

From Stdlib Require Import Reals ZArith Lra Lia List Arith PeanoNat.
Import ListNotations.

Open Scope R_scope.

(** ** Exceptions and results *)

Inductive error : Type :=
| MathDomainError        (* ValueError: math domain error (math.sqrt) *)
| NotPositiveDefinite    (* torch.linalg.cholesky on a matrix that is not PD *)
| InvalidMultinomial     (* torch.multinomial on an invalid probability vector *)
| ShapeError             (* operands whose shapes do not fit *)
| EmptyBatch             (* RuntimeError on a batch without elements: vmap, view(-1, 1) *)
| NoSamples              (* torch.multinomial: cannot sample n_sample <= 0 samples *)
| MixtureMismatch.       (* MixtureSameFamily: numbers of weights and components differ *)

Inductive result (A : Type) : Type :=
| Ok (a : A)
| Raise (e : error).

Arguments Ok {A} a.
Arguments Raise {A} e.

Definition result_map {A B} (f : A -> B) (r : result A) : result B :=
  match r with
  | Ok a => Ok (f a)
  | Raise e => Raise e
  end.

Definition result_bind {A B} (r : result A) (k : A -> result B) : result B :=
  match r with
  | Ok a => k a
  | Raise e => Raise e
  end.

(** ** Tensors *)

Definition Tensor : Type := list (list R).

Fixpoint zip_with {A B C} (f : A -> B -> C) (a : list A) (b : list B) : list C :=
  match a, b with
  | x :: a', y :: b' => f x y :: zip_with f a' b'
  | _, _ => []
  end.

Definition tmap (f : R -> R) (x : Tensor) : Tensor := map (map f) x.

(** [torch.zeros_like], [torch.ones_like] *)
Definition zeros_like (x : Tensor) : Tensor := tmap (fun _ => 0) x.
Definition ones_like (x : Tensor) : Tensor := tmap (fun _ => 1) x.

(** [a + b], [a * b] on tensors of one shape *)
Definition tadd (a b : Tensor) : Tensor := zip_with (zip_with Rplus) a b.
Definition tmul (a b : Tensor) : Tensor := zip_with (zip_with Rmult) a b.

(** [c * x], [x * c] and [x / c] for a scalar [c] *)
Definition smul (c : R) (x : Tensor) : Tensor := tmap (fun v => c * v) x.
Definition muls (x : Tensor) (c : R) : Tensor := tmap (fun v => v * c) x.
Definition divs (x : Tensor) (c : R) : Tensor := tmap (fun v => v / c) x.

(** [x[b, i]] *)
Definition entry (x : Tensor) (b i : nat) : R := nth i (nth b x []) 0.

(** The shape of a tensor, row by row. *)
Definition shape (x : Tensor) : list nat := map (@length R) x.

(** ** The random generator *)

Record Rng : Type := mkRng {
  normals : nat -> R;     (* the standard-normal draws to come *)
  normals_used : nat;
  uniforms : nat -> R;    (* the uniform draws on [0,1) to come *)
  uniforms_used : nat;
  exponentials : nat -> R;  (* the Exp(1) draws to come *)
  exponentials_used : nat
}.

(** [n] standard-normal draws *)
Definition randn (n : nat) (g : Rng) : list R * Rng :=
  (map (normals g) (seq (normals_used g) n),
   mkRng (normals g) (normals_used g + n)
       (uniforms g) (uniforms_used g) (exponentials g) (exponentials_used g)).

(** [torch.randn_like(x)]: a tensor of the shape of [x] filled with fresh
    standard-normal draws. *)
Fixpoint randn_like (x : Tensor) (g : Rng) : Tensor * Rng :=
  match x with
  | [] => ([], g)
  | row :: rest =>
      let (z, g1) := randn (length row) g in
      let (zs, g2) := randn_like rest g1 in
      (z :: zs, g2)
  end.

(** ** Computations: exceptions and state

    [St S A] is a computation that reads and updates a state [S] and either
    returns an [A] or raises.  The numerical code runs in [M], whose state is
    the random generator. *)

Definition St (S A : Type) : Type := S -> result (A * S).

Definition ret {S A} (a : A) : St S A := fun s => Ok (a, s).

Definition bind {S A B} (m : St S A) (k : A -> St S B) : St S B :=
  fun s =>
    match m s with
    | Ok (a, s') => k a s'
    | Raise e => Raise e
    end.

Definition lift {S A} (r : result A) : St S A :=
  fun s => result_map (fun a => (a, s)) r.

Definition M (A : Type) : Type := St Rng A.

Definition draw {A} (f : Rng -> A * Rng) : M A := fun g => Ok (f g).

(** What a computation returns, the final state left out. *)
Definition value {S A} (r : result (A * S)) : result A := result_map fst r.

Declare Scope sim_scope.
Delimit Scope sim_scope with sim.
Notation "x <- m ;; k" := (bind m (fun x => k))
  (at level 61, m at next level, right associativity) : sim_scope.
Notation "' p <- m ;; k" := (bind m (fun x => match x with p => k end))
  (at level 61, p pattern, m at next level, right associativity) : sim_scope.
Open Scope sim_scope.

(** [math.sqrt]: raises [ValueError] below zero. *)
Definition math_sqrt (h : R) : result R :=
  if Rle_dec 0 h then Ok (sqrt h) else Raise MathDomainError.

(** ** Part 0: ODEs and SDEs *)

Record ODE : Type := mkODE {
  ode_drift_coefficient : Tensor -> R -> result Tensor
}.

Record SDE : Type := mkSDE {
  drift_coefficient : Tensor -> R -> result Tensor;
  diffusion_coefficient : Tensor -> R -> result Tensor
}.

(** ** Part 1: simulators *)

Record Simulator : Type := mkSimulator {
  step : Tensor -> R -> R -> M Tensor
}.

(** [for i in idxs: s = body(i, s)] *)
Fixpoint for_each {S A} (idxs : list nat) (body : nat -> A -> St S A) (a : A)
  : St S A :=
  match idxs with
  | [] => ret a
  | i :: rest => a' <- body i a ;; for_each rest body a'
  end.

(** [range(n)] *)
Definition range (n : nat) : list nat := seq 0 n.

(** [ts[i]] for an index the loop has in range *)
Definition item (ts : list R) (i : nat) : R := nth i ts 0.

(** [Simulator.simulate] *)
Definition simulate (sim : Simulator) (x : Tensor) (ts : list R) : M Tensor :=
  for_each (range (length ts - 1))
    (fun t_idx x =>
       let t := item ts t_idx in
       let h := item ts (t_idx + 1) - item ts t_idx in
       step sim x t h)
    x.

(** A trajectory is the tensor [torch.stack(xs, dim=1)], of shape
    (batch_size, num_timesteps, dim), kept as the sequence of its slices
    along axis 1: slice [i] is [trajectory[:, i]].  [torch.stack] wants
    states of one shape, which a step that keeps the shape of the state
    gives; that is the contract of the docstrings. *)
Definition Trajectory : Type := list Tensor.

Definition stack_dim1 (xs : list Tensor) : Trajectory := xs.

(** [x.clone()]: the same values in a tensor of its own. *)
Definition clone (x : Tensor) : Tensor := x.

(** [Simulator.simulate_with_trajectory] *)
Definition simulate_with_trajectory (sim : Simulator) (x : Tensor) (ts : list R)
  : M Trajectory :=
  let xs := [clone x] in
  '(_, xs) <- for_each (range (length ts - 1))
    (fun t_idx '(x, xs) =>
       let t := item ts t_idx in
       let h := item ts (t_idx + 1) - item ts t_idx in
       x <- step sim x t h ;;
       ret (x, xs ++ [clone x]))
    (x, xs) ;;
  ret (stack_dim1 xs).

(** [EulerSimulator.step]: [xt + h * drift(xt, t)] *)
Definition Euler_step (ode : ODE) (xt : Tensor) (t h : R) : result Tensor :=
  result_bind (ode_drift_coefficient ode xt t) (fun d =>
  Ok (tadd xt (smul h d))).

Definition EulerSimulator (ode : ODE) : Simulator :=
  mkSimulator (fun xt t h => lift (Euler_step ode xt t h)).

(** [EulerMaruyamaSimulator.step]:
    [xt + h * drift(xt, t) + diffusion(xt, t) * randn_like(xt) * math.sqrt(h)],
    evaluated left to right. *)
Definition EulerMaruyama_step (sde : SDE) (xt : Tensor) (t h : R) : M Tensor :=
  d <- lift (drift_coefficient sde xt t) ;;
  s <- lift (diffusion_coefficient sde xt t) ;;
  z <- draw (randn_like xt) ;;
  r <- lift (math_sqrt h) ;;
  ret (tadd (tadd xt (smul h d)) (muls (tmul s z) r)).

Definition EulerMaruyamaSimulator (sde : SDE) : Simulator :=
  mkSimulator (EulerMaruyama_step sde).

(** ** Part 2: Brownian motion and the Ornstein-Uhlenbeck process *)

Definition BrownianMotion (sigma : R) : SDE :=
  mkSDE (fun xt t => Ok (zeros_like xt))
        (fun xt t => Ok (smul sigma (ones_like xt))).

Definition OUProcess (theta sigma : R) : SDE :=
  mkSDE (fun xt t => Ok (smul (- theta) xt))
        (fun xt t => Ok (smul sigma (ones_like xt))).

(** ** Part 3: densities and samplers *)

(** [for a in xs: ys.append(f(a))], the first exception ending the loop *)
Fixpoint map_result {A B} (f : A -> result B) (xs : list A) : result (list B) :=
  match xs with
  | [] => Ok []
  | a :: rest =>
      result_bind (f a) (fun b =>
      result_bind (map_result f rest) (fun bs => Ok (b :: bs)))
  end.

(** A [Density] has [log_density]; its [score] is
    [vmap(jacrev(self.log_density))]: row by row, the gradient of the
    log-density at that row.  [jacrev_log_density] is the function
    [jacrev(self.log_density)] evaluates at a batch of one point;
    [jacrev_sound] below says that it is the gradient of [log_density]. *)
Record Density : Type := mkDensity {
  log_density : Tensor -> result Tensor;
  jacrev_log_density : list R -> result (list R)
}.

(** [Density.score].  A batch without elements is refused. *)
Definition score (density : Density) (x : Tensor) : result Tensor :=
  match x with
  | [] => Raise EmptyBatch
  | _ :: _ => map_result (jacrev_log_density density) x
  end.

(** The log-density at one point, as a real function (0 where it raises). *)
Definition log_density_at (density : Density) (p : list R) : R :=
  match log_density density [p] with
  | Ok y => entry y 0 0
  | Raise _ => 0
  end.

(** [p] with coordinate [i] replaced by [u] *)
Fixpoint set_coord (i : nat) (u : R) (p : list R) : list R :=
  match p, i with
  | [], _ => []
  | _ :: rest, O => u :: rest
  | v :: rest, S j => v :: set_coord j u rest
  end.

(** [g] is the gradient of [f] at [p]: coordinate by coordinate, the
    derivative of [f] along that coordinate. *)
Definition is_gradient (f : list R -> R) (p g : list R) : Prop :=
  length g = length p /\
  forall i, (i < length p)%nat ->
    derivable_pt_lim (fun u => f (set_coord i u p)) (nth i p 0) (nth i g 0).

Definition jacrev_sound (density : Density) : Prop :=
  forall p,
    match log_density density [p] with
    | Ok _ => exists g, jacrev_log_density density p = Ok g /\
                        is_gradient (log_density_at density) p g
    | Raise e => jacrev_log_density density p = Raise e
    end.

(** *** torch.distributions, in two dimensions

    [Gaussian] and [GaussianMixture] wrap [MultivariateNormal],
    [Categorical] and [MixtureSameFamily]; the docstrings fix the dimension:
    means of shape (2,), covariances of shape (2,2). *)

(** The lower-triangular Cholesky factor of a 2x2 matrix. *)
Record Tril2 : Type := mkTril2 { l11 : R; l21 : R; l22 : R }.

(** [torch.linalg.cholesky]: reads the lower triangle, raises unless the
    matrix is positive definite. *)
Definition cholesky (cov : Tensor) : result Tril2 :=
  match cov with
  | [[a; _]; [c; d]] =>
      if Rlt_dec 0 a then
        let l11 := sqrt a in
        let l21 := c / l11 in
        if Rlt_dec 0 (d - l21 * l21) then Ok (mkTril2 l11 l21 (sqrt (d - l21 * l21)))
        else Raise NotPositiveDefinite
      else Raise NotPositiveDefinite
  | _ => Raise ShapeError
  end.

Record MultivariateNormal : Type := mkMVN {
  loc1 : R; loc2 : R;
  scale_tril : Tril2
}.

(** [D.MultivariateNormal(loc, covariance_matrix, validate_args=False)] *)
Definition MultivariateNormal_init (loc : list R) (cov : Tensor)
  : result MultivariateNormal :=
  match loc with
  | [m1; m2] => result_map (mkMVN m1 m2) (cholesky cov)
  | _ => Raise ShapeError
  end.

(** The solution [y] of [L y = x - loc]. *)
Definition whiten (d : MultivariateNormal) (x1 x2 : R) : R * R :=
  let L := scale_tril d in
  let y1 := (x1 - loc1 d) / l11 L in
  let y2 := (x2 - loc2 d - l21 L * y1) / l22 L in
  (y1, y2).

(** [MultivariateNormal.log_prob] at one point:
    [-0.5 * (2 * log(2 pi) + M) - half_log_det]. *)
Definition MVN_log_prob (d : MultivariateNormal) (x1 x2 : R) : R :=
  let '(y1, y2) := whiten d x1 x2 in
  let M := y1 * y1 + y2 * y2 in
  let half_log_det := ln (l11 (scale_tril d)) + ln (l22 (scale_tril d)) in
  - (1 / 2) * (2 * ln (2 * PI) + M) - half_log_det.

(** The gradient of [MVN_log_prob] in its point, by the chain rule through
    [whiten]. *)
Definition MVN_grad_log_prob (d : MultivariateNormal) (x1 x2 : R) : R * R :=
  let L := scale_tril d in
  let '(y1, y2) := whiten d x1 x2 in
  (- (y1 / l11 L - y2 * (l21 L / l11 L) / l22 L), - (y2 / l22 L)).

(** [MultivariateNormal.rsample] for one point: [loc + L eps]. *)
Definition MVN_transform (d : MultivariateNormal) (eps1 eps2 : R) : list R :=
  let L := scale_tril d in
  [loc1 d + l11 L * eps1; loc2 d + (l21 L * eps1 + l22 L * eps2)].

(** [n] rows of [k] standard-normal draws each *)
Fixpoint randn_rows (n k : nat) (g : Rng) : Tensor * Rng :=
  match n with
  | O => ([], g)
  | S n' =>
      let (z, g1) := randn k g in
      let (zs, g2) := randn_rows n' k g1 in
      (z :: zs, g2)
  end.

(** *** Gaussian *)

Record Gaussian : Type := mkGaussian {
  mean : list R;
  cov : Tensor
}.

(** [Gaussian.__init__]: registers the two buffers. *)
Definition Gaussian_init (mean : list R) (cov : Tensor) : result Gaussian :=
  Ok (mkGaussian mean cov).

(** The [distribution] property, built anew at every use. *)
Definition Gaussian_distribution (self : Gaussian) : result MultivariateNormal :=
  MultivariateNormal_init (mean self) (cov self).

(** [Gaussian.sample] *)
Definition Gaussian_sample (self : Gaussian) (num_samples : nat) : M Tensor :=
  d <- lift (Gaussian_distribution self) ;;
  eps <- draw (randn_rows num_samples 2) ;;
  ret (map (fun e => MVN_transform d (nth 0 e 0) (nth 1 e 0)) eps).

(** [log_prob] of one row of the batch, as a row of the (batch_size, 1) result *)
Definition point_log_prob (d : MultivariateNormal) (p : list R) : result (list R) :=
  match p with
  | [x1; x2] => Ok [MVN_log_prob d x1 x2]
  | _ => Raise ShapeError
  end.

(** [y.view(-1, 1)]: refused for a tensor without elements, for which the
    size [-1] stands for is ambiguous. *)
Definition view_column (y : Tensor) : result Tensor :=
  match y with
  | [] => Raise EmptyBatch
  | _ :: _ => Ok y
  end.

(** [Gaussian.log_density]: [log_prob(x).view(-1, 1)] *)
Definition Gaussian_log_density (self : Gaussian) (x : Tensor) : result Tensor :=
  result_bind (Gaussian_distribution self) (fun d =>
  result_bind (map_result (point_log_prob d) x) view_column).

(** What [jacrev(self.log_density)] evaluates to at one point: the gradient
    of the log-probability there, an exception where [log_density] raises
    ([Gaussian_jacrev_sound] proves both). *)
Definition Gaussian_jacrev (self : Gaussian) (p : list R) : result (list R) :=
  result_bind (Gaussian_distribution self) (fun d =>
  match p with
  | [x1; x2] => let '(g1, g2) := MVN_grad_log_prob d x1 x2 in Ok [g1; g2]
  | _ => Raise ShapeError
  end).

(** [Gaussian] as a [Density] *)
Definition Gaussian_density (self : Gaussian) : Density :=
  mkDensity (Gaussian_log_density self) (Gaussian_jacrev self).

(** *** Langevin dynamics *)

(** [LangevinSDE]: drift [sigma**2 * score(xt) / 2], diffusion
    [sigma * ones_like(xt)]. *)
Definition LangevinSDE (sigma : R) (density : Density) : SDE :=
  mkSDE (fun xt t => result_map (fun s => divs (smul (sigma ^ 2) s) 2) (score density xt))
        (fun xt t => Ok (smul sigma (ones_like xt))).

(** *** Gaussian mixture *)

Definition total (w : list R) : R := fold_right Rplus 0 w.

Definition Rltb (a b : R) : bool := if Rlt_dec a b then true else false.

(** [D.Categorical(probs=w, validate_args=False)] keeps
    [w / w.sum(-1, keepdim=True)].  With a zero sum every entry is [inf] or
    [nan]: [None] stands for that tensor. *)
Record Categorical : Type := mkCategorical {
  num_events : nat;
  probs : option (list R)
}.

Definition Categorical_init (w : list R) : Categorical :=
  mkCategorical (length w)
    (if Req_dec_T (total w) 0 then None
     else Some (map (fun v => v / total w) w)).

(** The slot of the cumulative distribution [c] a uniform draw [u] falls in,
    [c_(k-1) < u <= c_k]: the number of cumulative sums below [u], which the
    kernel finds by binary search.  [p] holds the increments of [c]. *)
Fixpoint pick (p : list R) (u : R) : nat :=
  match p with
  | [] => O
  | q :: rest => if Rlt_dec q u then S (pick rest (u - q)) else O
  end.

(** [torch.argmax]: the first index of the largest entry *)
Fixpoint argmax (v : list R) : nat :=
  match v with
  | [] => O
  | a :: rest =>
      match rest with
      | [] => O
      | _ :: _ => if Rlt_dec a (nth (argmax rest) rest 0) then S (argmax rest) else O
      end
  end.

(** [n] uniform draws *)
Definition rand (n : nat) (g : Rng) : list R * Rng :=
  (map (uniforms g) (seq (uniforms_used g) n),
   mkRng (normals g) (normals_used g) (uniforms g) (uniforms_used g + n)
     (exponentials g) (exponentials_used g)).

(** [n] draws of the exponential distribution of rate one *)
Definition exponential (n : nat) (g : Rng) : list R * Rng :=
  (map (exponentials g) (seq (exponentials_used g) n),
   mkRng (normals g) (normals_used g) (uniforms g) (uniforms_used g)
     (exponentials g) (exponentials_used g + n)).

(** [torch.multinomial(probs, n, replacement=True)]: refuses [n = 0], and a
    probability tensor with [inf], [nan] or a negative entry, or with a sum
    that is not positive.  A single sample is the index of the largest
    [p_i / q_i] for exponential draws [q]; [n >= 2] samples take one uniform
    draw each, placed in the cumulative distribution normalised by its sum. *)
Definition multinomial (p : option (list R)) (n : nat) : M (list nat) :=
  match n with
  | O => lift (Raise NoSamples)
  | S n' =>
      match p with
      | None => lift (Raise InvalidMultinomial)
      | Some p =>
          if existsb (fun q => Rltb q 0) p then lift (Raise InvalidMultinomial)
          else if Rltb 0 (total p) then
            match n' with
            | O =>
                q <- draw (exponential (length p)) ;;
                ret [argmax (zip_with Rdiv p q)]
            | S _ =>
                us <- draw (rand n) ;;
                ret (map (pick (map (fun v => v / total p) p)) us)
            end
          else lift (Raise InvalidMultinomial)
      end
  end.

(** [Categorical.sample] *)
Definition Categorical_sample (c : Categorical) (n : nat) : M (list nat) :=
  multinomial (probs c) n.

Record MixtureSameFamily : Type := mkMixture {
  mixture_distribution : Categorical;
  component_distribution : list MultivariateNormal
}.

(** [MultivariateNormal(loc=means, covariance_matrix=covs)] with a batch of
    components: one factorisation per component, the first failure raised. *)
Fixpoint MultivariateNormal_batch (means : Tensor) (covs : list Tensor)
  : result (list MultivariateNormal) :=
  match means, covs with
  | [], [] => Ok []
  | m :: means', c :: covs' =>
      result_bind (MultivariateNormal_init m c) (fun d =>
      result_bind (MultivariateNormal_batch means' covs') (fun ds => Ok (d :: ds)))
  | _, _ => Raise ShapeError
  end.

(** [MultivariateNormal.sample] of a batch of [k] components, [n] times:
    [eps] of shape (n, k, 2), then [loc + L eps] per component. *)
Fixpoint component_samples (comps : list MultivariateNormal) (n : nat) (g : Rng)
  : list Tensor * Rng :=
  match n with
  | O => ([], g)
  | S n' =>
      let (eps, g1) := randn_rows (length comps) 2 g in
      let (rest, g2) := component_samples comps n' g1 in
      (zip_with (fun d e => MVN_transform d (nth 0 e 0) (nth 1 e 0)) comps eps :: rest, g2)
  end.

(** [torch.gather] along the component axis *)
Definition gather (comp_samples : list Tensor) (mix_sample : list nat) : Tensor :=
  zip_with (fun comps k => nth k comps []) comp_samples mix_sample.

(** [MixtureSameFamily.sample] *)
Definition MixtureSameFamily_sample (d : MixtureSameFamily) (n : nat) : M Tensor :=
  mix_sample <- Categorical_sample (mixture_distribution d) n ;;
  comp_samples <- draw (component_samples (component_distribution d) n) ;;
  ret (gather comp_samples mix_sample).

Record GaussianMixture : Type := mkGaussianMixture {
  nmodes : nat;
  means : Tensor;
  covs : list Tensor;
  weights : list R
}.

(** [GaussianMixture.__init__]: counts the modes and registers the buffers. *)
Definition GaussianMixture_init (means : Tensor) (covs : list Tensor) (weights : list R)
  : result GaussianMixture :=
  Ok (mkGaussianMixture (length means) means covs weights).

(** [D.MixtureSameFamily(mixture_distribution, component_distribution)]:
    a [ValueError] unless there are as many mixture weights as components. *)
Definition MixtureSameFamily_init (mixture : Categorical)
  (components : list MultivariateNormal) : result MixtureSameFamily :=
  if Nat.eqb (num_events mixture) (length components)
  then Ok (mkMixture mixture components)
  else Raise MixtureMismatch.

(** The [distribution] property, built anew at every use: the arguments
    first, in their order, then the mixture. *)
Definition GaussianMixture_distribution (self : GaussianMixture)
  : result MixtureSameFamily :=
  let mixture := Categorical_init (weights self) in
  result_bind (MultivariateNormal_batch (means self) (covs self))
    (MixtureSameFamily_init mixture).

(** [GaussianMixture.sample] *)
Definition GaussianMixture_sample (self : GaussianMixture) (num_samples : nat) : M Tensor :=
  d <- lift (GaussianMixture_distribution self) ;;
  MixtureSameFamily_sample d num_samples.

(** ** Gaussians of any dimension

    [Gaussian] itself does not fix the dimension: it hands whatever mean and
    covariance it holds to [MultivariateNormal].  [Nd] reads the density
    side of the class (distribution, [log_density], score) for a mean of
    shape (d,) and a covariance of shape (d, d); in two dimensions it is the
    model above ([Nd_cholesky_2D], [Nd_log_prob_2D], [Nd_grad_log_prob_2D]). *)

(** [torch.eye(d)] *)
Definition eye (d : nat) : Tensor :=
  map (fun i => map (fun j => if Nat.eqb i j then 1 else 0) (seq 0 d)) (seq 0 d).

Module Nd.

Definition dot (a b : list R) : R := total (zip_with Rmult a b).

(** The entries of row [i] of the Cholesky factor left of the diagonal, from
    row [i] of the matrix and the rows of the factor above:
    [l_ij = (a_ij - sum_(k<j) l_ik l_jk) / l_jj]. *)
Fixpoint cholesky_off (a : list R) (Ls : list (list R)) (acc : list R) : list R :=
  match Ls with
  | [] => acc
  | Lj :: Ls' =>
      cholesky_off a Ls'
        (acc ++ [(nth (length acc) a 0 - dot acc Lj) / nth (length acc) Lj 0])
  end.

(** Row after row; the diagonal entry is [sqrt (a_ii - sum_(k<i) l_ik^2)],
    and the factorisation fails unless that radicand is positive.  Row [i]
    of the factor is kept up to its diagonal entry, the entries right of it
    being zero. *)
Fixpoint cholesky_rows (A : list (list R)) (Ls : list (list R))
  : result (list (list R)) :=
  match A with
  | [] => Ok Ls
  | a :: A' =>
      let acc := cholesky_off a Ls [] in
      let v := nth (length Ls) a 0 - dot acc acc in
      if Rlt_dec 0 v then cholesky_rows A' (Ls ++ [acc ++ [sqrt v]])
      else Raise NotPositiveDefinite
  end.

(** [torch.linalg.cholesky]: wants a square matrix, reads its lower
    triangle, raises unless the matrix is positive definite. *)
Definition cholesky (cov : Tensor) : result (list (list R)) :=
  if forallb (fun row => Nat.eqb (length row) (length cov)) cov
  then cholesky_rows cov []
  else Raise ShapeError.

Record MultivariateNormal : Type := mkMVN {
  loc : list R;
  scale_tril : list (list R)
}.

(** [D.MultivariateNormal(loc, covariance_matrix, validate_args=False)] *)
Definition MultivariateNormal_init (loc : list R) (cov : Tensor)
  : result MultivariateNormal :=
  result_map (mkMVN loc) (cholesky cov).

(** The solution [y] of [L y = b], by forward substitution; [y] holds the
    entries found so far. *)
Fixpoint solve_lower (L : list (list R)) (b : list R) (y : list R) : list R :=
  match L, b with
  | row :: L', bi :: b' =>
      solve_lower L' b' (y ++ [(bi - dot y row) / nth (length y) row 0])
  | _, _ => y
  end.

Definition diagonal (L : list (list R)) : list R := map (fun row => last row 0) L.

(** [MultivariateNormal.log_prob] at one point:
    [-0.5 * (d * log(2 pi) + M) - half_log_det]. *)
Definition MVN_log_prob (d : MultivariateNormal) (p : list R) : R :=
  let y := solve_lower (scale_tril d) (zip_with Rminus p (loc d)) [] in
  let M := dot y y in
  let half_log_det := total (map ln (diagonal (scale_tril d))) in
  - (1 / 2) * (INR (length (loc d)) * ln (2 * PI) + M) - half_log_det.

(** The unit vector [e_i] of length [d] *)
Definition unit (i d : nat) : list R :=
  map (fun k => if Nat.eqb k i then 1 else 0) (seq 0 d).

(** The gradient of [MVN_log_prob] in its point, by the chain rule through
    the triangular solve: coordinate [i] is [- y . (L^-1 e_i)]. *)
Definition MVN_grad_log_prob (d : MultivariateNormal) (p : list R) : list R :=
  let y := solve_lower (scale_tril d) (zip_with Rminus p (loc d)) [] in
  map (fun i => - dot y (solve_lower (scale_tril d) (unit i (length (loc d))) []))
    (seq 0 (length (loc d))).

(** A point and a factor fit the distribution when they have its dimension. *)
Definition fits (d : MultivariateNormal) (p : list R) : bool :=
  (Nat.eqb (length p) (length (loc d))
   && Nat.eqb (length (scale_tril d)) (length (loc d)))%bool.

(** [log_prob] of one row of the batch, as a row of the (batch_size, 1) result *)
Definition point_log_prob (d : MultivariateNormal) (p : list R) : result (list R) :=
  if fits d p then Ok [MVN_log_prob d p] else Raise ShapeError.

Record Gaussian : Type := mkGaussian {
  mean : list R;
  cov : Tensor
}.

(** [Gaussian.__init__]: registers the two buffers. *)
Definition Gaussian_init (mean : list R) (cov : Tensor) : result Gaussian :=
  Ok (mkGaussian mean cov).

(** The [distribution] property, built anew at every use. *)
Definition Gaussian_distribution (self : Gaussian) : result MultivariateNormal :=
  MultivariateNormal_init (mean self) (cov self).

(** [Gaussian.log_density]: [log_prob(x).view(-1, 1)] *)
Definition Gaussian_log_density (self : Gaussian) (x : Tensor) : result Tensor :=
  result_bind (Gaussian_distribution self) (fun d =>
  result_bind (map_result (point_log_prob d) x) view_column).

(** What [jacrev(self.log_density)] evaluates to at one point. *)
Definition Gaussian_jacrev (self : Gaussian) (p : list R) : result (list R) :=
  result_bind (Gaussian_distribution self) (fun d =>
  if fits d p then Ok (MVN_grad_log_prob d p) else Raise ShapeError).

(** [Gaussian] as a [Density] *)
Definition Gaussian_density (self : Gaussian) : Density :=
  mkDensity (Gaussian_log_density self) (Gaussian_jacrev self).

End Nd.

(** ** Tensors as objects

    For the claims about aliasing the simulators are read once more with
    tensors as objects: a [ref] names a tensor of the [Heap], a Python
    variable holds a [ref], [x.clone()] and every out-of-place operation
    make a new object, and an assignment [x = ...] rebinds the variable. *)

Module Obj.

Definition ref : Type := nat.
Definition Heap : Type := list Tensor.

(** The values of the object [r]. *)
Definition load (H : Heap) (r : ref) : Tensor := nth r H [].

Definition HM (A : Type) : Type := St (Heap * Rng) A.

(** A new tensor object holding [v]. *)
Definition alloc (v : Tensor) : HM ref :=
  fun s => Ok (length (fst s), (fst s ++ [v], snd s)).

Definition read (r : ref) : HM Tensor :=
  fun s => Ok (load (fst s) r, s).

(** A computation on values, run on the generator of the state. *)
Definition on_rng {A} (m : M A) : HM A :=
  fun s =>
    match m (snd s) with
    | Ok (a, g) => Ok (a, (fst s, g))
    | Raise e => Raise e
    end.

(** [x.clone()] *)
Definition clone (x : ref) : HM ref :=
  v <- read x ;; alloc v.

(** [a + b], [a * b], [c * a], [a * c]: the result is a new tensor. *)
Definition add (a b : ref) : HM ref :=
  va <- read a ;; vb <- read b ;; alloc (tadd va vb).
Definition mul (a b : ref) : HM ref :=
  va <- read a ;; vb <- read b ;; alloc (tmul va vb).
Definition rmul (c : R) (a : ref) : HM ref :=
  va <- read a ;; alloc (smul c va).
Definition mul_scalar (a : ref) (c : R) : HM ref :=
  va <- read a ;; alloc (muls va c).

(** [torch.randn_like(x)] *)
Definition randn_like (x : ref) : HM ref :=
  vx <- read x ;; z <- on_rng (draw (randn_like vx)) ;; alloc z.

(** A call of a vector field: a function of the values of [xt] whose result
    is a new tensor. *)
Definition call (f : Tensor -> R -> result Tensor) (xt : ref) (t : R) : HM ref :=
  v <- read xt ;; y <- lift (f v t) ;; alloc y.

Record Simulator : Type := mkSimulator {
  step : ref -> R -> R -> HM ref
}.

(** [Simulator.simulate] *)
Definition simulate (sim : Simulator) (x : ref) (ts : list R) : HM ref :=
  for_each (range (length ts - 1))
    (fun t_idx x =>
       let t := item ts t_idx in
       let h := item ts (t_idx + 1) - item ts t_idx in
       step sim x t h)
    x.

(** The loop of [Simulator.simulate_with_trajectory] over the indices
    [idxs], from the state [(x, xs)]. *)
Definition trajectory_loop (sim : Simulator) (ts : list R) (idxs : list nat)
  (x_xs : ref * list ref) : HM (ref * list ref) :=
  for_each idxs
    (fun t_idx '(x, xs) =>
       let t := item ts t_idx in
       let h := item ts (t_idx + 1) - item ts t_idx in
       x <- step sim x t h ;;
       c <- clone x ;;
       ret (x, xs ++ [c]))
    x_xs.

(** [torch.stack(xs, dim=1)]: a new tensor with the values of the [xs]. *)
Definition stack_dim1 (xs : list ref) : HM Trajectory :=
  fun s => Ok (map (load (fst s)) xs, s).

(** [Simulator.simulate_with_trajectory] *)
Definition simulate_with_trajectory (sim : Simulator) (x : ref) (ts : list R)
  : HM Trajectory :=
  c <- clone x ;;
  '(_, xs) <- trajectory_loop sim ts (range (length ts - 1)) (x, [c]) ;;
  stack_dim1 xs.

(** [EulerSimulator.step]: [xt + h * self.ode.drift_coefficient(xt, t)] *)
Definition EulerSimulator (ode : ODE) : Simulator :=
  mkSimulator (fun xt t h =>
    d <- call (ode_drift_coefficient ode) xt t ;;
    hd <- rmul h d ;;
    add xt hd).

(** [EulerMaruyamaSimulator.step] *)
Definition EulerMaruyamaSimulator (sde : SDE) : Simulator :=
  mkSimulator (fun xt t h =>
    d <- call (drift_coefficient sde) xt t ;;
    hd <- rmul h d ;;
    a <- add xt hd ;;
    s <- call (diffusion_coefficient sde) xt t ;;
    z <- randn_like xt ;;
    sz <- mul s z ;;
    r <- lift (math_sqrt h) ;;
    b <- mul_scalar sz r ;;
    add a b).

End Obj.

(** ** Vocabulary of the properties *)

(** The ODE that has the drift of an SDE. *)
Definition ode_of (sde : SDE) : ODE := mkODE (drift_coefficient sde).

(** A generator for the examples. *)
Definition rng0 : Rng := mkRng (fun _ => 0) 0 (fun _ => 0) 0 (fun _ => 1) 0.

(** The steps a schedule asks for, in its order: the pairs
    [(ts[i], ts[i+1] - ts[i])]. *)
Fixpoint increments (ts : list R) : list (R * R) :=
  match ts with
  | [] => []
  | t :: rest =>
      match rest with
      | [] => []
      | t' :: _ => (t, t' - t) :: increments rest
      end
  end.

(** One step per pair, each from the state the one before returned. *)
Fixpoint steps (sim : Simulator) (incs : list (R * R)) (x : Tensor) : M Tensor :=
  match incs with
  | [] => ret x
  | (t, h) :: rest => y <- step sim x t h ;; steps sim rest y
  end.

(** The same steps, every state they return kept. *)
Fixpoint states (sim : Simulator) (incs : list (R * R)) (x : Tensor) : M (list Tensor) :=
  match incs with
  | [] => ret []
  | (t, h) :: rest =>
      y <- step sim x t h ;;
      ys <- states sim rest y ;;
      ret (y :: ys)
  end.

(** The Cholesky factor of [r^2 I]: [r] on the diagonal. *)
Definition iso_factor (r : R) (d : nat) : list (list R) :=
  map (fun i => repeat 0 i ++ [r]) (seq 0 d).

(** A mixture of two unit Gaussians with the weights [1] and [3], which do
    not sum to one. *)
Definition two_means : Tensor := [[0; 0]; [1; 1]].
Definition two_covs : list Tensor := [[[1; 0]; [0; 1]]; [[1; 0]; [0; 1]]].
Definition two_weights : list R := [1; 3].

(** The samples of all components for [n] rows, from the normal draws of
    [g] on: row [i], component [j] uses the draws [2 (i K + j)] and
    [2 (i K + j) + 1]. *)
Definition component_rows (comps : list MultivariateNormal) (g : Rng) (n : nat)
  : list Tensor :=
  map (fun i =>
         zip_with (fun d e => MVN_transform d (nth 0 e 0) (nth 1 e 0)) comps
           (map (fun j => [normals g (normals_used g + 2 * (i * length comps + j));
                           normals g (normals_used g + 2 * (i * length comps + j) + 1)])
              (seq 0 (length comps))))
      (seq 0 n).

(** A generator whose draws differ from one another. *)
Definition rng1 : Rng :=
  mkRng (fun i => INR i + 1) 0 (fun _ => 1 / 2) 0 (fun i => INR i + 1) 0.

(** [H'] is [H] with new objects after it: no object of [H] has changed. *)
Definition extends (H H' : Obj.Heap) : Prop := exists new, H' = H ++ new.

(** The step of [osim] computes on objects what the step of [sim] computes
    on values, changes no existing object and returns an object of the heap. *)
Definition refines (osim : Obj.Simulator) (sim : Simulator) : Prop :=
  forall (xt : Obj.ref) (t h : R) (H : Obj.Heap) (g : Rng), (xt < length H)%nat ->
    match step sim (Obj.load H xt) t h g with
    | Ok (y, g') =>
        exists r H', Obj.step osim xt t h (H, g) = Ok (r, (H', g')) /\
                     extends H H' /\ (r < length H')%nat /\ Obj.load H' r = y
    | Raise e => Obj.step osim xt t h (H, g) = Raise e
    end.

(** A step changes no existing object. *)
Definition out_of_place (osim : Obj.Simulator) : Prop :=
  forall (xt : Obj.ref) (t h : R) (H : Obj.Heap) (g : Rng) r H' g', (xt < length H)%nat ->
    Obj.step osim xt t h (H, g) = Ok (r, (H', g')) ->
    extends H H' /\ (r < length H')%nat.

(** * The rest of the lab: plotting indices, mixture constructors *)

(** ** Indices to record: [every_nth_index] *)

(** A Python integer that fits a 64-bit tensor entry. *)
Definition int64_fits (z : Z) : bool :=
  ((- 2 ^ 63 <=? z)%Z && (z <? 2 ^ 63)%Z)%bool.

(** [torch.arange(start, end, step)] on integers: [ceil((end - start) / step)]
    values from [start] in steps of [step]; a [RuntimeError] ([None]) for an
    argument that does not fit 64 bits, for a zero step, for bounds on the
    wrong side of the step's sign, and for a size whose computation
    [(end - start + step - sgn) / step] leaves 64 bits. *)
Definition arange (start stop step : Z) : option (list Z) :=
  if negb (int64_fits start && int64_fits stop && int64_fits step)%bool then None
  else if (step =? 0)%Z then None
  else if (0 <? step)%Z then
    if (stop <? start)%Z then None
    else if negb (int64_fits (stop - start + step - 1)) then None
    else Some (map (fun k => (start + Z.of_nat k * step)%Z)
                 (seq 0 (Z.to_nat ((stop - start + step - 1) / step))))
  else
    if (start <? stop)%Z then None
    else if negb (int64_fits (stop - start + step + 1)) then None
    else Some (map (fun k => (start + Z.of_nat k * step)%Z)
                 (seq 0 (Z.to_nat ((start - stop + (- step) - 1) / (- step))))).

(** [every_nth_index]; [torch.tensor([num_timesteps - 1])] needs an entry
    that fits 64 bits. *)
Definition every_nth_index (num_timesteps n : Z) : option (list Z) :=
  if (n =? 1)%Z then arange 0 num_timesteps 1
  else
    match arange 0 (num_timesteps - 1) n with
    | Some a =>
        if int64_fits (num_timesteps - 1) then Some (a ++ [(num_timesteps - 1)%Z])
        else None
    | None => None
    end.

(** [xs[indices]] for a tensor of indices: an index below zero counts from
    the end, an index out of range is an [IndexError] ([None]). *)
Fixpoint index_select {A} (xs : list A) (indices : list Z) : option (list A) :=
  match indices with
  | [] => Some []
  | i :: rest =>
      let n := Z.of_nat (length xs) in
      let j := if (i <? 0)%Z then (i + n)%Z else i in
      if ((0 <=? j)%Z && (j <? n)%Z)%bool then
        match nth_error xs (Z.to_nat j), index_select xs rest with
        | Some a, Some r => Some (a :: r)
        | _, _ => None
        end
      else None
  end.

(** The frames [graph_dynamics] and [animate_dynamics] show: the timesteps
    and the trajectory slices at [every_nth_index(len(timesteps), plot_every)]. *)
Definition select_frames (timesteps : list R) (xts : Trajectory) (plot_every : Z)
  : option (list R * list Tensor) :=
  match every_nth_index (Z.of_nat (length timesteps)) plot_every with
  | None => None
  | Some indices_to_plot =>
      match index_select timesteps indices_to_plot, index_select xts indices_to_plot with
      | Some plot_timesteps, Some plot_xts => Some (plot_timesteps, plot_xts)
      | _, _ => None
      end
  end.


(** ** Vocabulary of the further properties *)

(** The indices [every_nth_index] returns when it returns. *)
Definition every_nth_index_list (num_timesteps n : Z) : list Z :=
  map (fun k => (Z.of_nat k * n)%Z)
    (seq 0 (Z.to_nat ((num_timesteps - 1 + n - 1) / n)))
  ++ [(num_timesteps - 1)%Z].

(** The number of entries of a tensor. *)
Definition numel (x : Tensor) : nat := list_sum (shape x).

(** Drift and diffusion always return, and return tensors of the shape of
    the state: the contract of the docstrings of [SDE]. *)
Definition returns_state_shaped (sde : SDE) : Prop :=
  forall x t, exists d s,
    drift_coefficient sde x t = Ok d /\ diffusion_coefficient sde x t = Ok s /\
    shape d = shape x /\ shape s = shape x.


(** The factor an explicit Euler rollout of [dX = - theta X dt] multiplies
    the state with: the product of [1 - theta * h] over the steps. *)
Definition decay_factor (theta : R) (incs : list (R * R)) : R :=
  fold_right (fun th acc => (1 - theta * snd th) * acc) 1 incs.

(** Drift and diffusion do not look at the time. *)
Definition autonomous (sde : SDE) : Prop :=
  forall x t t',
    drift_coefficient sde x t = drift_coefficient sde x t' /\
    diffusion_coefficient sde x t = diffusion_coefficient sde x t'.


(** ** Mixture constructors *)

(** [torch.linspace(start, end, steps)] *)
Definition linspace (start stop : R) (steps : nat) : list R :=
  map (fun i => start + INR i * ((stop - start) / INR (steps - 1))) (seq 0 steps).

(** [GaussianMixture.symmetric_2D]: [nmodes] components evenly placed on the
    circle of radius [scale], each with covariance [std**2 * I] and weight
    [1 / nmodes]. *)
Definition symmetric_2D (nmodes : nat) (std scale : R) : result GaussianMixture :=
  let angles := firstn nmodes (linspace 0 (2 * PI) (nmodes + 1)) in
  let means := map (fun a => [cos a * scale; sin a * scale]) angles in
  let covs := map (fun _ => [[1 * std ^ 2; 0]; [0; 1 * std ^ 2]]) (seq 0 nmodes) in
  let weights := map (fun _ => 1 / INR nmodes) (seq 0 nmodes) in
  GaussianMixture_init means covs weights.




(** A step returns a tensor object made during the step, and changes no
    object that existed before. *)
Definition makes_new_object (osim : Obj.Simulator) : Prop :=
  forall (xt : Obj.ref) (t h : R) (H : Obj.Heap) (g : Rng) r H' g',
    (xt < length H)%nat ->
    Obj.step osim xt t h (H, g) = Ok (r, (H', g')) ->
    extends H H' /\ (length H <= r < length H')%nat.

(** * Properties *)

(** ** Tensors *)

Lemma zip_with_length {A B C} (f : A -> B -> C) a b :
  length (zip_with f a b) = Nat.min (length a) (length b).
Proof.
  revert b; induction a as [|x a IH]; intros [|y b]; simpl; auto.
Qed.

Lemma zip_with_nth {A B C} (f : A -> B -> C) a b n da db dc :
  (n < length a)%nat -> (n < length b)%nat ->
  nth n (zip_with f a b) dc = f (nth n a da) (nth n b db).
Proof.
  revert b n; induction a as [|x a IH]; intros [|y b] [|n]; simpl; intros; try lia; auto.
  apply IH; lia.
Qed.

Lemma tmap_shape f x : shape (tmap f x) = shape x.
Proof.
  unfold shape, tmap. rewrite map_map. apply map_ext. intros row. apply length_map.
Qed.

Lemma randn_like_shape x : forall g, shape (fst (randn_like x g)) = shape x.
Proof.
  induction x as [|row rest IH]; intros g; simpl; auto.
  specialize (IH (snd (randn (length row) g))).
  unfold randn in *. simpl in *.
  destruct (randn_like rest _) as [zs g2]. simpl in *.
  rewrite length_map, length_seq. congruence.
Qed.

Lemma row_mul_zero (row z : list R) :
  length z = length row ->
  zip_with Rmult (map (fun _ => 0) row) z = map (fun _ => 0) row.
Proof.
  revert z; induction row as [|v row IH]; intros [|w z]; simpl; intros Hlen; try discriminate; auto.
  rewrite IH by congruence. f_equal. lra.
Qed.

Lemma tmul_zeros_like x z : shape z = shape x -> tmul (zeros_like x) z = zeros_like x.
Proof.
  unfold tmul, zeros_like, tmap, shape.
  revert z; induction x as [|row x IH]; intros [|w z]; simpl; intros Hs; try discriminate; auto.
  injection Hs as Hrow Hrest.
  rewrite row_mul_zero by assumption. f_equal. apply IH. assumption.
Qed.

Lemma muls_zeros_like x r : muls (zeros_like x) r = zeros_like x.
Proof.
  unfold muls, zeros_like, tmap. rewrite map_map. apply map_ext. intros row.
  rewrite map_map. apply map_ext. intros _. lra.
Qed.

Lemma row_add_zero (row d : list R) :
  zip_with Rplus (zip_with Rplus row d) (map (fun _ => 0) row) = zip_with Rplus row d.
Proof.
  revert d; induction row as [|v row IH]; intros [|w d]; simpl; auto.
  rewrite IH. f_equal. lra.
Qed.

Lemma tadd_zeros_like x y : tadd (tadd x y) (zeros_like x) = tadd x y.
Proof.
  unfold tadd, zeros_like, tmap.
  revert y; induction x as [|row x IH]; intros [|d y]; simpl; auto.
  rewrite IH, row_add_zero. reflexivity.
Qed.

Lemma smul_zero_ones_like x : smul 0 (ones_like x) = zeros_like x.
Proof.
  unfold smul, ones_like, zeros_like, tmap. rewrite map_map. apply map_ext. intros row.
  rewrite map_map. apply map_ext. intros _. lra.
Qed.

Lemma entry_tadd x y b i :
  (b < length x)%nat -> (b < length y)%nat ->
  (i < length (nth b x []))%nat -> (i < length (nth b y []))%nat ->
  entry (tadd x y) b i = entry x b i + entry y b i.
Proof.
  intros Hb Hb' Hi Hi'. unfold entry, tadd.
  rewrite (zip_with_nth _ x y b [] []) by assumption.
  apply zip_with_nth; assumption.
Qed.

Lemma entry_tmap f x b i :
  (b < length x)%nat -> (i < length (nth b x []))%nat ->
  entry (tmap f x) b i = f (entry x b i).
Proof.
  intros Hb Hi. unfold entry, tmap.
  rewrite (nth_indep _ [] (map f [])) by (rewrite length_map; assumption).
  rewrite map_nth.
  rewrite (nth_indep _ 0 (f 0)) by (rewrite length_map; assumption).
  apply map_nth.
Qed.

Lemma tadd_shape x y : shape y = shape x -> shape (tadd x y) = shape x.
Proof.
  unfold shape, tadd.
  revert y; induction x as [|row x IH]; intros [|d y]; simpl; intros Hs; try discriminate; auto.
  injection Hs as Hrow Hrest.
  rewrite zip_with_length, Hrow, Nat.min_id. f_equal. apply IH. assumption.
Qed.

Lemma tmul_shape x y : shape y = shape x -> shape (tmul x y) = shape x.
Proof.
  unfold shape, tmul.
  revert y; induction x as [|row x IH]; intros [|d y]; simpl; intros Hs; try discriminate; auto.
  injection Hs as Hrow Hrest.
  rewrite zip_with_length, Hrow, Nat.min_id. f_equal. apply IH. assumption.
Qed.

(** Unfolds the tensor operations on explicit tensors. *)
Ltac tensor_simpl :=
  unfold tadd, tmul, smul, muls, divs, zeros_like, ones_like, tmap; simpl.

(** ** The Euler step *)

(** C7. Where the drift returns [d], [EulerSimulator.step] returns
    [xt + h * d]: entry by entry [xt[b,i] + h * d[b,i]], of the shape of [xt]
    when [d] has it.  The step is deterministic: it leaves the random
    generator as it found it and its output does not depend on it. *)
Theorem EulerSimulator_step_spec (ode : ODE) (xt : Tensor) (t h : R) (d : Tensor) :
  ode_drift_coefficient ode xt t = Ok d ->
  (forall g, step (EulerSimulator ode) xt t h g = Ok (tadd xt (smul h d), g)) /\
  (forall b i, (b < length xt)%nat -> (b < length d)%nat ->
     (i < length (nth b xt []))%nat -> (i < length (nth b d []))%nat ->
     entry (tadd xt (smul h d)) b i = entry xt b i + h * entry d b i) /\
  (shape d = shape xt -> shape (tadd xt (smul h d)) = shape xt) /\
  (forall g g', value (step (EulerSimulator ode) xt t h g) =
                value (step (EulerSimulator ode) xt t h g')).
Proof.
  intros Hd. repeat split.
  - intros g. simpl. unfold lift, Euler_step. rewrite Hd. reflexivity.
  - intros b i Hb Hb' Hi Hi'.
    assert (Hrow : nth b (smul h d) [] = map (fun v => h * v) (nth b d [])).
    { unfold smul, tmap.
      rewrite (nth_indep _ [] (map (fun v => h * v) [])) by (rewrite length_map; assumption).
      apply map_nth. }
    rewrite entry_tadd; try assumption.
    + f_equal. apply entry_tmap; assumption.
    + unfold smul, tmap. rewrite length_map. assumption.
    + rewrite Hrow, length_map. assumption.
  - intros Hs. apply tadd_shape. unfold smul. rewrite tmap_shape. assumption.
  - intros g g'. simpl. unfold lift, value.
    destruct (Euler_step ode xt t h); reflexivity.
Qed.

Lemma EulerSimulator_step_spec_witness :
  step (EulerSimulator (ode_of (OUProcess 1 0))) [[1; 2]] 0 (1 / 2) rng0
  = Ok (tadd [[1; 2]] (smul (1 / 2) (smul (- 1) [[1; 2]])), rng0).
Proof.
  apply (EulerSimulator_step_spec (ode_of (OUProcess 1 0)) [[1; 2]] 0 (1 / 2)
           (smul (- 1) [[1; 2]])).
  reflexivity.
Defined.

(** ** Euler-Maruyama with no diffusion *)

Lemma math_sqrt_nonneg h : 0 <= h -> math_sqrt h = Ok (sqrt h).
Proof.
  intros Hh. unfold math_sqrt. destruct (Rle_dec 0 h); [reflexivity | contradiction].
Qed.

Lemma math_sqrt_negative h : h < 0 -> math_sqrt h = Raise MathDomainError.
Proof.
  intros Hh. unfold math_sqrt. destruct (Rle_dec 0 h); [lra | reflexivity].
Qed.

(** C1, as amended. For an SDE whose diffusion coefficient is the zero tensor
    everywhere and an ODE with the same drift, [EulerMaruyamaSimulator.step]
    returns what [EulerSimulator.step] returns, at every state, time and
    step size [h >= 0]. *)
Theorem EulerMaruyama_zero_diffusion_is_Euler
  (sde : SDE) (ode : ODE) (xt : Tensor) (t h : R) (g : Rng) :
  (forall x s, diffusion_coefficient sde x s = Ok (zeros_like x)) ->
  (forall x s, ode_drift_coefficient ode x s = drift_coefficient sde x s) ->
  0 <= h ->
  value (step (EulerMaruyamaSimulator sde) xt t h g) =
  value (step (EulerSimulator ode) xt t h g).
Proof.
  intros Hzero Hdrift Hh. simpl.
  unfold EulerMaruyama_step, Euler_step, bind, lift, draw, ret, value.
  rewrite Hdrift, Hzero, (math_sqrt_nonneg h Hh).
  destruct (drift_coefficient sde xt t) as [d|e]; simpl; [|reflexivity].
  pose proof (randn_like_shape xt g) as Hshape.
  destruct (randn_like xt g) as [z g']. simpl in *.
  rewrite tmul_zeros_like by assumption.
  rewrite muls_zeros_like, tadd_zeros_like. reflexivity.
Qed.

Lemma OUProcess_zero_sigma_diffusion theta x s :
  diffusion_coefficient (OUProcess theta 0) x s = Ok (zeros_like x).
Proof. simpl. rewrite smul_zero_ones_like. reflexivity. Qed.

Lemma EulerMaruyama_zero_diffusion_is_Euler_witness :
  value (step (EulerMaruyamaSimulator (OUProcess 1 0)) [[1; 2]] 0 (1 / 2) rng0) =
  value (step (EulerSimulator (ode_of (OUProcess 1 0))) [[1; 2]] 0 (1 / 2) rng0).
Proof.
  apply (EulerMaruyama_zero_diffusion_is_Euler (OUProcess 1 0) (ode_of (OUProcess 1 0))).
  - intros x s. apply OUProcess_zero_sigma_diffusion.
  - reflexivity.
  - lra.
Defined.

(** C1, as stated, fails at a negative step size: the Ornstein-Uhlenbeck
    process with [sigma = 0] has zero diffusion, the Euler step from [[1]]
    with [h = -1] returns [[2]], and the Euler-Maruyama step raises the
    [ValueError] of [math.sqrt]. *)
Lemma EulerMaruyama_negative_step_differs :
  (forall x s, diffusion_coefficient (OUProcess 1 0) x s = Ok (zeros_like x)) /\
  value (step (EulerSimulator (ode_of (OUProcess 1 0))) [[1]] 0 (- 1) rng0) = Ok [[2]] /\
  value (step (EulerMaruyamaSimulator (OUProcess 1 0)) [[1]] 0 (- 1) rng0)
    = Raise MathDomainError /\
  value (step (EulerMaruyamaSimulator (OUProcess 1 0)) [[1]] 0 (- 1) rng0) <>
  value (step (EulerSimulator (ode_of (OUProcess 1 0))) [[1]] 0 (- 1) rng0).
Proof.
  assert (HE : value (step (EulerSimulator (ode_of (OUProcess 1 0))) [[1]] 0 (- 1) rng0)
               = Ok [[2]]).
  { simpl. unfold value, lift, Euler_step. tensor_simpl. do 3 f_equal. lra. }
  assert (HM : value (step (EulerMaruyamaSimulator (OUProcess 1 0)) [[1]] 0 (- 1) rng0)
               = Raise MathDomainError).
  { simpl. unfold EulerMaruyama_step, bind, lift, draw, ret, value. simpl.
    rewrite math_sqrt_negative by lra. reflexivity. }
  repeat split.
  - intros x s. apply OUProcess_zero_sigma_diffusion.
  - exact HE.
  - exact HM.
  - rewrite HE, HM. discriminate.
Qed.

(** ** The simulation loop *)

Lemma increments_range (ts : list R) :
  map (fun i => (item ts i, item ts (i + 1) - item ts i)) (range (length ts - 1))
  = increments ts.
Proof.
  unfold range. induction ts as [|t rest IH]; [reflexivity|].
  destruct rest as [|t' rest']; [reflexivity|].
  replace (length (t :: t' :: rest') - 1)%nat with (S (length (t' :: rest') - 1))
    by (simpl; lia).
  cbn [seq map]. rewrite <- seq_shift, map_map.
  change (increments (t :: t' :: rest')) with ((t, t' - t) :: increments (t' :: rest')).
  f_equal. rewrite <- IH. apply map_ext. intros i. reflexivity.
Qed.

Lemma increments_length (ts : list R) : length (increments ts) = (length ts - 1)%nat.
Proof.
  rewrite <- increments_range, length_map. unfold range. apply length_seq.
Qed.

Lemma increments_nth (ts : list R) (i : nat) :
  (i + 1 < length ts)%nat ->
  nth i (increments ts) (0, 0) = (item ts i, item ts (i + 1) - item ts i).
Proof.
  intros Hi. rewrite <- increments_range.
  set (f := fun i => (item ts i, item ts (i + 1) - item ts i)).
  rewrite (nth_indep _ (0, 0) (f O)) by (rewrite length_map; unfold range; rewrite length_seq; lia).
  rewrite map_nth. unfold range. rewrite seq_nth by lia. reflexivity.
Qed.

Lemma simulate_loop (sim : Simulator) (ts : list R) (idxs : list nat) (x : Tensor) (g : Rng) :
  for_each idxs
    (fun t_idx x => step sim x (item ts t_idx) (item ts (t_idx + 1) - item ts t_idx)) x g
  = steps sim (map (fun i => (item ts i, item ts (i + 1) - item ts i)) idxs) x g.
Proof.
  revert x g; induction idxs as [|i rest IH]; intros x g; [reflexivity|].
  cbn [for_each map steps]. unfold bind.
  destruct (step sim x _ _ g) as [[y g']|e]; [apply IH | reflexivity].
Qed.

Lemma bind_unfold {S A B} (m : St S A) (k : A -> St S B) (s : S) :
  bind m k s = match m s with Ok (a, s') => k a s' | Raise e => Raise e end.
Proof. reflexivity. Qed.

Lemma last_default {A} (a : A) (l : list A) (d d' : A) :
  last (a :: l) d = last (a :: l) d'.
Proof.
  revert a; induction l as [|b l IH]; intros a; [reflexivity|]. apply (IH b).
Qed.

Lemma trajectory_loop_states (sim : Simulator) (ts : list R) (idxs : list nat)
  (x : Tensor) (xs : list Tensor) (g : Rng) :
  for_each idxs
    (fun t_idx '(x, xs) =>
       x <- step sim x (item ts t_idx) (item ts (t_idx + 1) - item ts t_idx) ;;
       ret (x, xs ++ [clone x])) (x, xs) g
  = match states sim (map (fun i => (item ts i, item ts (i + 1) - item ts i)) idxs) x g with
    | Ok (ys, g') => Ok ((last ys x, xs ++ ys), g')
    | Raise e => Raise e
    end.
Proof.
  revert x xs g; induction idxs as [|i rest IH]; intros x xs g.
  - cbn. unfold ret. rewrite app_nil_r. reflexivity.
  - cbn [for_each map states]. rewrite !bind_unfold.
    destruct (step sim x _ _ g) as [[y g']|e]; [|reflexivity].
    unfold ret at 1. rewrite IH. rewrite bind_unfold.
    destruct (states sim _ y g') as [[ys g'']|e]; [|reflexivity].
    unfold ret, clone. rewrite <- app_assoc. cbn [app].
    destruct ys as [|y' ys]; [reflexivity|].
    do 3 f_equal. change (last (y :: y' :: ys) x) with (last (y' :: ys) x).
    apply last_default.
Qed.

Lemma simulate_steps (sim : Simulator) (x : Tensor) (ts : list R) (g : Rng) :
  simulate sim x ts g = steps sim (increments ts) x g.
Proof.
  unfold simulate. cbv zeta. rewrite simulate_loop, increments_range. reflexivity.
Qed.

Lemma simulate_with_trajectory_states (sim : Simulator) (x : Tensor) (ts : list R) (g : Rng) :
  simulate_with_trajectory sim x ts g
  = (ys <- states sim (increments ts) x ;; ret (x :: ys)) g.
Proof.
  unfold simulate_with_trajectory. cbv zeta. unfold bind at 1.
  rewrite trajectory_loop_states, increments_range. unfold bind, ret, stack_dim1, clone.
  destruct (states sim (increments ts) x g) as [[ys g']|e]; reflexivity.
Qed.

Lemma steps_states (sim : Simulator) (incs : list (R * R)) (x : Tensor) (g : Rng) :
  steps sim incs x g
  = match states sim incs x g with
    | Ok (ys, g') => Ok (last ys x, g')
    | Raise e => Raise e
    end.
Proof.
  revert x g; induction incs as [|[t h] rest IH]; intros x g; [reflexivity|].
  cbn [steps states]. unfold bind.
  destruct (step sim x t h g) as [[y g']|e]; [|reflexivity].
  rewrite IH. destruct (states sim rest y g') as [[ys g'']|e]; [|reflexivity].
  unfold ret. destruct ys as [|y' ys]; [reflexivity|].
  do 2 f_equal. change (last (y :: y' :: ys) x) with (last (y' :: ys) x).
  apply last_default.
Qed.

Lemma states_length (sim : Simulator) (incs : list (R * R)) :
  forall x g ys g', states sim incs x g = Ok (ys, g') -> length ys = length incs.
Proof.
  induction incs as [|[t h] rest IH]; intros x g ys g' H.
  - cbn in H. unfold ret in H. injection H as <- _. reflexivity.
  - cbn [states] in H. unfold bind in H.
    destruct (step sim x t h g) as [[y g1]|e]; [|discriminate].
    destruct (states sim rest y g1) as [[ys1 g2]|e] eqn:E; [|discriminate].
    unfold ret in H. injection H as <- _. simpl. f_equal. eapply IH; eassumption.
Qed.

Lemma states_total (sim : Simulator) (admissible : R -> Prop) (incs : list (R * R)) :
  (forall x t h g, admissible h -> exists y g', step sim x t h g = Ok (y, g')) ->
  Forall (fun th => admissible (snd th)) incs ->
  forall x g, exists ys g', states sim incs x g = Ok (ys, g').
Proof.
  intros Hstep Hadm. induction Hadm as [|[t h] rest Hh _ IH]; intros x g.
  - exists [], g. reflexivity.
  - destruct (Hstep x t h g Hh) as (y & g1 & Hy).
    destruct (IH y g1) as (ys & g2 & Hys).
    exists (y :: ys), g2. cbn [states]. unfold bind. rewrite Hy, Hys. reflexivity.
Qed.



(** The Euler-Maruyama step raises on a negative step size once drift and
    diffusion have returned; the Euler step does not look at the sign. *)
Lemma EulerMaruyama_step_negative (sde : SDE) (x d s : Tensor) (t h : R) (g : Rng) :
  drift_coefficient sde x t = Ok d ->
  diffusion_coefficient sde x t = Ok s ->
  h < 0 ->
  step (EulerMaruyamaSimulator sde) x t h g = Raise MathDomainError.
Proof.
  intros Hd Hs Hh. simpl. unfold EulerMaruyama_step, bind, lift, draw, ret.
  rewrite Hd, Hs. simpl. destruct (randn_like x g) as [z g'].
  rewrite (math_sqrt_negative h Hh). reflexivity.
Qed.




(** C4. The last state of the trajectory [simulate_with_trajectory] returns
    is the state [simulate] returns on the same inputs from the same random
    generator; the two calls raise together, and leave the generator in the
    same state. *)
Theorem simulate_is_last_of_trajectory
  (sim : Simulator) (x : Tensor) (ts : list R) (g : Rng) :
  simulate sim x ts g
  = match simulate_with_trajectory sim x ts g with
    | Ok (traj, g') => Ok (last traj [], g')
    | Raise e => Raise e
    end.
Proof.
  rewrite simulate_steps, simulate_with_trajectory_states, steps_states.
  unfold bind, ret.
  destruct (states sim (increments ts) x g) as [[ys g']|e]; [|reflexivity].
  f_equal. f_equal. destruct ys as [|y ys]; [reflexivity|].
  change (last (x :: y :: ys) []) with (last (y :: ys) []).
  apply last_default.
Qed.

(** C5, as amended. [simulate] and [simulate_with_trajectory] do not validate
    the schedule.  Whatever the schedule, they take one step per pair of
    consecutive timesteps, in the order given and with [h = ts[i+1] - ts[i]]
    as it comes (nothing is reordered or removed), and they raise only what a
    step raises; on the empty schedule they take no step and return the
    initial state, as a trajectory of one state. *)
Theorem simulate_takes_schedule_as_given
  (sim : Simulator) (x : Tensor) (ts : list R) (g : Rng) :
  simulate sim x ts g = steps sim (increments ts) x g /\
  simulate_with_trajectory sim x ts g
    = (ys <- states sim (increments ts) x ;; ret (x :: ys)) g /\
  simulate sim x [] g = Ok (x, g) /\
  simulate_with_trajectory sim x [] g = Ok ([x], g).
Proof.
  split; [apply simulate_steps|].
  split; [apply simulate_with_trajectory_states|].
  split.
  - rewrite simulate_steps. reflexivity.
  - rewrite simulate_with_trajectory_states. reflexivity.
Qed.

(** C5, as stated, fails: the empty schedule, a decreasing schedule and a
    schedule that repeats a timestep are all simulated without an error. *)
Lemma invalid_schedules_are_simulated :
  simulate (EulerSimulator (ode_of (OUProcess 1 0))) [[1]] [] rng0 = Ok ([[1]], rng0) /\
  simulate_with_trajectory (EulerSimulator (ode_of (OUProcess 1 0))) [[1]] [] rng0
    = Ok ([[[1]]], rng0) /\
  simulate (EulerSimulator (ode_of (OUProcess 1 0))) [[1]] [1; 0] rng0 = Ok ([[2]], rng0) /\
  value (simulate_with_trajectory (EulerMaruyamaSimulator (OUProcess 1 0)) [[1]] [0; 0] rng0)
    = Ok [[[1]]; [[1]]].
Proof.
  repeat split.
  - rewrite simulate_steps. cbn. unfold bind, lift, ret, Euler_step. tensor_simpl.
    do 4 f_equal. unfold item. simpl. lra.
  - rewrite simulate_with_trajectory_states. cbn.
    unfold bind, lift, draw, ret, value, EulerMaruyama_step. simpl.
    rewrite math_sqrt_nonneg by (unfold item; simpl; lra).
    tensor_simpl. do 5 f_equal. unfold item. simpl. lra.
Qed.

(** ** Diffusion coefficients *)

Lemma sigma_ones_like_entries (sigma : R) (x : Tensor) :
  shape (smul sigma (ones_like x)) = shape x /\
  Forall (Forall (fun v => v = sigma)) (smul sigma (ones_like x)).
Proof.
  split.
  - unfold smul, ones_like. rewrite !tmap_shape. reflexivity.
  - unfold smul, ones_like, tmap. rewrite map_map.
    apply Forall_forall. intros row Hrow. apply in_map_iff in Hrow as (r & <- & _).
    apply Forall_forall. intros v Hv. rewrite map_map in Hv.
    apply in_map_iff in Hv as (w & <- & _). lra.
Qed.

(** C8, as amended. For every [sigma], the diffusion coefficients of
    [BrownianMotion], [OUProcess] and [LangevinSDE] do not depend on the time
    and are, at every state, the tensor of the state's shape with [sigma] in
    every entry: non-negative in every entry when [sigma >= 0], negative in
    every entry when [sigma < 0]. *)
Theorem diffusion_time_independent_nonneg
  (sigma theta : R) (density : Density) (x : Tensor) (t t' : R) :
  Forall (fun sde =>
            diffusion_coefficient sde x t = diffusion_coefficient sde x t' /\
            exists s, diffusion_coefficient sde x t = Ok s /\
                      shape s = shape x /\
                      Forall (Forall (fun v => v = sigma)) s /\
                      (0 <= sigma -> Forall (Forall (fun v => 0 <= v)) s) /\
                      (sigma < 0 -> Forall (Forall (fun v => v < 0)) s))
    [BrownianMotion sigma; OUProcess theta sigma; LangevinSDE sigma density].
Proof.
  assert (H : exists s, Ok (smul sigma (ones_like x)) = Ok s /\
                        shape s = shape x /\
                        Forall (Forall (fun v => v = sigma)) s /\
                        (0 <= sigma -> Forall (Forall (fun v => 0 <= v)) s) /\
                        (sigma < 0 -> Forall (Forall (fun v => v < 0)) s)).
  { exists (smul sigma (ones_like x)).
    destruct (sigma_ones_like_entries sigma x) as [Hshape Hall].
    split; [reflexivity|]. split; [exact Hshape|]. split; [exact Hall|].
    split; intros Hsigma;
      (eapply Forall_impl; [|exact Hall]); intros row Hrow;
      (eapply Forall_impl; [|exact Hrow]); intros v ->; exact Hsigma. }
  repeat constructor; simpl; exact H.
Qed.

Lemma diffusion_time_independent_nonneg_witness :
  Forall (fun sde =>
            diffusion_coefficient sde [[1; 2]] 0 = diffusion_coefficient sde [[1; 2]] 1 /\
            exists s, diffusion_coefficient sde [[1; 2]] 0 = Ok s /\
                      shape s = shape [[1; 2]] /\
                      Forall (Forall (fun v => v = 1 / 2)) s /\
                      (0 <= 1 / 2 -> Forall (Forall (fun v => 0 <= v)) s) /\
                      (1 / 2 < 0 -> Forall (Forall (fun v => v < 0)) s))
    [BrownianMotion (1 / 2); OUProcess 1 (1 / 2);
     LangevinSDE (1 / 2) (Gaussian_density (mkGaussian [0; 0] [[1; 0]; [0; 1]]))].
Proof.
  apply (diffusion_time_independent_nonneg (1 / 2) 1
           (Gaussian_density (mkGaussian [0; 0] [[1; 0]; [0; 1]])) [[1; 2]] 0 1).
Defined.

(** C8, as stated, fails for a negative [sigma]: the diffusion coefficient of
    [BrownianMotion(-1)], and of [OUProcess(1, -1)], is [-1]. *)
Lemma negative_sigma_negative_diffusion :
  diffusion_coefficient (BrownianMotion (- 1)) [[0]] 0 = Ok [[- 1]] /\
  diffusion_coefficient (OUProcess 1 (- 1)) [[0]] 0 = Ok [[- 1]] /\
  entry [[- 1]] 0 0 < 0.
Proof.
  repeat split.
  - simpl. tensor_simpl. do 3 f_equal. lra.
  - simpl. tensor_simpl. do 3 f_equal. lra.
  - unfold entry. simpl. lra.
Qed.

(** ** Langevin dynamics of a Gaussian *)

(** A function with [f (x + h) - f x = l h + A h^2] has derivative [l] at [x]. *)
Lemma quadratic_derivative (f : R -> R) (x l A : R) :
  (forall h, f (x + h) - f x = l * h + A * h * h) ->
  derivable_pt_lim f x l.
Proof.
  intros Hf eps Heps.
  assert (Hpos : 0 < eps / (Rabs A + 1)).
  { apply Rdiv_lt_0_compat; [assumption|]. pose proof (Rabs_pos A). lra. }
  exists (mkposreal _ Hpos). intros h Hh Hsmall. simpl in Hsmall.
  rewrite Hf.
  replace ((l * h + A * h * h) / h - l) with (A * h) by (field; assumption).
  rewrite Rabs_mult.
  pose proof (Rabs_pos A) as HA. pose proof (Rabs_pos h) as Hh'.
  apply Rle_lt_trans with ((Rabs A + 1) * Rabs h); [nra|].
  apply Rlt_le_trans with ((Rabs A + 1) * (eps / (Rabs A + 1))).
  - apply Rmult_lt_compat_l; lra.
  - right. field. lra.
Qed.

Lemma cholesky_positive (cov : Tensor) (L : Tril2) :
  cholesky cov = Ok L -> 0 < l11 L /\ 0 < l22 L.
Proof.
  unfold cholesky.
  destruct cov as [|[|a [|b [|? ?]]] [|[|c [|d [|? ?]]] [|? ?]]]; try discriminate.
  destruct (Rlt_dec 0 a) as [Ha|]; [|discriminate].
  destruct (Rlt_dec 0 _) as [Hd|]; [|discriminate].
  intros H. injection H as <-. simpl. split; apply sqrt_lt_R0; assumption.
Qed.

Lemma MVN_log_prob_derivatives (d : MultivariateNormal) (x1 x2 : R) :
  0 < l11 (scale_tril d) -> 0 < l22 (scale_tril d) ->
  derivable_pt_lim (fun u => MVN_log_prob d u x2) x1 (fst (MVN_grad_log_prob d x1 x2)) /\
  derivable_pt_lim (fun u => MVN_log_prob d x1 u) x2 (snd (MVN_grad_log_prob d x1 x2)).
Proof.
  intros H1 H2. destruct d as [m1 m2 [a b c]]. simpl in *.
  unfold MVN_log_prob, MVN_grad_log_prob, whiten. simpl. split.
  - apply quadratic_derivative
      with (A := - (1 / 2) * (1 / (a * a) + b * b / (a * a * c * c))).
    intros h. field. split; lra.
  - apply quadratic_derivative with (A := - (1 / 2) * (1 / (c * c))).
    intros h. field. split; lra.
Qed.

Lemma MultivariateNormal_init_positive loc cov d :
  MultivariateNormal_init loc cov = Ok d ->
  0 < l11 (scale_tril d) /\ 0 < l22 (scale_tril d).
Proof.
  unfold MultivariateNormal_init.
  destruct loc as [|m1 [|m2 [|? ?]]]; try discriminate.
  destruct (cholesky cov) as [L|e] eqn:E; [|discriminate].
  intros H. injection H as <-. simpl. eapply cholesky_positive. eassumption.
Qed.

(** What [jacrev] returns for a Gaussian is the gradient of its
    log-density, and it raises where the log-density raises. *)
Lemma Gaussian_jacrev_sound (G : Gaussian) : jacrev_sound (Gaussian_density G).
Proof.
  intros p. unfold log_density_at. simpl.
  unfold Gaussian_log_density, Gaussian_jacrev.
  destruct (Gaussian_distribution G) as [d|e] eqn:Ed; simpl; [|reflexivity].
  destruct (MultivariateNormal_init_positive _ _ _ Ed) as [H1 H2].
  destruct p as [|x1 [|x2 [|? ?]]]; simpl; try reflexivity.
  destruct (MVN_log_prob_derivatives d x1 x2 H1 H2) as [D1 D2].
  unfold MVN_grad_log_prob, whiten in D1, D2. simpl in D1, D2.
  eexists. split; [reflexivity|]. split; [reflexivity|].
  intros [|[|i]] Hi; simpl in Hi; try lia; simpl.
  - exact D1.
  - exact D2.
Qed.

Lemma map_result_ok {A B} (f : A -> result B) (g : A -> B) (xs : list A) :
  (forall a, In a xs -> f a = Ok (g a)) -> map_result f xs = Ok (map g xs).
Proof.
  induction xs as [|a xs IH]; intros H; [reflexivity|].
  simpl. rewrite (H a) by (left; reflexivity). simpl.
  rewrite IH by (intros q Hq; apply H; right; exact Hq). reflexivity.
Qed.

Lemma score_rows (density : Density) (grad : list R -> list R) (x : Tensor) :
  x <> [] ->
  (forall p, In p x -> jacrev_log_density density p = Ok (grad p)) ->
  score density x = Ok (map grad x).
Proof.
  intros Hx H. unfold score. destruct x as [|p x]; [contradiction|].
  apply map_result_ok. exact H.
Qed.

Lemma cholesky_isotropic (v : R) :
  0 < v -> cholesky [[v; 0]; [0; v]] = Ok (mkTril2 (sqrt v) 0 (sqrt v)).
Proof.
  intros Hv. unfold cholesky.
  destruct (Rlt_dec 0 v) as [_|]; [|contradiction].
  replace (0 / sqrt v) with 0 by (unfold Rdiv; ring).
  replace (v - 0 * 0) with v by ring.
  destruct (Rlt_dec 0 v) as [_|]; [|contradiction]. reflexivity.
Qed.

Lemma nth_map_seq {A} (f : nat -> A) (n i : nat) (d : A) :
  (i < n)%nat -> nth i (map f (seq 0 n)) d = f i.
Proof.
  intros Hi. rewrite (nth_indep _ d (f O)) by (rewrite length_map, length_seq; exact Hi).
  rewrite map_nth, seq_nth by exact Hi. reflexivity.
Qed.

(** ** Gaussians of any dimension: the isotropic case *)

Lemma dot_zeros_l (n : nat) (b : list R) : Nd.dot (repeat 0 n) b = 0.
Proof.
  unfold Nd.dot. revert b. induction n as [|n IH]; intros [|v b]; simpl; try reflexivity.
  rewrite IH. ring.
Qed.

Lemma dot_zeros_r (y t : list R) : Nd.dot y (repeat 0 (length y) ++ t) = 0.
Proof.
  unfold Nd.dot. induction y as [|v y IH]; simpl; [destruct t; reflexivity|].
  rewrite IH. ring.
Qed.

Lemma nth_iso_row (r : R) (j : nat) : nth j (repeat 0 j ++ [r]) 0 = r.
Proof.
  rewrite app_nth2 by (rewrite repeat_length; lia).
  rewrite repeat_length, Nat.sub_diag. reflexivity.
Qed.

Lemma repeat_snoc (j : nat) : repeat 0 j ++ [0] = repeat 0 (S j).
Proof. symmetry. apply (repeat_cons j 0). Qed.

Lemma cholesky_off_iso (r : R) (a : list R) :
  forall m j,
    (forall k, (j <= k < j + m)%nat -> nth k a 0 = 0) ->
    Nd.cholesky_off a (map (fun i => repeat 0 i ++ [r]) (seq j m)) (repeat 0 j)
    = repeat 0 (j + m).
Proof.
  induction m as [|m IH]; intros j Ha; simpl.
  - rewrite Nat.add_0_r. reflexivity.
  - rewrite repeat_length, dot_zeros_l, nth_iso_row, (Ha j) by lia.
    replace ((0 - 0) / r) with 0 by (unfold Rdiv; ring).
    rewrite repeat_snoc, IH by (intros k Hk; apply Ha; lia).
    f_equal. lia.
Qed.

Lemma iso_factor_S (r : R) (i : nat) :
  iso_factor r (S i) = iso_factor r i ++ [repeat 0 i ++ [r]].
Proof. unfold iso_factor. rewrite seq_S, map_app. reflexivity. Qed.

Lemma iso_factor_length (r : R) (d : nat) : length (iso_factor r d) = d.
Proof. unfold iso_factor. rewrite length_map, length_seq. reflexivity. Qed.

Lemma cholesky_rows_iso (c : R) (rowf : nat -> list R) :
  0 < c ->
  forall m i,
    (forall k, (i <= k < i + m)%nat ->
       nth k (rowf k) 0 = c /\ forall j, (j < k)%nat -> nth j (rowf k) 0 = 0) ->
    Nd.cholesky_rows (map rowf (seq i m)) (iso_factor (sqrt c) i)
    = Ok (iso_factor (sqrt c) (i + m)).
Proof.
  intros Hc. induction m as [|m IH]; intros i Hrows; cbn [seq map Nd.cholesky_rows].
  - rewrite Nat.add_0_r. reflexivity.
  - destruct (Hrows i ltac:(lia)) as [Hd Hz].
    assert (Hoff : Nd.cholesky_off (rowf i) (iso_factor (sqrt c) i) [] = repeat 0 i).
    { apply (cholesky_off_iso (sqrt c) (rowf i) i 0). intros k Hk. apply Hz. lia. }
    rewrite Hoff, iso_factor_length, Hd, dot_zeros_l.
    replace (c - 0) with c by ring.
    destruct (Rlt_dec 0 c) as [_|]; [|contradiction].
    rewrite <- iso_factor_S, IH by (intros k Hk; apply Hrows; lia).
    f_equal. f_equal. lia.
Qed.

Lemma smul_eye_rows (c : R) (d : nat) :
  smul c (eye d)
  = map (fun k => map (fun j => c * (if Nat.eqb k j then 1 else 0)) (seq 0 d)) (seq 0 d).
Proof.
  unfold smul, tmap, eye. rewrite map_map. apply map_ext. intros k.
  rewrite map_map. reflexivity.
Qed.

Lemma cholesky_smul_eye (c : R) (d : nat) :
  0 < c -> Nd.cholesky (smul c (eye d)) = Ok (iso_factor (sqrt c) d).
Proof.
  intros Hc. unfold Nd.cholesky. rewrite smul_eye_rows.
  set (rowf := fun k => map (fun j => c * (if Nat.eqb k j then 1 else 0)) (seq 0 d)).
  rewrite length_map, length_seq.
  assert (Hsq : forallb (fun row => Nat.eqb (length row) d) (map rowf (seq 0 d)) = true).
  { apply forallb_forall. intros row Hin. apply in_map_iff in Hin.
    destruct Hin as (k & <- & _). unfold rowf.
    rewrite length_map, length_seq. apply Nat.eqb_refl. }
  rewrite Hsq.
  apply (cholesky_rows_iso c rowf Hc d 0).
  intros k Hk. unfold rowf. split.
  - rewrite nth_map_seq by lia. rewrite Nat.eqb_refl. ring.
  - intros j Hj. rewrite nth_map_seq by lia.
    destruct (Nat.eqb_spec k j) as [->|_]; [lia|ring].
Qed.

Lemma solve_lower_iso (r : R) (b : list R) :
  forall j y, length y = j ->
    Nd.solve_lower (map (fun i => repeat 0 i ++ [r]) (seq j (length b))) b y
    = y ++ map (fun v => (v - 0) / r) b.
Proof.
  induction b as [|v b IH]; intros j y Hy; cbn [length seq map Nd.solve_lower].
  - rewrite app_nil_r. reflexivity.
  - subst j. rewrite dot_zeros_r, nth_iso_row.
    rewrite IH by (rewrite length_app; simpl; lia).
    rewrite <- app_assoc. reflexivity.
Qed.

Lemma solve_lower_iso_factor (r : R) (d : nat) (b : list R) :
  length b = d ->
  Nd.solve_lower (iso_factor r d) b [] = map (fun v => (v - 0) / r) b.
Proof. intros <-. apply (solve_lower_iso r b 0 []). reflexivity. Qed.

Lemma zip_minus_zeros (p : list R) :
  zip_with Rminus p (repeat 0 (length p)) = map (fun v => v - 0) p.
Proof. induction p as [|v p IH]; simpl; [reflexivity|]. rewrite IH. reflexivity. Qed.

Lemma dot_map_self (w : R -> R) (q : list R) :
  Nd.dot (map w q) (map w q) = total (map (fun v => w v * w v) q).
Proof.
  unfold Nd.dot. induction q as [|v q IH]; simpl; [reflexivity|]. rewrite IH. reflexivity.
Qed.

Lemma dot_indicator (s : R) (i : nat) (y : list R) :
  forall j,
    Nd.dot y (map (fun k => if Nat.eqb k i then s else 0) (seq j (length y)))
    = if ((j <=? i)%nat && (i <? j + length y)%nat)%bool then nth (i - j) y 0 * s else 0.
Proof.
  unfold Nd.dot. induction y as [|v y IH]; intros j; cbn [length seq map zip_with total fold_right].
  - destruct (Nat.leb_spec j i); simpl; [|reflexivity].
    destruct (Nat.ltb_spec i (j + 0)); [lia|reflexivity].
  - change (fold_right Rplus 0 ?l) with (total l). rewrite IH.
    destruct (Nat.eqb_spec j i) as [->|Hne].
    + rewrite Nat.leb_refl, Nat.sub_diag.
      replace (i <? i + S (length y))%nat with true by (symmetry; apply Nat.ltb_lt; lia).
      replace (S i <=? i)%nat with false by (symmetry; apply Nat.leb_gt; lia).
      simpl. ring.
    + destruct (Nat.leb_spec j i) as [Hle|Hgt].
      * replace (S j <=? i)%nat with true by (symmetry; apply Nat.leb_le; lia).
        replace (j + S (length y))%nat with (S j + length y)%nat by lia.
        destruct (i <? S j + length y)%nat; simpl; [|ring].
        replace (i - j)%nat with (S (i - S j)) by lia. simpl. ring.
      * replace (S j <=? i)%nat with false by (symmetry; apply Nat.leb_gt; lia).
        simpl. ring.
Qed.

Lemma total_map_set_coord (h : R -> R) (u : R) (p : list R) :
  forall i, (i < length p)%nat ->
    total (map h (set_coord i u p)) = total (map h p) - h (nth i p 0) + h u.
Proof.
  unfold total. induction p as [|v p IH]; intros i Hi; [simpl in Hi; lia|].
  destruct i as [|i]; simpl.
  - ring.
  - rewrite IH by (simpl in Hi; lia). ring.
Qed.

Lemma set_coord_length (i : nat) (u : R) (p : list R) :
  length (set_coord i u p) = length p.
Proof.
  revert i. induction p as [|v p IH]; intros [|i]; simpl; try reflexivity.
  rewrite IH. reflexivity.
Qed.

Lemma total_constant_row (a : R) (d : nat) :
  total (map (fun _ : nat => a) (seq 0 d)) = INR d * a.
Proof.
  unfold total. generalize 0%nat. induction d as [|d IH]; intros s.
  - simpl. ring.
  - rewrite S_INR. cbn [seq map fold_right]. rewrite IH. ring.
Qed.

Lemma list_as_map_nth (p : list R) : p = map (fun i => nth i p 0) (seq 0 (length p)).
Proof.
  apply (nth_ext _ _ 0 0).
  - rewrite length_map, length_seq. reflexivity.
  - intros n Hn. rewrite nth_map_seq by exact Hn. reflexivity.
Qed.

Lemma iso_diagonal (r : R) (d : nat) :
  Nd.diagonal (iso_factor r d) = map (fun _ => r) (seq 0 d).
Proof.
  unfold Nd.diagonal, iso_factor. rewrite map_map. apply map_ext.
  intros i. apply last_last.
Qed.

Lemma iso_log_prob (r : R) (p : list R) :
  Nd.MVN_log_prob (Nd.mkMVN (repeat 0 (length p)) (iso_factor r (length p))) p
  = - (1 / 2) * (INR (length p) * ln (2 * PI)
                 + total (map (fun v => (v - 0 - 0) / r * ((v - 0 - 0) / r)) p))
    - INR (length p) * ln r.
Proof.
  unfold Nd.MVN_log_prob. cbn [Nd.loc Nd.scale_tril].
  rewrite repeat_length, zip_minus_zeros, iso_diagonal.
  rewrite solve_lower_iso_factor by apply length_map.
  rewrite !map_map, (dot_map_self (fun v => (v - 0 - 0) / r)).
  rewrite total_constant_row. reflexivity.
Qed.

Lemma iso_grad_log_prob (r : R) (p : list R) :
  Nd.MVN_grad_log_prob (Nd.mkMVN (repeat 0 (length p)) (iso_factor r (length p))) p
  = map (fun i => - ((nth i p 0 - 0 - 0) / r * ((1 - 0) / r))) (seq 0 (length p)).
Proof.
  unfold Nd.MVN_grad_log_prob. cbn [Nd.loc Nd.scale_tril].
  rewrite repeat_length, zip_minus_zeros.
  rewrite solve_lower_iso_factor by apply length_map.
  rewrite map_map.
  apply map_ext_in. intros i Hi. apply in_seq in Hi. f_equal.
  rewrite solve_lower_iso_factor
    by (unfold Nd.unit; rewrite length_map, length_seq; reflexivity).
  unfold Nd.unit. rewrite map_map.
  rewrite (map_ext _ (fun k => if Nat.eqb k i then (1 - 0) / r else 0))
    by (intros k; destruct (Nat.eqb k i); [reflexivity|unfold Rdiv; ring]).
  rewrite <- (length_map (fun v => (v - 0 - 0) / r) p) at 1.
  rewrite dot_indicator, length_map. simpl (0 <=? i)%nat.
  replace (i <? 0 + length p)%nat with true by (symmetry; apply Nat.ltb_lt; lia).
  cbn [andb]. rewrite Nat.sub_0_r.
  rewrite (nth_indep _ 0 ((0 - 0 - 0) / r)) by (rewrite length_map; lia).
  rewrite (map_nth (fun v => (v - 0 - 0) / r)). reflexivity.
Qed.

Lemma iso_fits (r : R) (p : list R) :
  Nd.fits (Nd.mkMVN (repeat 0 (length p)) (iso_factor r (length p))) p = true.
Proof.
  unfold Nd.fits. cbn [Nd.loc Nd.scale_tril].
  rewrite repeat_length, iso_factor_length, Nat.eqb_refl. reflexivity.
Qed.

Lemma iso_log_density_at (c : R) (d : nat) (q : list R) :
  0 < c -> length q = d ->
  log_density_at (Nd.Gaussian_density (Nd.mkGaussian (repeat 0 d) (smul c (eye d)))) q
  = - (1 / 2) * (INR d * ln (2 * PI)
                 + total (map (fun v => (v - 0 - 0) / sqrt c * ((v - 0 - 0) / sqrt c)) q))
    - INR d * ln (sqrt c).
Proof.
  intros Hc <-. unfold log_density_at. cbn [log_density Nd.Gaussian_density].
  unfold Nd.Gaussian_log_density, Nd.Gaussian_distribution, Nd.MultivariateNormal_init.
  cbn [Nd.mean Nd.cov]. rewrite (cholesky_smul_eye c _ Hc).
  cbn [result_map result_bind map_result]. unfold Nd.point_log_prob.
  rewrite iso_fits. cbn [result_bind view_column entry nth]. apply iso_log_prob.
Qed.

Lemma iso_jacrev (c : R) (d : nat) (p : list R) :
  0 < c -> length p = d ->
  jacrev_log_density (Nd.Gaussian_density (Nd.mkGaussian (repeat 0 d) (smul c (eye d)))) p
  = Ok (map (fun i => - ((nth i p 0 - 0 - 0) / sqrt c * ((1 - 0) / sqrt c))) (seq 0 d)).
Proof.
  intros Hc <-. cbn [jacrev_log_density Nd.Gaussian_density].
  unfold Nd.Gaussian_jacrev, Nd.Gaussian_distribution, Nd.MultivariateNormal_init.
  cbn [Nd.mean Nd.cov]. rewrite (cholesky_smul_eye c _ Hc).
  cbn [result_map result_bind]. rewrite iso_fits, iso_grad_log_prob. reflexivity.
Qed.

Lemma iso_jacrev_sound (c : R) (d : nat) (p : list R) :
  0 < c -> length p = d ->
  exists g,
    jacrev_log_density (Nd.Gaussian_density (Nd.mkGaussian (repeat 0 d) (smul c (eye d)))) p
      = Ok g /\
    is_gradient
      (log_density_at (Nd.Gaussian_density (Nd.mkGaussian (repeat 0 d) (smul c (eye d)))))
      p g.
Proof.
  intros Hc Hd. eexists. split; [apply (iso_jacrev c d p Hc Hd)|].
  assert (Hr : 0 < sqrt c) by (apply sqrt_lt_R0; exact Hc).
  split; [rewrite length_map, length_seq; symmetry; exact Hd|].
  intros i Hi. rewrite nth_map_seq by lia.
  apply (quadratic_derivative _ _ _ (- (1 / (2 * (sqrt c * sqrt c))))).
  intros h.
  rewrite !(iso_log_density_at c d) by (rewrite ?set_coord_length; assumption).
  rewrite !total_map_set_coord by exact Hi.
  field. lra.
Qed.

(** In two dimensions [Nd] is the model of [MultivariateNormal] written out
    on the entries. *)
Lemma Nd_cholesky_2D (a b c d : R) :
  Nd.cholesky [[a; b]; [c; d]]
  = result_map (fun L => [[l11 L]; [l21 L; l22 L]]) (cholesky [[a; b]; [c; d]]).
Proof.
  unfold Nd.cholesky, cholesky.
  cbn [forallb length Nat.eqb andb Nd.cholesky_rows Nd.cholesky_off nth app].
  unfold Nd.dot. cbn [zip_with total fold_right].
  replace (a - 0) with a by ring.
  destruct (Rlt_dec 0 a) as [Ha|Ha]; [|reflexivity].
  cbn [Nd.cholesky_rows Nd.cholesky_off length app nth zip_with total fold_right].
  replace (c - 0) with c by ring.
  replace (d - (c / sqrt a * (c / sqrt a) + 0)) with (d - c / sqrt a * (c / sqrt a)) by ring.
  destruct (Rlt_dec 0 (d - c / sqrt a * (c / sqrt a))) as [Hd|Hd]; reflexivity.
Qed.

Lemma Nd_log_prob_2D (m1 m2 : R) (L : Tril2) (x1 x2 : R) :
  Nd.MVN_log_prob (Nd.mkMVN [m1; m2] [[l11 L]; [l21 L; l22 L]]) [x1; x2]
  = MVN_log_prob (mkMVN m1 m2 L) x1 x2.
Proof.
  unfold Nd.MVN_log_prob, MVN_log_prob, whiten, Nd.diagonal.
  cbn [Nd.loc Nd.scale_tril loc1 loc2 scale_tril zip_with Nd.solve_lower length app nth
       map last].
  unfold Nd.dot. cbn [zip_with total fold_right].
  change (INR 2) with (1 + 1). unfold Rdiv. ring.
Qed.

Lemma Nd_grad_log_prob_2D (m1 m2 : R) (L : Tril2) (x1 x2 : R) :
  Nd.MVN_grad_log_prob (Nd.mkMVN [m1; m2] [[l11 L]; [l21 L; l22 L]]) [x1; x2]
  = [fst (MVN_grad_log_prob (mkMVN m1 m2 L) x1 x2);
     snd (MVN_grad_log_prob (mkMVN m1 m2 L) x1 x2)].
Proof.
  unfold Nd.MVN_grad_log_prob, MVN_grad_log_prob, whiten, Nd.unit.
  cbn [Nd.loc Nd.scale_tril loc1 loc2 scale_tril zip_with Nd.solve_lower length app nth
       map seq Nat.eqb fst snd].
  unfold Nd.dot. cbn [zip_with total fold_right].
  f_equal; [|f_equal]; unfold Rdiv; ring.
Qed.

(** C2, as amended. For [theta > 0] and [sigma <> 0], in every dimension
    [d >= 1], the Langevin SDE built with [sigma] from the zero-mean Gaussian
    of covariance [sigma^2 / (2 theta) I] has, at every state of shape
    (batch_size, d) with at least one row and at every time, the drift
    [- theta * state] and the diffusion coefficient of
    [OUProcess(theta, sigma)]; the score it uses is the gradient of the
    Gaussian's log-density. *)
Theorem Langevin_Gaussian_is_OUProcess
  (theta sigma : R) (d : nat) (G : Nd.Gaussian) (x : Tensor) (t : R) :
  0 < theta -> sigma <> 0 -> (1 <= d)%nat ->
  Nd.Gaussian_init (repeat 0 d) (smul (sigma ^ 2 / (2 * theta)) (eye d)) = Ok G ->
  x <> [] ->
  Forall (fun p => length p = d) x ->
  (forall p, length p = d ->
     exists g, jacrev_log_density (Nd.Gaussian_density G) p = Ok g /\
               is_gradient (log_density_at (Nd.Gaussian_density G)) p g) /\
  drift_coefficient (LangevinSDE sigma (Nd.Gaussian_density G)) x t = Ok (smul (- theta) x) /\
  drift_coefficient (LangevinSDE sigma (Nd.Gaussian_density G)) x t
    = drift_coefficient (OUProcess theta sigma) x t /\
  diffusion_coefficient (LangevinSDE sigma (Nd.Gaussian_density G)) x t
    = diffusion_coefficient (OUProcess theta sigma) x t.
Proof.
  intros Htheta Hsigma _ HG Hne Hx.
  unfold Nd.Gaussian_init in HG. injection HG as <-.
  set (v := sigma ^ 2 / (2 * theta)).
  assert (Hv : 0 < v).
  { unfold v. apply Rdiv_lt_0_compat; [|lra].
    assert (0 < sigma * sigma) by nra. simpl. lra. }
  assert (Hr : sqrt v * sqrt v = v) by (apply sqrt_sqrt; lra).
  assert (Hr0 : 0 < sqrt v) by (apply sqrt_lt_R0; exact Hv).
  split; [intros p Hp; apply (iso_jacrev_sound v d p Hv Hp)|].
  assert (Hdrift : drift_coefficient
                     (LangevinSDE sigma
                        (Nd.Gaussian_density (Nd.mkGaussian (repeat 0 d) (smul v (eye d))))) x t
                   = Ok (smul (- theta) x)).
  { cbn [drift_coefficient LangevinSDE].
    rewrite (score_rows _
               (fun p => map (fun i => - ((nth i p 0 - 0 - 0) / sqrt v * ((1 - 0) / sqrt v)))
                           (seq 0 d)) x Hne).
    - cbn [result_map]. f_equal. unfold divs, smul, tmap. rewrite !map_map.
      apply map_ext_in. intros p Hp.
      rewrite Forall_forall in Hx. specialize (Hx p Hp).
      assert (Hp' : map (fun a => - theta * a) p
                    = map (fun i => - theta * nth i p 0) (seq 0 d)).
      { rewrite (list_as_map_nth p) at 1. rewrite map_map, Hx. reflexivity. }
      rewrite Hp', !map_map.
      apply map_ext. intros i.
      replace ((nth i p 0 - 0 - 0) / sqrt v * ((1 - 0) / sqrt v))
        with (nth i p 0 / (sqrt v * sqrt v)) by (field; lra).
      rewrite Hr. unfold v. field. split; [lra|].
      simpl. intros H0. apply Hsigma. nra.
    - intros p Hp. rewrite Forall_forall in Hx.
      apply (iso_jacrev v d p Hv (Hx p Hp)). }
  split; [exact Hdrift|]. split; [exact Hdrift|]. reflexivity.
Qed.

Lemma Langevin_Gaussian_is_OUProcess_witness :
  (forall p, length p = 1%nat ->
     exists g,
       jacrev_log_density
         (Nd.Gaussian_density (Nd.mkGaussian (repeat 0 1) (smul (1 ^ 2 / (2 * 1)) (eye 1)))) p
         = Ok g /\
       is_gradient
         (log_density_at
            (Nd.Gaussian_density (Nd.mkGaussian (repeat 0 1) (smul (1 ^ 2 / (2 * 1)) (eye 1)))))
         p g) /\
  drift_coefficient
    (LangevinSDE 1 (Nd.Gaussian_density
                      (Nd.mkGaussian (repeat 0 1) (smul (1 ^ 2 / (2 * 1)) (eye 1)))))
    [[1]; [2]] 0 = Ok (smul (- 1) [[1]; [2]]) /\
  drift_coefficient
    (LangevinSDE 1 (Nd.Gaussian_density
                      (Nd.mkGaussian (repeat 0 1) (smul (1 ^ 2 / (2 * 1)) (eye 1)))))
    [[1]; [2]] 0 = drift_coefficient (OUProcess 1 1) [[1]; [2]] 0 /\
  diffusion_coefficient
    (LangevinSDE 1 (Nd.Gaussian_density
                      (Nd.mkGaussian (repeat 0 1) (smul (1 ^ 2 / (2 * 1)) (eye 1)))))
    [[1]; [2]] 0 = diffusion_coefficient (OUProcess 1 1) [[1]; [2]] 0.
Proof.
  apply (Langevin_Gaussian_is_OUProcess 1 1 1
           (Nd.mkGaussian (repeat 0 1) (smul (1 ^ 2 / (2 * 1)) (eye 1))) [[1]; [2]] 0).
  - lra.
  - lra.
  - lia.
  - reflexivity.
  - discriminate.
  - repeat constructor.
Defined.

(** C2, as stated, fails in two places.  At [sigma = 0] the Gaussian has
    the zero matrix for covariance, its score raises (the matrix is not
    positive definite), and so does the Langevin drift, where the
    Ornstein-Uhlenbeck drift is [- theta * state].  On a batch without rows
    the score raises whatever [sigma], where the Ornstein-Uhlenbeck drift
    returns the empty batch. *)
Lemma Langevin_Gaussian_raises :
  (exists G,
     Nd.Gaussian_init (repeat 0 1) (smul (0 ^ 2 / (2 * 1)) (eye 1)) = Ok G /\
     drift_coefficient (LangevinSDE 0 (Nd.Gaussian_density G)) [[1]] 0
       = Raise NotPositiveDefinite /\
     drift_coefficient (OUProcess 1 0) [[1]] 0 = Ok (smul (- 1) [[1]]) /\
     drift_coefficient (LangevinSDE 0 (Nd.Gaussian_density G)) [[1]] 0
       <> drift_coefficient (OUProcess 1 0) [[1]] 0) /\
  (exists G,
     Nd.Gaussian_init (repeat 0 1) (smul (1 ^ 2 / (2 * 1)) (eye 1)) = Ok G /\
     drift_coefficient (LangevinSDE 1 (Nd.Gaussian_density G)) [] 0 = Raise EmptyBatch /\
     drift_coefficient (OUProcess 1 1) [] 0 = Ok [] /\
     drift_coefficient (LangevinSDE 1 (Nd.Gaussian_density G)) [] 0
       <> drift_coefficient (OUProcess 1 1) [] 0).
Proof.
  split.
  - eexists. split; [reflexivity|].
    assert (H : drift_coefficient
                  (LangevinSDE 0 (Nd.Gaussian_density
                     (Nd.mkGaussian (repeat 0 1) (smul (0 ^ 2 / (2 * 1)) (eye 1)))))
                  [[1]] 0 = Raise NotPositiveDefinite).
    { cbn -[pow]. unfold Nd.Gaussian_jacrev, Nd.Gaussian_distribution,
        Nd.MultivariateNormal_init, Nd.cholesky.
      cbn -[pow]. unfold Nd.dot. cbn -[pow].
      destruct (Rlt_dec 0 (0 ^ 2 / (2 * 1) * 1 - 0)) as [Hpos|_]; [|reflexivity].
      exfalso. replace (0 ^ 2 / (2 * 1) * 1 - 0) with 0 in Hpos by field. lra. }
    split; [exact H|]. split; [reflexivity|].
    rewrite H. discriminate.
  - eexists. split; [reflexivity|]. split; [reflexivity|]. split; [reflexivity|].
    discriminate.
Qed.

(** ** Invalid distribution parameters *)

(** The factorisation fails exactly on the matrices whose lower triangle is
    not that of a positive definite matrix. *)
Lemma cholesky_positive_definite (a b c d : R) :
  cholesky [[a; b]; [c; d]] = Raise NotPositiveDefinite <-> ~ (0 < a /\ 0 < a * d - c * c).
Proof.
  unfold cholesky.
  destruct (Rlt_dec 0 a) as [Ha|Ha]; [|split; [intros _ [H _]; contradiction | reflexivity]].
  assert (Hs : sqrt a * sqrt a = a) by (apply sqrt_sqrt; lra).
  assert (Hs0 : 0 < sqrt a) by (apply sqrt_lt_R0; exact Ha).
  assert (Heq : d - c / sqrt a * (c / sqrt a) = (a * d - c * c) / a).
  { rewrite <- Hs at 3 4. field. lra. }
  rewrite Heq.
  destruct (Rlt_dec 0 ((a * d - c * c) / a)) as [Hd|Hd]; split.
  - discriminate.
  - intros H. exfalso. apply H. split; [exact Ha|].
    replace (a * d - c * c) with ((a * d - c * c) / a * a) by (field; lra).
    apply Rmult_lt_0_compat; assumption.
  - intros _ [_ H]. apply Hd. apply Rdiv_lt_0_compat; assumption.
  - reflexivity.
Qed.

Lemma existsb_negative (p : list R) :
  Exists (fun q => q < 0) p -> existsb (fun q => Rltb q 0) p = true.
Proof.
  intros H. apply existsb_exists. apply Exists_exists in H as (q & Hin & Hq).
  exists q. split; [exact Hin|]. unfold Rltb. destruct (Rlt_dec q 0); [reflexivity|contradiction].
Qed.

Lemma MultivariateNormal_batch_nth (mus : Tensor) :
  forall sigmas comps,
    MultivariateNormal_batch mus sigmas = Ok comps ->
    length comps = length mus /\
    forall k d0, (k < length comps)%nat ->
      MultivariateNormal_init (nth k mus []) (nth k sigmas []) = Ok (nth k comps d0).
Proof.
  induction mus as [|m mus IH]; intros [|c sigmas] comps H; simpl in H; try discriminate.
  - injection H as <-. split; [reflexivity|]. intros k d0 Hk. simpl in Hk. lia.
  - destruct (MultivariateNormal_init m c) as [d|] eqn:Ed; [|discriminate]. simpl in H.
    destruct (MultivariateNormal_batch mus sigmas) as [ds|] eqn:Eds; [|discriminate].
    injection H as <-. destruct (IH _ _ Eds) as [Hlen Hnth].
    split; [simpl; congruence|].
    intros [|k] d0 Hk; simpl; [exact Ed|]. apply Hnth. simpl in Hk. lia.
Qed.

Lemma GaussianMixture_distribution_ok
  (k : nat) (mus : Tensor) (sigmas : list Tensor) (ws : list R)
  (comps : list MultivariateNormal) :
  MultivariateNormal_batch mus sigmas = Ok comps ->
  length ws = length mus ->
  GaussianMixture_distribution (mkGaussianMixture k mus sigmas ws)
  = Ok (mkMixture (Categorical_init ws) comps).
Proof.
  intros Hcomps Hlen. unfold GaussianMixture_distribution. cbn [means covs weights].
  rewrite Hcomps. cbn [result_bind]. unfold MixtureSameFamily_init.
  destruct (MultivariateNormal_batch_nth _ _ _ Hcomps) as [HK _].
  cbn [num_events Categorical_init]. rewrite Hlen, HK, Nat.eqb_refl. reflexivity.
Qed.

Lemma GaussianMixture_sample_unfold
  (k : nat) (mus : Tensor) (sigmas : list Tensor) (ws : list R)
  (comps : list MultivariateNormal) (n : nat) (g : Rng) :
  MultivariateNormal_batch mus sigmas = Ok comps ->
  length ws = length mus ->
  GaussianMixture_sample (mkGaussianMixture k mus sigmas ws) n g
  = (mix_sample <- multinomial (probs (Categorical_init ws)) n ;;
     comp_samples <- draw (component_samples comps n) ;;
     ret (gather comp_samples mix_sample)) g.
Proof.
  intros Hcomps Hlen. unfold GaussianMixture_sample. rewrite bind_unfold.
  unfold lift. rewrite (GaussianMixture_distribution_ok k _ _ _ _ Hcomps Hlen).
  reflexivity.
Qed.

(** C6, as amended. The constructors of [Gaussian] and [GaussianMixture] only
    store their arguments and never raise.  A covariance that is not positive
    definite makes [Gaussian.log_density] and [Gaussian.sample] raise when
    they are called; mixture weights that sum to zero or have a negative
    entry once normalised, given in the number of the components, make
    [GaussianMixture.sample] raise when it is called: the sampler refuses
    the weights when it is asked for a sample, and it refuses to draw no
    sample at all. *)
Theorem invalid_parameters_fail_at_use
  (m1 m2 a b c d : R) (mus : Tensor) (sigmas : list Tensor) (ws : list R)
  (comps : list MultivariateNormal) (x : Tensor) (n : nat) (g : Rng) :
  ~ (0 < a /\ 0 < a * d - c * c) ->
  MultivariateNormal_batch mus sigmas = Ok comps ->
  length ws = length mus ->
  total ws = 0 \/ Exists (fun w => w / total ws < 0) ws ->
  (Gaussian_init [m1; m2] [[a; b]; [c; d]] = Ok (mkGaussian [m1; m2] [[a; b]; [c; d]]) /\
   Gaussian_log_density (mkGaussian [m1; m2] [[a; b]; [c; d]]) x = Raise NotPositiveDefinite /\
   Gaussian_sample (mkGaussian [m1; m2] [[a; b]; [c; d]]) n g = Raise NotPositiveDefinite) /\
  (GaussianMixture_init mus sigmas ws
     = Ok (mkGaussianMixture (length mus) mus sigmas ws) /\
   ((1 <= n)%nat ->
    GaussianMixture_sample (mkGaussianMixture (length mus) mus sigmas ws) n g
      = Raise InvalidMultinomial) /\
   GaussianMixture_sample (mkGaussianMixture (length mus) mus sigmas ws) 0 g
     = Raise NoSamples).
Proof.
  intros Hcov Hcomps Hlen Hweights. split.
  - apply (proj2 (cholesky_positive_definite a b c d)) in Hcov.
    split; [reflexivity|]. split.
    + unfold Gaussian_log_density, Gaussian_distribution, MultivariateNormal_init.
      cbn [mean cov]. rewrite Hcov. reflexivity.
    + unfold Gaussian_sample. rewrite bind_unfold.
      unfold lift, Gaussian_distribution, MultivariateNormal_init.
      cbn [mean cov]. rewrite Hcov. reflexivity.
  - split; [reflexivity|]. split.
    + intros Hn. rewrite (GaussianMixture_sample_unfold _ _ _ _ _ _ _ Hcomps Hlen).
      rewrite bind_unfold. destruct n as [|n']; [lia|].
      unfold Categorical_init. cbn [probs multinomial].
      destruct (Req_dec_T (total ws) 0) as [Hz|Hnz]; [reflexivity|].
      destruct Hweights as [Hz|Hneg]; [contradiction|].
      rewrite existsb_negative; [reflexivity|].
      apply Exists_exists in Hneg as (w & Hin & Hw).
      apply Exists_exists. exists (w / total ws). split; [|exact Hw].
      apply in_map_iff. exists w. split; [reflexivity | exact Hin].
    + rewrite (GaussianMixture_sample_unfold _ _ _ _ _ _ _ Hcomps Hlen). reflexivity.
Qed.

Lemma invalid_parameters_fail_at_use_witness :
  (Gaussian_init [0; 0] [[0; 0]; [0; 0]] = Ok (mkGaussian [0; 0] [[0; 0]; [0; 0]]) /\
   Gaussian_log_density (mkGaussian [0; 0] [[0; 0]; [0; 0]]) [[1; 1]] = Raise NotPositiveDefinite /\
   Gaussian_sample (mkGaussian [0; 0] [[0; 0]; [0; 0]]) 1 rng0 = Raise NotPositiveDefinite) /\
  (GaussianMixture_init two_means two_covs [1; -1]
     = Ok (mkGaussianMixture (length two_means) two_means two_covs [1; -1]) /\
   ((1 <= 1)%nat ->
    GaussianMixture_sample (mkGaussianMixture (length two_means) two_means two_covs [1; -1])
      1 rng0 = Raise InvalidMultinomial) /\
   GaussianMixture_sample (mkGaussianMixture (length two_means) two_means two_covs [1; -1])
     0 rng0 = Raise NoSamples).
Proof.
  apply (invalid_parameters_fail_at_use 0 0 0 0 0 0 two_means two_covs [1; -1]
           [mkMVN 0 0 (mkTril2 (sqrt 1) 0 (sqrt 1)); mkMVN 1 1 (mkTril2 (sqrt 1) 0 (sqrt 1))]
           [[1; 1]] 1 rng0).
  - intros [H _]. lra.
  - unfold two_means, two_covs. cbn [MultivariateNormal_batch MultivariateNormal_init].
    rewrite (cholesky_isotropic 1) by lra. reflexivity.
  - reflexivity.
  - left. simpl. lra.
Defined.

(** C6, as stated, fails: a [Gaussian] with the zero matrix for covariance
    and a [GaussianMixture] with a negative normalised weight are both
    constructed without an error. *)
Lemma constructors_accept_invalid_parameters :
  ~ (0 < 0 /\ 0 < 0 * 0 - 0 * 0) /\
  Gaussian_init [0; 0] [[0; 0]; [0; 0]] = Ok (mkGaussian [0; 0] [[0; 0]; [0; 0]]) /\
  Exists (fun w => w / total [2; -1] < 0) [2; -1] /\
  GaussianMixture_init [[0; 0]; [1; 1]] [[[1; 0]; [0; 1]]; [[1; 0]; [0; 1]]] [2; -1]
    = Ok (mkGaussianMixture 2 [[0; 0]; [1; 1]] [[[1; 0]; [0; 1]]; [[1; 0]; [0; 1]]] [2; -1]).
Proof.
  split; [intros [H _]; lra|]. split; [reflexivity|]. split; [|reflexivity].
  apply Exists_cons_tl. apply Exists_cons_hd. simpl.
  replace (2 + (-1 + 0)) with 1 by ring. lra.
Qed.

(** ** Sampling a Gaussian mixture *)

Lemma total_normalized (w : list R) (W : R) :
  total (map (fun v => v / W) w) = total w / W.
Proof.
  induction w as [|v w IH]; simpl; [unfold Rdiv; ring|]. rewrite IH. unfold Rdiv. ring.
Qed.

Lemma existsb_nonnegative (p : list R) :
  Forall (fun q => 0 <= q) p -> existsb (fun q => Rltb q 0) p = false.
Proof.
  induction 1 as [|q p Hq _ IH]; [reflexivity|]. simpl. rewrite IH.
  unfold Rltb. destruct (Rlt_dec q 0); [lra | reflexivity].
Qed.

Lemma randn_rows_spec (K : nat) :
  forall g, randn_rows K 2 g
  = (map (fun j => [normals g (normals_used g + 2 * j);
                    normals g (normals_used g + 2 * j + 1)]) (seq 0 K),
     mkRng (normals g) (normals_used g + 2 * K)
         (uniforms g) (uniforms_used g) (exponentials g) (exponentials_used g)).
Proof.
  induction K as [|K IH]; intros [nm nu um uu em eu].
  - simpl. do 2 f_equal. lia.
  - cbn [randn_rows]. unfold randn at 1.
    cbn [normals normals_used uniforms uniforms_used exponentials exponentials_used].
    rewrite IH. cbn [normals normals_used uniforms uniforms_used exponentials exponentials_used].
    f_equal.
    + cbn [seq map]. f_equal.
      * do 2 (f_equal; try (f_equal; lia)).
      * rewrite <- seq_shift, map_map. apply map_ext. intros j.
        do 2 (f_equal; try (f_equal; lia)).
    + f_equal. lia.
Qed.

Lemma component_samples_spec (comps : list MultivariateNormal) (n : nat) :
  forall g, component_samples comps n g
  = (map (fun i =>
            zip_with (fun d e => MVN_transform d (nth 0 e 0) (nth 1 e 0)) comps
              (map (fun j => [normals g (normals_used g + 2 * (i * length comps + j));
                              normals g (normals_used g + 2 * (i * length comps + j) + 1)])
                   (seq 0 (length comps))))
         (seq 0 n),
     mkRng (normals g) (normals_used g + 2 * (n * length comps))
         (uniforms g) (uniforms_used g) (exponentials g) (exponentials_used g)).
Proof.
  induction n as [|n IH]; intros [nm nu um uu em eu].
  - simpl. do 2 f_equal. lia.
  - cbn [component_samples]. rewrite randn_rows_spec.
    cbn [normals normals_used uniforms uniforms_used exponentials exponentials_used].
    rewrite IH. cbn [normals normals_used uniforms uniforms_used exponentials exponentials_used].
    f_equal.
    + cbn [seq map]. apply f_equal2.
      * apply f_equal. apply map_ext. intros j. do 2 (f_equal; try (f_equal; lia)).
      * rewrite <- seq_shift, map_map. apply map_ext. intros i.
        apply f_equal. apply map_ext. intros j. do 2 (f_equal; try (f_equal; lia)).
    + f_equal. lia.
Qed.

Lemma normalized_nonnegative (ws : list R) :
  Forall (fun w => 0 <= w) ws -> 0 < total ws ->
  Forall (fun q => 0 <= q) (map (fun w => w / total ws) ws).
Proof.
  intros Hws HW. apply Forall_forall. intros q Hq.
  apply in_map_iff in Hq as (w & <- & Hin).
  rewrite Forall_forall in Hws. specialize (Hws w Hin).
  apply Rmult_le_pos; [exact Hws|]. left. apply Rinv_0_lt_compat. exact HW.
Qed.

(** The slot of the cumulative sums a draw [u] falls in. *)
Lemma pick_spec (p : list R) :
  forall u, u <= total p -> 0 < u \/ p <> [] ->
    (pick p u < length p)%nat /\
    (pick p u = 0%nat \/ total (firstn (pick p u) p) < u) /\
    u <= total (firstn (S (pick p u)) p).
Proof.
  induction p as [|q rest IH]; intros u Hle Hne.
  - simpl in Hle. destruct Hne as [Hu|Hne]; [lra|contradiction].
  - cbn [pick]. cbn [total fold_right] in Hle. fold (total rest) in Hle.
    destruct (Rlt_dec q u) as [Hq|Hq].
    + destruct (IH (u - q)) as (Hk & Hlo & Hhi); [lra | left; lra |].
      set (k := pick rest (u - q)) in *.
      split; [simpl; lia|]. split.
      * right. change (firstn (S k) (q :: rest)) with (q :: firstn k rest).
        change (total (q :: firstn k rest)) with (q + total (firstn k rest)).
        destruct Hlo as [->|Hlo]; [simpl; lra|lra].
      * change (firstn (S (S k)) (q :: rest)) with (q :: firstn (S k) rest).
        change (total (q :: firstn (S k) rest)) with (q + total (firstn (S k) rest)).
        lra.
    + split; [simpl; lia|]. split; [left; reflexivity|].
      simpl. lra.
Qed.

Lemma argmax_spec (v : list R) :
  v <> [] ->
  (argmax v < length v)%nat /\
  forall j, (j < length v)%nat -> nth j v 0 <= nth (argmax v) v 0.
Proof.
  induction v as [|a rest IH]; intros Hne; [contradiction|].
  destruct rest as [|b r].
  - simpl. split; [lia|]. intros [|j] Hj; [lra|lia].
  - destruct IH as [Hk Hmax]; [discriminate|].
    change (argmax (a :: b :: r))
      with (if Rlt_dec a (nth (argmax (b :: r)) (b :: r) 0)
            then S (argmax (b :: r)) else O).
    set (k := argmax (b :: r)) in *.
    destruct (Rlt_dec a (nth k (b :: r) 0)) as [Hlt|Hge].
    + split; [simpl in *; lia|].
      intros [|j] Hj.
      * change (nth 0 (a :: b :: r) 0) with a.
        change (nth (S k) (a :: b :: r) 0) with (nth k (b :: r) 0). lra.
      * change (nth (S j) (a :: b :: r) 0) with (nth j (b :: r) 0).
        change (nth (S k) (a :: b :: r) 0) with (nth k (b :: r) 0).
        apply Hmax. simpl in *. lia.
    + split; [simpl; lia|].
      intros [|j] Hj.
      * lra.
      * change (nth (S j) (a :: b :: r) 0) with (nth j (b :: r) 0).
        change (nth 0 (a :: b :: r) 0) with a.
        assert (nth j (b :: r) 0 <= nth k (b :: r) 0) by (apply Hmax; simpl in *; lia).
        lra.
Qed.

Lemma normalized_by_one (p : list R) :
  total p = 1 -> map (fun v => v / total p) p = p.
Proof.
  intros H. rewrite H. rewrite <- (map_id p) at 2. apply map_ext. intros v. field.
Qed.

Lemma nth_map_seq_from {A} (f : nat -> A) (s n i : nat) (d : A) :
  (i < n)%nat -> nth i (map f (seq s n)) d = f (s + i)%nat.
Proof.
  intros Hi. rewrite (nth_indep _ d (f O)) by (rewrite length_map, length_seq; exact Hi).
  rewrite map_nth, seq_nth by exact Hi. reflexivity.
Qed.

Lemma MultivariateNormal_init_inv (m : list R) (c : Tensor) (d : MultivariateNormal) :
  MultivariateNormal_init m c = Ok d ->
  cholesky c = Ok (scale_tril d) /\ loc1 d = nth 0 m 0 /\ loc2 d = nth 1 m 0.
Proof.
  unfold MultivariateNormal_init.
  destruct m as [|m1 [|m2 [|? ?]]]; try discriminate.
  destruct (cholesky c) as [L|e]; [|discriminate].
  intros H. injection H as <-. repeat split; reflexivity.
Qed.

Lemma cholesky_entries (cov : Tensor) (L : Tril2) :
  cholesky cov = Ok L ->
  0 < l11 L /\ 0 < l22 L /\
  entry cov 0 0 = l11 L * l11 L /\
  entry cov 1 0 = l21 L * l11 L /\
  entry cov 1 1 = l21 L * l21 L + l22 L * l22 L.
Proof.
  unfold cholesky.
  destruct cov as [|[|a [|b [|? ?]]] [|[|c [|d [|? ?]]] [|? ?]]]; try discriminate.
  destruct (Rlt_dec 0 a) as [Ha|]; [|discriminate].
  destruct (Rlt_dec 0 _) as [Hd|]; [|discriminate].
  intros H. injection H as <-. cbn [l11 l21 l22 entry nth].
  assert (Hs : sqrt a * sqrt a = a) by (apply sqrt_sqrt; lra).
  assert (Hs0 : 0 < sqrt a) by (apply sqrt_lt_R0; exact Ha).
  split; [exact Hs0|]. split; [apply sqrt_lt_R0; exact Hd|].
  split; [symmetry; exact Hs|]. split; [field; lra|].
  rewrite sqrt_sqrt by lra. ring.
Qed.

Lemma multinomial_many (ws : list R) (n : nat) (g : Rng) :
  Forall (fun w => 0 <= w) ws -> 0 < total ws -> (2 <= n)%nat ->
  multinomial (probs (Categorical_init ws)) n g
  = Ok (map (pick (map (fun w => w / total ws) ws))
          (map (uniforms g) (seq (uniforms_used g) n)),
        mkRng (normals g) (normals_used g) (uniforms g) (uniforms_used g + n)
          (exponentials g) (exponentials_used g)).
Proof.
  intros Hws HW Hn.
  set (p := map (fun w => w / total ws) ws).
  assert (Hp1 : total p = 1) by (unfold p; rewrite total_normalized; field; lra).
  assert (Hp0 : Forall (fun q => 0 <= q) p) by (apply normalized_nonnegative; assumption).
  unfold Categorical_init. cbn [probs].
  destruct (Req_dec_T (total ws) 0) as [Hz|_]; [lra|]. fold p.
  destruct n as [|[|n']]; try lia. cbn [multinomial].
  rewrite (existsb_nonnegative p Hp0).
  unfold Rltb. destruct (Rlt_dec 0 (total p)) as [_|Hn0]; [|lra].
  rewrite (normalized_by_one p Hp1). reflexivity.
Qed.

Lemma multinomial_one (ws : list R) (g : Rng) :
  Forall (fun w => 0 <= w) ws -> 0 < total ws ->
  multinomial (probs (Categorical_init ws)) 1 g
  = Ok ([argmax (zip_with Rdiv (map (fun w => w / total ws) ws)
                   (map (exponentials g) (seq (exponentials_used g) (length ws))))],
        mkRng (normals g) (normals_used g) (uniforms g) (uniforms_used g)
          (exponentials g) (exponentials_used g + length ws)).
Proof.
  intros Hws HW.
  set (p := map (fun w => w / total ws) ws).
  assert (Hp1 : total p = 1) by (unfold p; rewrite total_normalized; field; lra).
  assert (Hp0 : Forall (fun q => 0 <= q) p) by (apply normalized_nonnegative; assumption).
  unfold Categorical_init. cbn [probs].
  destruct (Req_dec_T (total ws) 0) as [Hz|_]; [lra|]. fold p.
  cbn [multinomial].
  rewrite (existsb_nonnegative p Hp0).
  unfold Rltb. destruct (Rlt_dec 0 (total p)) as [_|Hn0]; [|lra].
  unfold bind, draw, ret, exponential. cbv beta iota.
  unfold p. rewrite length_map. reflexivity.
Qed.

Lemma component_samples_rows (comps : list MultivariateNormal) (n : nat) (g : Rng) :
  component_samples comps n g
  = (component_rows comps g n,
     mkRng (normals g) (normals_used g + 2 * (n * length comps)) (uniforms g)
       (uniforms_used g) (exponentials g) (exponentials_used g)).
Proof. apply component_samples_spec. Qed.

(** Row [i] of what is gathered is the sample of the component selected for
    row [i]. *)
Lemma gather_row (comps : list MultivariateNormal) (g : Rng) (n i : nat)
  (mix : list nat) (d0 : MultivariateNormal) :
  (i < n)%nat -> length mix = n -> (nth i mix O < length comps)%nat ->
  nth i (gather (component_rows comps g n) mix) []
  = MVN_transform (nth (nth i mix O) comps d0)
      (normals g (normals_used g + 2 * (i * length comps + nth i mix O)))
      (normals g (normals_used g + 2 * (i * length comps + nth i mix O) + 1)).
Proof.
  intros Hi Hmix Hk. unfold gather, component_rows.
  rewrite (zip_with_nth _ _ _ i [] O) by (rewrite ?length_map, ?length_seq; lia).
  rewrite nth_map_seq by exact Hi.
  rewrite (zip_with_nth _ _ _ _ d0 []) by (rewrite ?length_map, ?length_seq; exact Hk).
  rewrite nth_map_seq by exact Hk. reflexivity.
Qed.

Lemma gather_length (rows : list Tensor) (mix : list nat) :
  length rows = length mix -> length (gather rows mix) = length mix.
Proof.
  intros H. unfold gather. rewrite zip_with_length.
  change (length rows) with (@length Tensor rows). rewrite H. apply Nat.min_id.
Qed.

(** What component [k] of a mixture with valid components draws. *)
Lemma mixture_component (mus : Tensor) (sigmas : list Tensor)
  (comps : list MultivariateNormal) (k : nat) :
  MultivariateNormal_batch mus sigmas = Ok comps ->
  (k < length mus)%nat ->
  exists L,
    cholesky (nth k sigmas []) = Ok L /\
    0 < l11 L /\ 0 < l22 L /\
    entry (nth k sigmas []) 0 0 = l11 L * l11 L /\
    entry (nth k sigmas []) 1 0 = l21 L * l11 L /\
    entry (nth k sigmas []) 1 1 = l21 L * l21 L + l22 L * l22 L /\
    forall d0 e1 e2,
      MVN_transform (nth k comps d0) e1 e2
      = [entry mus k 0 + l11 L * e1; entry mus k 1 + (l21 L * e1 + l22 L * e2)].
Proof.
  intros Hcomps Hk.
  destruct (MultivariateNormal_batch_nth _ _ _ Hcomps) as [HK Hnth].
  set (d := nth k comps (mkMVN 0 0 (mkTril2 0 0 0))).
  assert (Hd : MultivariateNormal_init (nth k mus []) (nth k sigmas []) = Ok d)
    by (apply Hnth; lia).
  destruct (MultivariateNormal_init_inv _ _ _ Hd) as (Hc & H1 & H2).
  destruct (cholesky_entries _ _ Hc) as (P1 & P2 & E1 & E2 & E3).
  exists (scale_tril d). repeat (split; [assumption|]).
  intros d0 e1 e2.
  rewrite (nth_indep comps d0 (mkMVN 0 0 (mkTril2 0 0 0))) by lia. fold d.
  unfold MVN_transform, entry. rewrite H1, H2. reflexivity.
Qed.

(** C9. Weights that are non-negative with a positive sum, normalised or
    not, are normalised to sum to one, and [GaussianMixture.sample(n)]
    returns [n] samples for [n >= 1] (it refuses [n = 0]).  For sample [i]
    the component index [k] is drawn first, according to the normalised
    weights [p]: for [n >= 2] it is the slot of the cumulative weights the
    [i]-th uniform draw [u] falls in, [p_0 + ... + p_(k-1) < u <= p_0 + ... +
    p_k]; for a single sample it is the index of the largest [p_j / q_j] for
    exponential draws [q].  The sample is then the draw of component [k]:
    [means[k] + L eps], where [L] is lower triangular with a positive
    diagonal and [L L^T = covs[k]], and [eps] is the standard-normal pair
    drawn for component [k] of sample [i]. *)
Theorem GaussianMixture_sample_spec
  (mus : Tensor) (sigmas : list Tensor) (ws : list R)
  (comps : list MultivariateNormal) (n : nat) (g : Rng) :
  MultivariateNormal_batch mus sigmas = Ok comps ->
  length ws = length mus ->
  Forall (fun w => 0 <= w) ws ->
  0 < total ws ->
  (forall j, 0 <= uniforms g j < 1) ->
  (forall j, 0 < exponentials g j) ->
  total (map (fun w => w / total ws) ws) = 1 /\
  (n = 0%nat ->
   GaussianMixture_sample (mkGaussianMixture (length mus) mus sigmas ws) n g
     = Raise NoSamples) /\
  ((1 <= n)%nat ->
   exists xs g',
     GaussianMixture_sample (mkGaussianMixture (length mus) mus sigmas ws) n g = Ok (xs, g') /\
     length xs = n /\
     forall i, (i < n)%nat ->
       exists k L,
         (k < length mus)%nat /\
         (n = 1%nat ->
          k = argmax (zip_with Rdiv (map (fun w => w / total ws) ws)
                        (map (exponentials g) (seq (exponentials_used g) (length ws)))) /\
          forall j, (j < length ws)%nat ->
            nth j (map (fun w => w / total ws) ws) 0
              / exponentials g (exponentials_used g + j)
            <= nth k (map (fun w => w / total ws) ws) 0
               / exponentials g (exponentials_used g + k)) /\
         ((2 <= n)%nat ->
          k = pick (map (fun w => w / total ws) ws) (uniforms g (uniforms_used g + i)) /\
          (k = 0%nat \/
           total (firstn k (map (fun w => w / total ws) ws))
             < uniforms g (uniforms_used g + i)) /\
          uniforms g (uniforms_used g + i)
            <= total (firstn (S k) (map (fun w => w / total ws) ws))) /\
         cholesky (nth k sigmas []) = Ok L /\
         0 < l11 L /\ 0 < l22 L /\
         entry (nth k sigmas []) 0 0 = l11 L * l11 L /\
         entry (nth k sigmas []) 1 0 = l21 L * l11 L /\
         entry (nth k sigmas []) 1 1 = l21 L * l21 L + l22 L * l22 L /\
         nth i xs [] =
           [entry mus k 0
              + l11 L * normals g (normals_used g + 2 * (i * length mus + k));
            entry mus k 1
              + (l21 L * normals g (normals_used g + 2 * (i * length mus + k))
                 + l22 L * normals g (normals_used g + 2 * (i * length mus + k) + 1))]).
Proof.
  intros Hcomps Hlen Hws HW Hu He.
  set (p := map (fun w => w / total ws) ws).
  assert (Hp1 : total p = 1) by (unfold p; rewrite total_normalized; field; lra).
  assert (Hlp : length p = length ws) by (unfold p; apply length_map).
  destruct (MultivariateNormal_batch_nth _ _ _ Hcomps) as [HK _].
  split; [exact Hp1|]. split.
  { intros ->. rewrite (GaussianMixture_sample_unfold _ _ _ _ _ _ _ Hcomps Hlen).
    reflexivity. }
  intros Hn. rewrite (GaussianMixture_sample_unfold _ _ _ _ _ _ _ Hcomps Hlen).
  rewrite bind_unfold.
  destruct n as [|[|n']]; [lia| |].
  - (* one sample *)
    rewrite (multinomial_one ws g Hws HW). fold p.
    set (ratios := zip_with Rdiv p (map (exponentials g) (seq (exponentials_used g) (length ws)))).
    assert (Hlr : length ratios = length ws).
    { unfold ratios. rewrite zip_with_length, length_map, length_seq, Hlp. apply Nat.min_id. }
    assert (Hne : ratios <> []).
    { intros E. rewrite E in Hlr. simpl in Hlr. destruct ws; [simpl in HW; lra|discriminate]. }
    destruct (argmax_spec ratios Hne) as [Hk Hmax].
    rewrite bind_unfold. unfold draw. rewrite component_samples_rows. unfold ret.
    cbn [normals normals_used].
    eexists _, _. split; [reflexivity|].
    split; [apply gather_length; unfold component_rows; rewrite length_map, length_seq; reflexivity|].
    intros i Hi.
    assert (Hkm : (argmax ratios < length mus)%nat) by lia.
    destruct (mixture_component mus sigmas comps (argmax ratios) Hcomps Hkm)
      as (L & Hc & P1 & P2 & E1 & E2 & E3 & HT).
    exists (argmax ratios), L.
    split; [lia|]. split.
    { intros _. split; [reflexivity|]. intros j Hj.
      assert (Hj' : (j < length ratios)%nat) by lia.
      specialize (Hmax j Hj'). unfold ratios in Hmax.
      rewrite !(zip_with_nth _ _ _ _ 0 0 0) in Hmax
        by (rewrite ?length_map, ?length_seq; fold ratios; lia).
      rewrite !nth_map_seq_from in Hmax by (fold ratios; lia). exact Hmax. }
    split; [intros H2; lia|].
    repeat (split; [assumption|]).
    destruct i as [|i]; [|lia].
    rewrite (gather_row comps _ 1 0 [argmax ratios] (mkMVN 0 0 (mkTril2 0 0 0)) Hi eq_refl)
      by (simpl; lia).
    cbn [nth normals normals_used]. rewrite HT, HK. reflexivity.
  - (* two samples or more *)
    set (n := S (S n')) in *.
    assert (Hn2 : (2 <= n)%nat) by (unfold n; lia).
    rewrite (multinomial_many ws n g Hws HW Hn2). fold p.
    rewrite bind_unfold. unfold draw. rewrite component_samples_rows. unfold ret.
    cbn [normals normals_used].
    set (mix := map (pick p) (map (uniforms g) (seq (uniforms_used g) n))).
    assert (Hmix : length mix = n) by (unfold mix; rewrite !length_map, length_seq; reflexivity).
    eexists _, _. split; [reflexivity|].
    split; [rewrite gather_length; [exact Hmix|];
            unfold component_rows; rewrite length_map, length_seq; symmetry; exact Hmix|].
    intros i Hi.
    set (u := uniforms g (uniforms_used g + i)).
    assert (Hnth : nth i mix O = pick p u).
    { unfold mix. rewrite map_map. rewrite nth_map_seq_from by exact Hi. reflexivity. }
    destruct (pick_spec p u) as (Hk & Hlo & Hhi).
    { rewrite Hp1. destruct (Hu (uniforms_used g + i)%nat). unfold u. lra. }
    { right. intros E. rewrite E in Hp1. simpl in Hp1. lra. }
    assert (Hkm : (pick p u < length mus)%nat) by lia.
    destruct (mixture_component mus sigmas comps (pick p u) Hcomps Hkm)
      as (L & Hc & P1 & P2 & E1 & E2 & E3 & HT).
    exists (pick p u), L.
    split; [lia|]. split; [intros H1; lia|].
    split; [intros _; split; [reflexivity|]; split; assumption|].
    repeat (split; [assumption|]).
    rewrite (gather_row comps _ n i mix (mkMVN 0 0 (mkTril2 0 0 0)) Hi Hmix)
      by (rewrite Hnth; lia).
    cbn [normals normals_used]. rewrite Hnth, HT, HK. reflexivity.
Qed.

Lemma GaussianMixture_sample_spec_witness :
  total (map (fun w => w / total two_weights) two_weights) = 1 /\
  (2%nat = 0%nat ->
   GaussianMixture_sample (mkGaussianMixture (length two_means) two_means two_covs two_weights)
     2%nat rng1
     = Raise NoSamples) /\
  ((1 <= 2%nat)%nat ->
   exists xs g',
     GaussianMixture_sample (mkGaussianMixture (length two_means) two_means two_covs two_weights)
       2%nat rng1 = Ok (xs, g') /\
     length xs = 2%nat /\
     forall i, (i < 2%nat)%nat ->
       exists k L,
         (k < length two_means)%nat /\
         (2%nat = 1%nat ->
          k = argmax (zip_with Rdiv (map (fun w => w / total two_weights) two_weights)
                        (map (exponentials rng1) (seq (exponentials_used rng1) (length two_weights)))) /\
          forall j, (j < length two_weights)%nat ->
            nth j (map (fun w => w / total two_weights) two_weights) 0
              / exponentials rng1 (exponentials_used rng1 + j)
            <= nth k (map (fun w => w / total two_weights) two_weights) 0
               / exponentials rng1 (exponentials_used rng1 + k)) /\
         ((2 <= 2%nat)%nat ->
          k = pick (map (fun w => w / total two_weights) two_weights) (uniforms rng1 (uniforms_used rng1 + i)) /\
          (k = 0%nat \/
           total (firstn k (map (fun w => w / total two_weights) two_weights))
             < uniforms rng1 (uniforms_used rng1 + i)) /\
          uniforms rng1 (uniforms_used rng1 + i)
            <= total (firstn (S k) (map (fun w => w / total two_weights) two_weights))) /\
         cholesky (nth k two_covs []) = Ok L /\
         0 < l11 L /\ 0 < l22 L /\
         entry (nth k two_covs []) 0 0 = l11 L * l11 L /\
         entry (nth k two_covs []) 1 0 = l21 L * l11 L /\
         entry (nth k two_covs []) 1 1 = l21 L * l21 L + l22 L * l22 L /\
         nth i xs [] =
           [entry two_means k 0
              + l11 L * normals rng1 (normals_used rng1 + 2 * (i * length two_means + k));
            entry two_means k 1
              + (l21 L * normals rng1 (normals_used rng1 + 2 * (i * length two_means + k))
                 + l22 L * normals rng1 (normals_used rng1 + 2 * (i * length two_means + k) + 1))]).
Proof.
  apply (GaussianMixture_sample_spec two_means two_covs two_weights
           [mkMVN 0 0 (mkTril2 (sqrt 1) 0 (sqrt 1)); mkMVN 1 1 (mkTril2 (sqrt 1) 0 (sqrt 1))]
           2 rng1).
  - unfold two_means, two_covs. cbn [MultivariateNormal_batch MultivariateNormal_init].
    rewrite (cholesky_isotropic 1) by lra. reflexivity.
  - reflexivity.
  - unfold two_weights. repeat constructor; lra.
  - unfold two_weights. simpl. lra.
  - intros j. simpl. lra.
  - intros j. cbn [exponentials rng1]. pose proof (pos_INR j). lra.
Defined.

(** ** Tensor objects: what a simulation may change *)

Lemma extends_refl H : extends H H.
Proof. exists []. rewrite app_nil_r. reflexivity. Qed.

Lemma extends_trans H1 H2 H3 : extends H1 H2 -> extends H2 H3 -> extends H1 H3.
Proof.
  intros [n1 ->] [n2 ->]. exists (n1 ++ n2). rewrite app_assoc. reflexivity.
Qed.

Lemma extends_load H H' r : extends H H' -> (r < length H)%nat -> Obj.load H' r = Obj.load H r.
Proof. intros [new ->] Hr. unfold Obj.load. apply app_nth1. exact Hr. Qed.

Lemma extends_length H H' : extends H H' -> (length H <= length H')%nat.
Proof. intros [new ->]. rewrite length_app. lia. Qed.

Lemma load_new H v new : Obj.load ((H ++ [v]) ++ new) (length H) = v.
Proof.
  unfold Obj.load. rewrite <- app_assoc. rewrite app_nth2 by lia.
  rewrite Nat.sub_diag. reflexivity.
Qed.

Lemma load_new_last H v : Obj.load (H ++ [v]) (length H) = v.
Proof.
  unfold Obj.load. rewrite app_nth2 by lia. rewrite Nat.sub_diag. reflexivity.
Qed.

Lemma load_old H new r : (r < length H)%nat -> Obj.load (H ++ new) r = Obj.load H r.
Proof. intros Hr. unfold Obj.load. apply app_nth1. exact Hr. Qed.

Ltac obj_simpl :=
  unfold Obj.call, Obj.rmul, Obj.mul_scalar, Obj.add, Obj.mul, Obj.randn_like, Obj.clone,
    Obj.read, Obj.alloc, Obj.on_rng, bind, lift, draw, ret, result_map;
  cbn [fst snd].

Ltac load_simpl :=
  repeat first [ rewrite load_new_last
               | rewrite load_old by (rewrite ?length_app; simpl; lia) ].

(** The two simulators of the lab compute on objects what they compute on
    values, and make new objects only. *)
Lemma EulerSimulator_refines (ode : ODE) : refines (Obj.EulerSimulator ode) (EulerSimulator ode).
Proof.
  intros xt t h H g Hxt. simpl. unfold lift, Euler_step. obj_simpl.
  destruct (ode_drift_coefficient ode (Obj.load H xt) t) as [d|e]; simpl; [|reflexivity].
  load_simpl.
  eexists _, _. split; [reflexivity|].
  split; [|split].
  - eexists. rewrite <- !app_assoc. reflexivity.
  - rewrite !length_app. simpl. lia.
  - load_simpl. reflexivity.
Qed.

Lemma EulerMaruyamaSimulator_refines (sde : SDE) :
  refines (Obj.EulerMaruyamaSimulator sde) (EulerMaruyamaSimulator sde).
Proof.
  intros xt t h H g Hxt. simpl. unfold EulerMaruyama_step. obj_simpl.
  destruct (drift_coefficient sde (Obj.load H xt) t) as [d|e]; simpl; [|reflexivity].
  load_simpl.
  destruct (diffusion_coefficient sde (Obj.load H xt) t) as [s|e]; simpl; [|reflexivity].
  load_simpl.
  destruct (randn_like (Obj.load H xt) g) as [z g'].
  load_simpl.
  destruct (math_sqrt h) as [r|e]; simpl; [|reflexivity].
  load_simpl.
  eexists _, _. split; [reflexivity|].
  split; [|split].
  - eexists. rewrite <- !app_assoc. reflexivity.
  - rewrite !length_app. simpl. lia.
  - load_simpl. reflexivity.
Qed.

Lemma refines_out_of_place osim sim : refines osim sim -> out_of_place osim.
Proof.
  intros Href xt t h H g r H' g' Hxt Hstep.
  specialize (Href xt t h H g Hxt).
  destruct (step sim (Obj.load H xt) t h g) as [[y g1]|e].
  - destruct Href as (r1 & H1 & Heq & Hext & Hr & _).
    rewrite Heq in Hstep. injection Hstep as <- <- <-. split; assumption.
  - rewrite Href in Hstep. discriminate.
Qed.

Lemma simulate_loop_refines (osim : Obj.Simulator) (sim : Simulator) (ts : list R) :
  refines osim sim ->
  forall idxs (x : Obj.ref) (H : Obj.Heap) g, (x < length H)%nat ->
    match for_each idxs
            (fun t_idx x => step sim x (item ts t_idx) (item ts (t_idx + 1) - item ts t_idx))
            (Obj.load H x) g with
    | Ok (y, g') =>
        exists r H',
          for_each idxs
            (fun t_idx x => Obj.step osim x (item ts t_idx) (item ts (t_idx + 1) - item ts t_idx))
            x (H, g) = Ok (r, (H', g')) /\
          extends H H' /\ (r < length H')%nat /\ Obj.load H' r = y
    | Raise e =>
        for_each idxs
          (fun t_idx x => Obj.step osim x (item ts t_idx) (item ts (t_idx + 1) - item ts t_idx))
          x (H, g) = Raise e
    end.
Proof.
  intros Href. induction idxs as [|i rest IH]; intros x H g Hx.
  - cbn. unfold ret. exists x, H. repeat split; auto using extends_refl.
  - cbn [for_each]. rewrite !bind_unfold.
    specialize (Href x (item ts i) (item ts (i + 1) - item ts i) H g Hx).
    destruct (step sim (Obj.load H x) _ _ g) as [[y g1]|e]; [|rewrite Href; reflexivity].
    destruct Href as (r & H1 & -> & Hext & Hr & <-).
    specialize (IH r H1 g1 Hr).
    destruct (for_each rest _ (Obj.load H1 r) g1) as [[z g2]|e]; [|exact IH].
    destruct IH as (r2 & H2 & Heq & Hext2 & Hr2 & Hload).
    exists r2, H2. repeat split; try assumption. eapply extends_trans; eassumption.
Qed.

Lemma Forall_valid_extends (H H' : Obj.Heap) (xs : list Obj.ref) :
  extends H H' -> Forall (fun c => (c < length H)%nat) xs ->
  Forall (fun c => (c < length H')%nat) xs /\ map (Obj.load H') xs = map (Obj.load H) xs.
Proof.
  intros Hext Hxs. pose proof (extends_length _ _ Hext) as Hlen. split.
  - eapply Forall_impl; [|exact Hxs]. simpl. intros c Hc. lia.
  - apply map_ext_in. intros c Hc. rewrite Forall_forall in Hxs.
    apply extends_load; auto.
Qed.

Lemma trajectory_loop_refines (osim : Obj.Simulator) (sim : Simulator) (ts : list R) :
  refines osim sim ->
  forall idxs (x : Obj.ref) (xs : list Obj.ref) (H : Obj.Heap) g,
    (x < length H)%nat -> Forall (fun c => (c < length H)%nat) xs ->
    match for_each idxs
            (fun t_idx '(x, xs) =>
               x <- step sim x (item ts t_idx) (item ts (t_idx + 1) - item ts t_idx) ;;
               ret (x, xs ++ [clone x]))
            (Obj.load H x, map (Obj.load H) xs) g with
    | Ok ((y, ys), g') =>
        exists r rs H',
          Obj.trajectory_loop osim ts idxs (x, xs) (H, g) = Ok ((r, rs), (H', g')) /\
          extends H H' /\ (r < length H')%nat /\ Obj.load H' r = y /\
          map (Obj.load H') rs = ys
    | Raise e => Obj.trajectory_loop osim ts idxs (x, xs) (H, g) = Raise e
    end.
Proof.
  intros Href. unfold Obj.trajectory_loop.
  induction idxs as [|i rest IH]; intros x xs H g Hx Hxs.
  - cbn. unfold ret. exists x, xs, H. repeat split; auto using extends_refl.
  - cbn [for_each]. rewrite !bind_unfold.
    specialize (Href x (item ts i) (item ts (i + 1) - item ts i) H g Hx).
    destruct (step sim (Obj.load H x) _ _ g) as [[y g1]|e]; [|rewrite Href; reflexivity].
    destruct Href as (r & H1 & -> & Hext & Hr & <-).
    unfold ret at 1. unfold ret at 2. obj_simpl.
    destruct (Forall_valid_extends _ _ _ Hext Hxs) as [Hxs1 Hmap1].
    assert (Hr' : (r < length (H1 ++ [Obj.load H1 r]))%nat) by (rewrite length_app; simpl; lia).
    assert (Hxs' : Forall (fun c => (c < length (H1 ++ [Obj.load H1 r]))%nat)
                     (xs ++ [length H1])).
    { apply Forall_app. split.
      - eapply Forall_impl; [|exact Hxs1]. simpl. intros c Hc. rewrite length_app. simpl. lia.
      - constructor; [rewrite length_app; simpl; lia | constructor]. }
    specialize (IH r (xs ++ [length H1]) (H1 ++ [Obj.load H1 r]) g1 Hr' Hxs').
    assert (Hstate : (Obj.load (H1 ++ [Obj.load H1 r]) r,
                      map (Obj.load (H1 ++ [Obj.load H1 r])) (xs ++ [length H1]))
                     = (Obj.load H1 r, map (Obj.load H) xs ++ [clone (Obj.load H1 r)])).
    { rewrite map_app. cbn [map]. load_simpl. unfold clone. do 2 f_equal.
      rewrite <- Hmap1. apply map_ext_in. intros c Hc.
      rewrite Forall_forall in Hxs1. apply load_old. auto. }
    rewrite Hstate in IH.
    destruct (for_each rest _ _ g1) as [[[z zs] g2]|e]; [|exact IH].
    destruct IH as (r2 & rs & H2 & Heq & Hext2 & Hr2 & Hload & Hmap).
    exists r2, rs, H2. repeat split; try assumption.
    eapply extends_trans; [exact Hext|]. eapply extends_trans; [|exact Hext2].
    exists [Obj.load H1 r]. reflexivity.
Qed.

Lemma trajectory_loop_entries (osim : Obj.Simulator) (ts : list R) :
  out_of_place osim ->
  forall idxs (x0 : Obj.ref) (xs0 : list Obj.ref) (H0 : Obj.Heap) g0 x1 xs1 H1 g1,
    (x0 < length H0)%nat ->
    Obj.trajectory_loop osim ts idxs (x0, xs0) (H0, g0) = Ok ((x1, xs1), (H1, g1)) ->
    extends H0 H1 /\ (x1 < length H1)%nat /\
    exists new, xs1 = xs0 ++ new /\ length new = length idxs /\ NoDup new /\
                Forall (fun c => (length H0 <= c < length H1)%nat) new.
Proof.
  intros Hstep. unfold Obj.trajectory_loop.
  induction idxs as [|i rest IH]; intros x0 xs0 H0 g0 x1 xs1 H1 g1 Hx Hrun.
  - cbn in Hrun. unfold ret in Hrun. injection Hrun as <- <- <- <-.
    split; [apply extends_refl|]. split; [exact Hx|].
    exists []. rewrite app_nil_r. repeat split; constructor.
  - cbn [for_each] in Hrun. rewrite !bind_unfold in Hrun.
    destruct (Obj.step osim x0 _ _ (H0, g0)) as [[r [H' g']]|e] eqn:Es; [|discriminate].
    destruct (Hstep _ _ _ _ _ _ _ _ Hx Es) as [Hext Hr].
    change ((c <- Obj.clone r ;; ret (r, xs0 ++ [c])) (H', g'))
      with (@Ok ((Obj.ref * list Obj.ref) * (Obj.Heap * Rng))
              ((r, xs0 ++ [length H']), (H' ++ [Obj.load H' r], g'))) in Hrun.
    cbv iota in Hrun.
    assert (Hr' : (r < length (H' ++ [Obj.load H' r]))%nat) by (rewrite length_app; simpl; lia).
    destruct (IH _ _ _ _ _ _ _ _ Hr' Hrun) as (Hext' & Hx1 & new & -> & Hlen & Hnd & Hfresh).
    pose proof (extends_length _ _ Hext) as Hl.
    assert (Hext'' : extends H0 H1).
    { eapply extends_trans; [exact Hext|]. eapply extends_trans; [|exact Hext'].
      exists [Obj.load H' r]. reflexivity. }
    split; [exact Hext''|]. split; [exact Hx1|].
    exists (length H' :: new). rewrite <- app_assoc. split; [reflexivity|].
    split; [simpl; congruence|].
    pose proof (extends_length _ _ Hext') as Hl'. rewrite length_app in Hl'. simpl in Hl'.
    split.
    + constructor; [|exact Hnd]. intros Hin. rewrite Forall_forall in Hfresh.
      specialize (Hfresh _ Hin). rewrite length_app in Hfresh. simpl in Hfresh. lia.
    + constructor; [lia|]. eapply Forall_impl; [|exact Hfresh]. simpl. intros c Hc.
      rewrite length_app in Hc. simpl in Hc. lia.
Qed.

Lemma simulate_with_trajectory_unfold (sim : Simulator) (v : Tensor) (ts : list R) (g : Rng) :
  simulate_with_trajectory sim v ts g
  = match for_each (range (length ts - 1))
            (fun t_idx '(x, xs) =>
               x <- step sim x (item ts t_idx) (item ts (t_idx + 1) - item ts t_idx) ;;
               ret (x, xs ++ [clone x]))
            (v, [clone v]) g with
    | Ok ((_, xs), g') => Ok (stack_dim1 xs, g')
    | Raise e => Raise e
    end.
Proof.
  unfold simulate_with_trajectory. cbv zeta. rewrite bind_unfold.
  destruct (for_each _ _ _ g) as [[[y ys] g']|e]; reflexivity.
Qed.

Lemma Obj_simulate_with_trajectory_unfold
  (osim : Obj.Simulator) (x : Obj.ref) (ts : list R) (H : Obj.Heap) (g : Rng) :
  Obj.simulate_with_trajectory osim x ts (H, g)
  = match Obj.trajectory_loop osim ts (range (length ts - 1))
            (x, ([length H] : list Obj.ref)) ((H ++ [Obj.load H x] : Obj.Heap), g) with
    | Ok ((_, xs), (H', g')) => Ok (map (Obj.load H') xs, (H', g'))
    | Raise e => Raise e
    end.
Proof.
  unfold Obj.simulate_with_trajectory. rewrite bind_unfold.
  change (Obj.clone x (H, g)) with (@Ok (Obj.ref * (Obj.Heap * Rng))
                                      (length H, (H ++ [Obj.load H x], g))).
  cbv iota. rewrite bind_unfold.
  destruct (Obj.trajectory_loop _ _ _ _ _) as [[[y ys] [H' g']]|e]; reflexivity.
Qed.

(** C10. With a step that builds its result out of place, as both
    simulators of the lab do, [simulate] and [simulate_with_trajectory] run
    on tensor objects return what they return on values, and when they return
    every tensor that existed before the call, the caller's initial state
    among them, holds its original values.  The trajectory entries are
    copies: through any further iterations of the loop the entries recorded
    so far keep their values, and the entries that are added are new objects,
    distinct from each other and from every tensor that existed before. *)
Theorem simulation_leaves_tensors_untouched
  (osim : Obj.Simulator) (sim : Simulator) (x : Obj.ref) (ts : list R)
  (H : Obj.Heap) (g : Rng) :
  refines osim sim ->
  (x < length H)%nat ->
  match simulate sim (Obj.load H x) ts g with
  | Ok (y, g') =>
      exists r H',
        Obj.simulate osim x ts (H, g) = Ok (r, (H', g')) /\
        extends H H' /\ Obj.load H' x = Obj.load H x /\ Obj.load H' r = y
  | Raise e => Obj.simulate osim x ts (H, g) = Raise e
  end /\
  match simulate_with_trajectory sim (Obj.load H x) ts g with
  | Ok (traj, g') =>
      exists H',
        Obj.simulate_with_trajectory osim x ts (H, g) = Ok (traj, (H', g')) /\
        extends H H' /\ Obj.load H' x = Obj.load H x
  | Raise e => Obj.simulate_with_trajectory osim x ts (H, g) = Raise e
  end /\
  (forall idxs x0 xs0 H0 g0 x1 xs1 H1 g1,
     (x0 < length H0)%nat -> Forall (fun c => (c < length H0)%nat) xs0 ->
     Obj.trajectory_loop osim ts idxs (x0, xs0) (H0, g0) = Ok ((x1, xs1), (H1, g1)) ->
     exists new,
       xs1 = xs0 ++ new /\
       Forall (fun c => Obj.load H1 c = Obj.load H0 c) xs0 /\
       NoDup new /\
       Forall (fun c => (length H0 <= c)%nat) new).
Proof.
  intros Href Hx. split; [|split].
  - pose proof (simulate_loop_refines osim sim ts Href (range (length ts - 1)) x H g Hx) as L.
    unfold simulate, Obj.simulate. cbv zeta.
    destruct (for_each _ _ (Obj.load H x) g) as [[y g']|e]; [|exact L].
    destruct L as (r & H' & Heq & Hext & Hr & Hload).
    exists r, H'. repeat split; try assumption. apply extends_load; assumption.
  - rewrite simulate_with_trajectory_unfold, Obj_simulate_with_trajectory_unfold.
    assert (Hx' : (x < length (H ++ [Obj.load H x]))%nat) by (rewrite length_app; simpl; lia).
    assert (Hxs : Forall (fun c => (c < length (H ++ [Obj.load H x]))%nat) [length H]).
    { constructor; [rewrite length_app; simpl; lia | constructor]. }
    pose proof (trajectory_loop_refines osim sim ts Href (range (length ts - 1))
                  x [length H] (H ++ [Obj.load H x]) g Hx' Hxs) as L.
    cbn [map] in L. revert L. load_simpl. unfold clone. intros L.
    destruct (for_each _ _ (Obj.load H x, [Obj.load H x]) g) as [[[y ys] g']|e].
    + destruct L as (r & rs & H' & -> & Hext & Hr & Hload & Hmap).
      unfold stack_dim1. rewrite Hmap.
      exists H'. split; [reflexivity|].
      assert (Hext' : extends H H').
      { eapply extends_trans; [|exact Hext]. exists [Obj.load H x]. reflexivity. }
      split; [exact Hext'|]. apply extends_load; assumption.
    + rewrite L. reflexivity.
  - intros idxs x0 xs0 H0 g0 x1 xs1 H1 g1 Hx0 Hxs0 Hrun.
    destruct (trajectory_loop_entries osim ts (refines_out_of_place _ _ Href)
                _ _ _ _ _ _ _ _ _ Hx0 Hrun) as (Hext & _ & new & -> & _ & Hnd & Hfresh).
    exists new. split; [reflexivity|]. split; [|split].
    + eapply Forall_impl; [|exact Hxs0]. simpl. intros c Hc. apply extends_load; assumption.
    + exact Hnd.
    + eapply Forall_impl; [|exact Hfresh]. simpl. intros c Hc. lia.
Qed.

Lemma simulation_leaves_tensors_untouched_witness :
  match simulate (EulerSimulator (ode_of (OUProcess 1 0))) (Obj.load [[[1]]] 0%nat) [0; 1] rng0 with
  | Ok (y, g') =>
      exists r H',
        Obj.simulate (Obj.EulerSimulator (ode_of (OUProcess 1 0))) 0%nat [0; 1] ([[[1]]], rng0)
          = Ok (r, (H', g')) /\
        extends [[[1]]] H' /\ Obj.load H' 0%nat = Obj.load [[[1]]] 0%nat /\ Obj.load H' r = y
  | Raise e =>
      Obj.simulate (Obj.EulerSimulator (ode_of (OUProcess 1 0))) 0%nat [0; 1] ([[[1]]], rng0)
        = Raise e
  end /\
  match simulate_with_trajectory (EulerSimulator (ode_of (OUProcess 1 0)))
          (Obj.load [[[1]]] 0%nat) [0; 1] rng0 with
  | Ok (traj, g') =>
      exists H',
        Obj.simulate_with_trajectory (Obj.EulerSimulator (ode_of (OUProcess 1 0))) 0%nat [0; 1]
          ([[[1]]], rng0) = Ok (traj, (H', g')) /\
        extends [[[1]]] H' /\ Obj.load H' 0%nat = Obj.load [[[1]]] 0%nat
  | Raise e =>
      Obj.simulate_with_trajectory (Obj.EulerSimulator (ode_of (OUProcess 1 0))) 0%nat [0; 1]
        ([[[1]]], rng0) = Raise e
  end /\
  (forall idxs x0 xs0 H0 g0 x1 xs1 H1 g1,
     (x0 < length H0)%nat -> Forall (fun c => (c < length H0)%nat) xs0 ->
     Obj.trajectory_loop (Obj.EulerSimulator (ode_of (OUProcess 1 0))) [0; 1] idxs
       (x0, xs0) (H0, g0) = Ok ((x1, xs1), (H1, g1)) ->
     exists new,
       xs1 = xs0 ++ new /\
       Forall (fun c => Obj.load H1 c = Obj.load H0 c) xs0 /\
       NoDup new /\
       Forall (fun c => (length H0 <= c)%nat) new).
Proof.
  apply (simulation_leaves_tensors_untouched
           (Obj.EulerSimulator (ode_of (OUProcess 1 0)))
           (EulerSimulator (ode_of (OUProcess 1 0))) 0%nat [0; 1] [[[1]]] rng0).
  - apply EulerSimulator_refines.
  - simpl. lia.
Defined.

Lemma Obj_simulate_example :
  exists r H',
    Obj.simulate (Obj.EulerSimulator (ode_of (OUProcess 1 0))) 0%nat [0; 1] ([[[1]]], rng0)
      = Ok (r, (H', rng0)) /\
    Obj.load H' 0%nat = [[1]] /\ Obj.load H' r = [[0]].
Proof.
  eexists _, _. split; [reflexivity|]. split; [reflexivity|].
  cbn. tensor_simpl. unfold item. simpl. do 2 f_equal. lra.
Qed.

(** * Further properties *)

(** ** [every_nth_index] *)

Lemma arange_count_bounds (d s : Z) :
  (0 <= d)%Z -> (0 < s)%Z ->
  (0 <= (d + s - 1) / s)%Z /\
  (((d + s - 1) / s - 1) * s < d)%Z /\ (d <= (d + s - 1) / s * s)%Z.
Proof.
  intros Hd Hs.
  pose proof (Z.div_mod (d + s - 1) s ltac:(lia)) as Hdm.
  pose proof (Z.mod_pos_bound (d + s - 1) s Hs) as Hm.
  assert (0 <= (d + s - 1) / s)%Z by (apply Z.div_pos; lia).
  split; [assumption|]. split; nia.
Qed.

Lemma int64_fits_spec (z : Z) :
  int64_fits z = true <-> (- 2 ^ 63 <= z < 2 ^ 63)%Z.
Proof.
  unfold int64_fits. rewrite Bool.andb_true_iff, Z.leb_le, Z.ltb_lt. reflexivity.
Qed.

Lemma int64_fits_true (z : Z) : (- 2 ^ 63 <= z < 2 ^ 63)%Z -> int64_fits z = true.
Proof. apply int64_fits_spec. Qed.

(** What [arange] returns for a positive step, when it returns. *)
Lemma arange_positive (start stop step : Z) (l : list Z) :
  (0 < step)%Z ->
  arange start stop step = Some l ->
  (start <= stop)%Z /\
  l = map (fun k => (start + Z.of_nat k * step)%Z)
        (seq 0 (Z.to_nat ((stop - start + step - 1) / step))).
Proof.
  intros Hstep. unfold arange.
  destruct (negb _); [discriminate|].
  destruct (Z.eqb_spec step 0) as [|_]; [lia|].
  destruct (Z.ltb_spec 0 step) as [_|]; [|lia].
  destruct (Z.ltb_spec stop start) as [|Hle]; [discriminate|].
  destruct (negb _); [discriminate|].
  intros H. injection H as <-. split; [exact Hle | reflexivity].
Qed.

(** [arange] returns for a positive step when nothing leaves 64 bits. *)
Lemma arange_positive_returns (start stop step : Z) :
  (0 < step)%Z -> (start <= stop)%Z ->
  (- 2 ^ 63 <= start)%Z -> (stop < 2 ^ 63)%Z -> (step < 2 ^ 63)%Z ->
  (stop - start + step - 1 < 2 ^ 63)%Z ->
  arange start stop step
  = Some (map (fun k => (start + Z.of_nat k * step)%Z)
            (seq 0 (Z.to_nat ((stop - start + step - 1) / step)))).
Proof.
  intros Hstep Hle Hlow Hstop Hs Hhigh. unfold arange.
  rewrite !int64_fits_true by lia. cbn [andb negb].
  destruct (Z.eqb_spec step 0) as [|_]; [lia|].
  destruct (Z.ltb_spec 0 step) as [_|]; [|lia].
  destruct (Z.ltb_spec stop start) as [|_]; [lia|]. reflexivity.
Qed.

Lemma arange_from_zero_one (num_timesteps : Z) :
  (1 <= num_timesteps)%Z ->
  map (fun k => (0 + Z.of_nat k * 1)%Z) (seq 0 (Z.to_nat ((num_timesteps - 0 + 1 - 1) / 1)))
  = every_nth_index_list num_timesteps 1.
Proof.
  intros HN. unfold every_nth_index_list. rewrite !Z.div_1_r.
  replace (num_timesteps - 0 + 1 - 1)%Z with num_timesteps by lia.
  replace (num_timesteps - 1 + 1 - 1)%Z with (num_timesteps - 1)%Z by lia.
  replace (Z.to_nat num_timesteps) with (S (Z.to_nat (num_timesteps - 1))) by lia.
  rewrite seq_S, map_app. cbn [map]. apply f_equal2.
  - apply map_ext. intros k. lia.
  - f_equal. lia.
Qed.

Lemma arange_from_zero (num_timesteps n : Z) :
  map (fun k => (0 + Z.of_nat k * n)%Z)
    (seq 0 (Z.to_nat ((num_timesteps - 1 - 0 + n - 1) / n)))
  ++ [(num_timesteps - 1)%Z]
  = every_nth_index_list num_timesteps n.
Proof.
  unfold every_nth_index_list.
  replace (num_timesteps - 1 - 0 + n - 1)%Z with (num_timesteps - 1 + n - 1)%Z by lia.
  apply (f_equal (fun l => l ++ [(num_timesteps - 1)%Z])).
  apply map_ext. intros k. lia.
Qed.

(** The indices, whenever [every_nth_index] returns. *)
Lemma every_nth_index_returns (num_timesteps n : Z) (idxs : list Z) :
  (1 <= num_timesteps)%Z -> (1 <= n)%Z ->
  every_nth_index num_timesteps n = Some idxs ->
  idxs = every_nth_index_list num_timesteps n.
Proof.
  intros HN Hn. unfold every_nth_index.
  destruct (Z.eqb_spec n 1) as [->|Hn1].
  - intros H. apply arange_positive in H; [|lia]. destruct H as [_ ->].
    apply arange_from_zero_one. exact HN.
  - destruct (arange 0 (num_timesteps - 1) n) as [a|] eqn:Ea; [|discriminate].
    apply arange_positive in Ea; [|lia]. destruct Ea as [_ ->].
    destruct (int64_fits (num_timesteps - 1)); [|discriminate].
    intros H. injection H as <-. apply arange_from_zero.
Qed.

(** The indices are returned when count and stride together fit 64 bits. *)
Lemma every_nth_index_explicit (num_timesteps n : Z) :
  (1 <= num_timesteps)%Z -> (1 <= n)%Z -> (num_timesteps + n < 2 ^ 63)%Z ->
  every_nth_index num_timesteps n = Some (every_nth_index_list num_timesteps n).
Proof.
  intros HN Hn Hfit. unfold every_nth_index.
  destruct (Z.eqb_spec n 1) as [->|Hn1].
  - rewrite arange_positive_returns by lia.
    rewrite arange_from_zero_one by exact HN. reflexivity.
  - rewrite arange_positive_returns by lia.
    rewrite int64_fits_true by lia. rewrite arange_from_zero. reflexivity.
Qed.

Lemma every_nth_index_nth (num_timesteps n : Z) (idxs : list Z) (i : nat) :
  (1 <= num_timesteps)%Z -> (1 <= n)%Z ->
  every_nth_index num_timesteps n = Some idxs ->
  (i < length idxs)%nat ->
  (S i < length idxs)%nat /\ nth i idxs 0%Z = (Z.of_nat i * n)%Z /\
    (Z.of_nat i * n < num_timesteps - 1)%Z
  \/ S i = length idxs /\ nth i idxs 0%Z = (num_timesteps - 1)%Z.
Proof.
  intros HN Hn Hidx Hi.
  apply every_nth_index_returns in Hidx; [|assumption|assumption]. subst idxs.
  unfold every_nth_index_list in *.
  destruct (arange_count_bounds (num_timesteps - 1) n ltac:(lia) ltac:(lia))
    as (Hq & Hlow & Hhigh).
  set (m := Z.to_nat ((num_timesteps - 1 + n - 1) / n)) in *.
  rewrite length_app, length_map, length_seq in *. cbn [length] in *.
  destruct (Nat.eq_dec i m) as [->|Hne].
  - right. split; [lia|].
    rewrite app_nth2 by (rewrite length_map, length_seq; lia).
    rewrite length_map, length_seq, Nat.sub_diag. reflexivity.
  - left. split; [lia|].
    rewrite app_nth1 by (rewrite length_map, length_seq; lia).
    rewrite nth_map_seq by lia. split; [reflexivity|].
    assert (Z.of_nat i <= (num_timesteps - 1 + n - 1) / n - 1)%Z by lia.
    nia.
Qed.

(** X1. For at least one timestep and a stride of at least one, which
    together fit 64 bits, [every_nth_index] returns indices that start at
    [0], end at [num_timesteps - 1], increase strictly and all lie in
    [0 .. num_timesteps - 1]. *)
Theorem every_nth_index_increasing (num_timesteps n : Z) :
  (1 <= num_timesteps)%Z -> (1 <= n)%Z -> (num_timesteps + n < 2 ^ 63)%Z ->
  exists idxs,
    every_nth_index num_timesteps n = Some idxs /\
    nth 0 idxs (-1)%Z = 0%Z /\
    last idxs (-1)%Z = (num_timesteps - 1)%Z /\
    (forall i j, (i < j)%nat -> (j < length idxs)%nat ->
       (nth i idxs 0 < nth j idxs 0)%Z) /\
    Forall (fun i => (0 <= i <= num_timesteps - 1)%Z) idxs.
Proof.
  intros HN Hn Hfit.
  pose proof (every_nth_index_explicit num_timesteps n HN Hn Hfit) as Hex.
  eexists. split; [exact Hex|].
  set (idxs := every_nth_index_list num_timesteps n) in *.
  assert (Hlen : (1 <= length idxs)%nat).
  { unfold idxs, every_nth_index_list. rewrite length_app. simpl. lia. }
  split; [|split; [|split]].
  - destruct (every_nth_index_nth _ _ idxs O HN Hn Hex ltac:(lia)) as [(_ & H0 & _)|(Hl & H0)].
    + rewrite (nth_indep _ _ 0%Z) by lia. rewrite H0. lia.
    + rewrite (nth_indep _ _ 0%Z) by lia. rewrite H0.
      unfold idxs, every_nth_index_list in Hl.
      rewrite length_app, length_map, length_seq in Hl. simpl in Hl.
      destruct (arange_count_bounds (num_timesteps - 1) n ltac:(lia) ltac:(lia))
        as (Hq & Hlow & Hhigh).
      assert ((num_timesteps - 1 + n - 1) / n = 0)%Z by lia. nia.
  - unfold idxs, every_nth_index_list. apply last_last.
  - intros i j Hij Hj.
    destruct (every_nth_index_nth _ _ idxs i HN Hn Hex ltac:(lia)) as [(_ & Hi & Hib)|(Hl & _)];
      [|lia].
    destruct (every_nth_index_nth _ _ idxs j HN Hn Hex Hj) as [(_ & Hjv & _)|(_ & Hjv)];
      rewrite Hi, Hjv; nia.
  - apply Forall_forall. intros v Hv.
    destruct (In_nth _ _ 0%Z Hv) as (i & Hi & <-).
    destruct (every_nth_index_nth _ _ idxs i HN Hn Hex Hi) as [(_ & -> & Hb)|(_ & ->)]; nia.
Qed.

Lemma every_nth_index_increasing_witness :
  exists idxs,
    every_nth_index 1000 334 = Some idxs /\
    nth 0 idxs (-1)%Z = 0%Z /\
    last idxs (-1)%Z = (1000 - 1)%Z /\
    (forall i j, (i < j)%nat -> (j < length idxs)%nat ->
       (nth i idxs 0 < nth j idxs 0)%Z) /\
    Forall (fun i => (0 <= i <= 1000 - 1)%Z) idxs.
Proof.
  apply (every_nth_index_increasing 1000 334); lia.
Defined.

(** X2. The indices are the multiples of the stride below
    [num_timesteps - 1], followed by [num_timesteps - 1]: index [i] is
    [i * n] except for the last one, and there are
    [ceil((num_timesteps - 1) / n) + 1] of them. *)
Theorem every_nth_index_stride (num_timesteps n : Z) (idxs : list Z) :
  (1 <= num_timesteps)%Z -> (1 <= n)%Z ->
  every_nth_index num_timesteps n = Some idxs ->
  Z.of_nat (length idxs) = ((num_timesteps - 1 + n - 1) / n + 1)%Z /\
  (forall i, (S i < length idxs)%nat ->
     nth i idxs 0%Z = (Z.of_nat i * n)%Z /\ (nth i idxs 0 < num_timesteps - 1)%Z) /\
  nth (length idxs - 1) idxs 0%Z = (num_timesteps - 1)%Z.
Proof.
  intros HN Hn Hidx.
  assert (Hlen : Z.of_nat (length idxs) = ((num_timesteps - 1 + n - 1) / n + 1)%Z).
  { rewrite (every_nth_index_returns _ _ _ HN Hn Hidx). unfold every_nth_index_list.
    rewrite length_app, length_map, length_seq. cbn [length].
    destruct (arange_count_bounds (num_timesteps - 1) n ltac:(lia) ltac:(lia)) as (Hq & _).
    lia. }
  split; [exact Hlen|]. split.
  - intros i Hi.
    destruct (every_nth_index_nth _ _ idxs i HN Hn Hidx ltac:(lia)) as [(_ & -> & Hb)|(Hl & _)];
      [|lia].
    split; [reflexivity | exact Hb].
  - destruct (arange_count_bounds (num_timesteps - 1) n ltac:(lia) ltac:(lia)) as (Hq & _).
    destruct (every_nth_index_nth _ _ idxs (length idxs - 1) HN Hn Hidx ltac:(lia))
      as [(Hl & _)|(_ & ->)]; [lia | reflexivity].
Qed.

Lemma every_nth_index_stride_witness :
  Z.of_nat (length [0; 334; 668; 999]%Z) = ((1000 - 1 + 334 - 1) / 334 + 1)%Z /\
  (forall i, (S i < length [0; 334; 668; 999]%Z)%nat ->
     nth i [0; 334; 668; 999]%Z 0%Z = (Z.of_nat i * 334)%Z /\
     (nth i [0; 334; 668; 999]%Z 0 < 1000 - 1)%Z) /\
  nth (length [0; 334; 668; 999]%Z - 1) [0; 334; 668; 999]%Z 0%Z = (1000 - 1)%Z.
Proof.
  apply (every_nth_index_stride 1000 334 [0; 334; 668; 999]%Z); [lia | lia | reflexivity].
Defined.

(** X3. For a count and a stride between [-2^62] and [2^62], where no
    64-bit computation overflows, [every_nth_index] raises exactly when
    [torch.arange] refuses its arguments: for a zero stride, for a stride of
    one with a negative count, for a larger stride with no timestep at all,
    and for a negative stride with more than one timestep. *)
Theorem every_nth_index_raises_iff (num_timesteps n : Z) :
  (- 2 ^ 62 <= num_timesteps < 2 ^ 62)%Z ->
  (- 2 ^ 62 <= n < 2 ^ 62)%Z ->
  every_nth_index num_timesteps n = None <->
  (n = 0 \/ (n = 1 /\ num_timesteps < 0) \/ (1 < n /\ num_timesteps < 1) \/
   (n < 0 /\ 1 < num_timesteps))%Z.
Proof.
  intros HN Hn. unfold every_nth_index, arange.
  assert (Hfit : forall z, (- 2 ^ 62 - 2 ^ 62 <= z < 2 ^ 62 + 2 ^ 62)%Z ->
                           int64_fits z = true)
    by (intros z Hz; apply int64_fits_true; change (2 ^ 63)%Z with (2 ^ 62 + 2 ^ 62)%Z; lia).
  rewrite !Hfit by lia. cbn [andb negb].
  destruct (Z.eqb_spec n 1) as [->|Hn1].
  - change (1 =? 0)%Z with false. change (0 <? 1)%Z with true. cbv iota.
    destruct (Z.ltb_spec num_timesteps 0).
    + split; [intros _; lia | reflexivity].
    + rewrite ?Hfit by lia. cbn [negb]. split; [discriminate | lia].
  - destruct (Z.eqb_spec n 0) as [->|Hn0]; [split; [lia | reflexivity]|].
    destruct (Z.ltb_spec 0 n).
    + destruct (Z.ltb_spec (num_timesteps - 1) 0).
      * split; [intros _; lia | reflexivity].
      * rewrite ?Hfit by lia. cbn [negb]. split; [discriminate | lia].
    + destruct (Z.ltb_spec 0 (num_timesteps - 1)).
      * split; [intros _; lia | reflexivity].
      * rewrite ?Hfit by lia. cbn [negb]. split; [discriminate | lia].
Qed.

Lemma every_nth_index_raises_iff_witness :
  every_nth_index 1000 (- 1) = None <->
  (- 1 = 0 \/ (- 1 = 1 /\ 1000 < 0) \/ (1 < - 1 /\ 1000 < 1) \/ (- 1 < 0 /\ 1 < 1000))%Z.
Proof.
  apply (every_nth_index_raises_iff 1000 (- 1)); lia.
Defined.

(** ** The frames of [graph_dynamics] *)

Lemma index_select_in_range {A} (xs : list A) (d : A) (indices : list Z) :
  Forall (fun i => (0 <= i < Z.of_nat (length xs))%Z) indices ->
  index_select xs indices = Some (map (fun i => nth (Z.to_nat i) xs d) indices).
Proof.
  induction 1 as [|i rest Hi _ IH]; [reflexivity|].
  cbn [index_select map]. cbv zeta.
  destruct (Z.ltb_spec i 0) as [Hneg|_]; [lia|].
  destruct (Z.leb_spec 0 i) as [_|Hneg]; [|lia].
  destruct (Z.ltb_spec i (Z.of_nat (length xs))) as [_|Hbig]; [|lia].
  cbn [andb]. rewrite IH.
  rewrite (nth_error_nth' xs d) by lia. reflexivity.
Qed.

Lemma last_is_nth {A} (l : list A) (d : A) : last l d = nth (length l - 1) l d.
Proof.
  induction l as [|a l IH]; [reflexivity|].
  destruct l as [|b l]; [reflexivity|].
  change (last (a :: b :: l) d) with (last (b :: l) d). rewrite IH.
  simpl. rewrite Nat.sub_0_r. reflexivity.
Qed.

Lemma simulate_with_trajectory_shape_of_result
  (sim : Simulator) (x : Tensor) (ts : list R) (g : Rng) (traj : Trajectory) (g' : Rng) :
  simulate_with_trajectory sim x ts g = Ok (traj, g') ->
  length traj = S (length ts - 1) /\ nth 0 traj [] = x /\
  simulate sim x ts g = Ok (last traj [], g').
Proof.
  intros Hrun. rewrite simulate_steps, steps_states.
  rewrite simulate_with_trajectory_states, bind_unfold in Hrun.
  destruct (states sim (increments ts) x g) as [[ys g1]|e] eqn:E; [|discriminate].
  unfold ret in Hrun. injection Hrun as <- <-.
  apply states_length in E. rewrite increments_length in E.
  split; [simpl; congruence|]. split; [reflexivity|].
  do 2 f_equal. destruct ys as [|y ys]; [reflexivity|].
  change (last (x :: y :: ys) []) with (last (y :: ys) []). apply last_default.
Qed.

(** X4. After a simulation over at least one timestep, the frames selected
    with a stride of at least one (count and stride together fitting 64
    bits) are well defined, no index being out of range: frame [k] is the
    trajectory at index [k] of [every_nth_index],
    shown with the timestep of that index; the first frame is the initial
    state and the last frame is the state [simulate] returns. *)
Theorem select_frames_of_trajectory
  (sim : Simulator) (x : Tensor) (ts : list R) (g : Rng)
  (traj : Trajectory) (g' : Rng) (plot_every : Z) :
  simulate_with_trajectory sim x ts g = Ok (traj, g') ->
  (1 <= length ts)%nat -> (1 <= plot_every)%Z ->
  (Z.of_nat (length ts) + plot_every < 2 ^ 63)%Z ->
  exists idxs frames,
    every_nth_index (Z.of_nat (length ts)) plot_every = Some idxs /\
    select_frames ts traj plot_every
      = Some (map (fun i => item ts (Z.to_nat i)) idxs, frames) /\
    frames = map (fun i => nth (Z.to_nat i) traj []) idxs /\
    nth 0 frames [] = x /\
    value (simulate sim x ts g) = Ok (last frames []).
Proof.
  intros Hrun Hts Hn Hfit.
  destruct (simulate_with_trajectory_shape_of_result _ _ _ _ _ _ Hrun) as (Hlen & Hhd & Hsim).
  assert (HN : (1 <= Z.of_nat (length ts))%Z) by lia.
  pose proof (every_nth_index_explicit _ _ HN Hn Hfit) as Hex.
  set (idxs := every_nth_index_list _ _) in Hex.
  assert (Hrange : Forall (fun i => (0 <= i < Z.of_nat (length ts))%Z) idxs).
  { apply Forall_forall. intros v Hv.
    destruct (In_nth _ _ 0%Z Hv) as (i & Hi & <-).
    destruct (every_nth_index_nth _ _ idxs i HN Hn Hex Hi) as [(_ & -> & Hb)|(_ & ->)]; nia. }
  assert (Hrange' : Forall (fun i => (0 <= i < Z.of_nat (length traj))%Z) idxs).
  { eapply Forall_impl; [|exact Hrange]. simpl. intros i Hi. lia. }
  exists idxs, (map (fun i => nth (Z.to_nat i) traj []) idxs).
  split; [exact Hex|]. split; [|split; [reflexivity|split]].
  - unfold select_frames. rewrite Hex.
    rewrite (index_select_in_range ts 0 idxs Hrange).
    rewrite (index_select_in_range traj [] idxs Hrange'). reflexivity.
  - assert (Hlen0 : (0 < length idxs)%nat).
    { unfold idxs, every_nth_index_list. rewrite length_app. simpl. lia. }
    rewrite (nth_indep _ [] (nth (Z.to_nat 0%Z) traj [])) by (rewrite length_map; exact Hlen0).
    rewrite (map_nth (fun i => nth (Z.to_nat i) traj [])).
    destruct (every_nth_index_nth _ _ idxs O HN Hn Hex Hlen0) as [(_ & H0 & _)|(Hl & H0)].
    + rewrite H0. simpl. exact Hhd.
    + unfold idxs, every_nth_index_list in Hl.
      rewrite length_app, length_map, length_seq in Hl. simpl in Hl.
      destruct (arange_count_bounds (Z.of_nat (length ts) - 1) plot_every ltac:(lia) ltac:(lia))
        as (Hq & Hlow & Hhigh).
      assert ((Z.of_nat (length ts) - 1 + plot_every - 1) / plot_every = 0)%Z by lia.
      rewrite H0. replace (Z.of_nat (length ts) - 1)%Z with 0%Z by nia. exact Hhd.
  - rewrite Hsim. unfold value. cbn [result_map fst]. f_equal.
    unfold idxs, every_nth_index_list. rewrite map_app. cbn [map]. rewrite last_last.
    replace (Z.to_nat (Z.of_nat (length ts) - 1)) with (length traj - 1)%nat by lia.
    apply last_is_nth.
Qed.

Lemma select_frames_of_trajectory_witness :
  exists traj g',
    simulate_with_trajectory (EulerSimulator (ode_of (OUProcess 1 0))) [[1]] [0; 1; 2] rng0
      = Ok (traj, g') /\
    exists idxs frames,
      every_nth_index (Z.of_nat (length [0; 1; 2])) 2 = Some idxs /\
      select_frames [0; 1; 2] traj 2
        = Some (map (fun i => item [0; 1; 2] (Z.to_nat i)) idxs, frames) /\
      frames = map (fun i => nth (Z.to_nat i) traj []) idxs /\
      nth 0 frames [] = [[1]] /\
      value (simulate (EulerSimulator (ode_of (OUProcess 1 0))) [[1]] [0; 1; 2] rng0)
        = Ok (last frames []).
Proof.
  eexists _, _. split; [reflexivity|].
  eapply (select_frames_of_trajectory (EulerSimulator (ode_of (OUProcess 1 0)))
            [[1]] [0; 1; 2] rng0).
  - reflexivity.
  - simpl. lia.
  - lia.
  - simpl. lia.
Defined.

(** ** Simulations compose *)

Lemma increments_app (a : list R) (t : R) (b : list R) :
  increments (a ++ t :: b) = increments (a ++ [t]) ++ increments (t :: b).
Proof.
  induction a as [|u a IH]; [reflexivity|].
  destruct a as [|v a].
  - reflexivity.
  - change (increments ((u :: v :: a) ++ t :: b))
      with ((u, v - u) :: increments ((v :: a) ++ t :: b)).
    change (increments ((u :: v :: a) ++ [t]))
      with ((u, v - u) :: increments ((v :: a) ++ [t])).
    rewrite IH. reflexivity.
Qed.

Lemma last_app_cons {A} (l1 : list A) (z : A) (l2 : list A) (d d' : A) :
  last (l1 ++ z :: l2) d = last (z :: l2) d'.
Proof.
  induction l1 as [|a l1 IH]; [apply last_default|].
  destruct l1 as [|b l1]; exact IH.
Qed.

Lemma states_app (sim : Simulator) (i1 i2 : list (R * R)) :
  forall x g,
    states sim (i1 ++ i2) x g
    = match states sim i1 x g with
      | Ok (ys1, g1) =>
          match states sim i2 (last ys1 x) g1 with
          | Ok (ys2, g2) => Ok (ys1 ++ ys2, g2)
          | Raise e => Raise e
          end
      | Raise e => Raise e
      end.
Proof.
  induction i1 as [|[t h] i1 IH]; intros x g.
  - cbn. destruct (states sim i2 x g) as [[ys g']|e]; reflexivity.
  - cbn [app states]. rewrite !bind_unfold.
    destruct (step sim x t h g) as [[y g1]|e]; [|reflexivity].
    rewrite !bind_unfold, IH.
    destruct (states sim i1 y g1) as [[ys1 g2]|e]; [|reflexivity].
    unfold ret.
    replace (last (y :: ys1) x) with (last ys1 y).
    2:{ destruct ys1 as [|z ys1]; [reflexivity|].
        change (last (y :: z :: ys1) x) with (last (z :: ys1) x). apply last_default. }
    destruct (states sim i2 (last ys1 y) g2) as [[ys2 g3]|e]; reflexivity.
Qed.

(** X5. A simulation can be stopped at a timestep and continued from there:
    simulating over a schedule equals simulating up to one of its timesteps
    [t] and then simulating the rest of the schedule, from [t] on, from the
    state and with the random generator the first run left; the trajectory
    is the first trajectory followed by the second one without its first
    state. *)
Theorem simulate_restart
  (sim : Simulator) (x : Tensor) (a : list R) (t : R) (b : list R) (g : Rng) :
  simulate sim x (a ++ t :: b) g
    = (y <- simulate sim x (a ++ [t]) ;; simulate sim y (t :: b)) g /\
  simulate_with_trajectory sim x (a ++ t :: b) g
    = (traj1 <- simulate_with_trajectory sim x (a ++ [t]) ;;
       traj2 <- simulate_with_trajectory sim (last traj1 []) (t :: b) ;;
       ret (traj1 ++ tl traj2)) g.
Proof.
  split.
  - rewrite bind_unfold, !simulate_steps, !steps_states, increments_app, states_app.
    destruct (states sim (increments (a ++ [t])) x g) as [[ys1 g1]|e]; [|reflexivity].
    rewrite simulate_steps, steps_states.
    destruct (states sim (increments (t :: b)) (last ys1 x) g1) as [[ys2 g2]|e]; [|reflexivity].
    do 2 f_equal. destruct ys2 as [|z ys2].
    + rewrite app_nil_r. reflexivity.
    + apply last_app_cons.
  - rewrite !bind_unfold, !simulate_with_trajectory_states, !bind_unfold.
    rewrite increments_app, states_app.
    destruct (states sim (increments (a ++ [t])) x g) as [[ys1 g1]|e]; [|reflexivity].
    unfold ret at 2. cbv iota. rewrite bind_unfold.
    rewrite simulate_with_trajectory_states, bind_unfold.
    replace (last (x :: ys1) []) with (last ys1 x).
    2:{ destruct ys1 as [|z ys1]; [reflexivity|].
        change (last (x :: z :: ys1) []) with (last (z :: ys1) []). apply last_default. }
    destruct (states sim (increments (t :: b)) (last ys1 x) g1) as [[ys2 g2]|e]; reflexivity.
Qed.

Lemma increments_firstn (ts : list R) :
  forall i, increments (firstn (S i) ts) = firstn i (increments ts).
Proof.
  induction ts as [|t ts IH]; intros i; [destruct i; reflexivity|].
  destruct ts as [|t' ts]; [destruct i; reflexivity|].
  destruct i as [|i]; [reflexivity|].
  change (firstn (S (S i)) (t :: t' :: ts)) with (t :: firstn (S i) (t' :: ts)).
  change (increments (t :: t' :: ts)) with ((t, t' - t) :: increments (t' :: ts)).
  cbn [firstn]. rewrite <- IH. reflexivity.
Qed.

Lemma states_firstn (sim : Simulator) (incs : list (R * R)) :
  forall i x g ys g',
    states sim incs x g = Ok (ys, g') ->
    exists g1, states sim (firstn i incs) x g = Ok (firstn i ys, g1).
Proof.
  induction incs as [|[t h] incs IH]; intros i x g ys g' H.
  - cbn in H. unfold ret in H. injection H as <- <-.
    rewrite !firstn_nil. exists g. reflexivity.
  - destruct i as [|i]; [exists g; reflexivity|].
    cbn [states firstn] in *. rewrite bind_unfold in *.
    destruct (step sim x t h g) as [[y g1]|e]; [|discriminate].
    rewrite bind_unfold in *.
    destruct (states sim incs y g1) as [[ys1 g2]|e] eqn:E; [|discriminate].
    unfold ret in H. injection H as <- <-.
    destruct (IH i _ _ _ _ E) as (g3 & ->). exists g3. reflexivity.
Qed.

(** X6. Entry [i] of the trajectory is the state [simulate] returns on the
    first [i + 1] timesteps of the schedule, from the same random
    generator. *)
Theorem trajectory_entry_is_simulate_prefix
  (sim : Simulator) (x : Tensor) (ts : list R) (g : Rng)
  (traj : Trajectory) (g' : Rng) (i : nat) :
  simulate_with_trajectory sim x ts g = Ok (traj, g') ->
  (i < length ts)%nat ->
  value (simulate sim x (firstn (S i) ts) g) = Ok (nth i traj []).
Proof.
  intros Hrun Hi.
  rewrite simulate_with_trajectory_states, bind_unfold in Hrun.
  destruct (states sim (increments ts) x g) as [[ys g1]|e] eqn:E; [|discriminate].
  unfold ret in Hrun. injection Hrun as <- <-.
  rewrite simulate_steps, steps_states, increments_firstn.
  destruct (states_firstn sim _ i _ _ _ _ E) as (g2 & ->).
  unfold value. cbn [result_map fst]. f_equal.
  pose proof (states_length _ _ _ _ _ _ E) as Hlen. rewrite increments_length in Hlen.
  destruct i as [|i]; [reflexivity|].
  cbn [nth]. rewrite last_is_nth.
  rewrite length_firstn, Nat.min_l by lia.
  replace (S i - 1)%nat with i by lia.
  rewrite (nth_indep _ x []) by (rewrite length_firstn; lia).
  rewrite nth_firstn. destruct (Nat.ltb_spec i (S i)); [reflexivity | lia].
Qed.

Lemma trajectory_entry_is_simulate_prefix_witness :
  exists traj g',
    simulate_with_trajectory (EulerMaruyamaSimulator (OUProcess 1 1)) [[1]] [0; 1; 2] rng0
      = Ok (traj, g') /\
    value (simulate (EulerMaruyamaSimulator (OUProcess 1 1)) [[1]] (firstn 2 [0; 1; 2]) rng0)
      = Ok (nth 1 traj []).
Proof.
  destruct (simulate_with_trajectory (EulerMaruyamaSimulator (OUProcess 1 1)) [[1]] [0; 1; 2] rng0)
    as [[traj g']|e] eqn:E.
  - exists traj, g'. split; [reflexivity|].
    apply (trajectory_entry_is_simulate_prefix _ _ [0; 1; 2] rng0 traj g' 1 E).
    simpl. lia.
  - exfalso. revert E. rewrite simulate_with_trajectory_states.
    cbn. unfold bind, lift, draw, ret, EulerMaruyama_step. simpl.
    unfold item. simpl.
    rewrite !math_sqrt_nonneg by lra. discriminate.
Defined.

(** ** Shapes and random draws of Euler-Maruyama *)

Lemma BrownianMotion_returns_state_shaped sigma : returns_state_shaped (BrownianMotion sigma).
Proof.
  intros x t. eexists _, _. split; [reflexivity|]. split; [reflexivity|].
  split; [apply tmap_shape|]. unfold smul, ones_like. rewrite !tmap_shape. reflexivity.
Qed.

Lemma OUProcess_returns_state_shaped theta sigma :
  returns_state_shaped (OUProcess theta sigma).
Proof.
  intros x t. eexists _, _. split; [reflexivity|]. split; [reflexivity|].
  split; [apply tmap_shape|]. unfold smul, ones_like. rewrite !tmap_shape. reflexivity.
Qed.

Lemma randn_like_generator (x : Tensor) :
  forall g, snd (randn_like x g)
            = mkRng (normals g) (normals_used g + numel x)
                (uniforms g) (uniforms_used g) (exponentials g) (exponentials_used g).
Proof.
  unfold numel, shape.
  induction x as [|row rest IH]; intros [nm nu um uu em eu].
  - simpl. f_equal. lia.
  - cbn [randn_like]. unfold randn.
    cbn [normals normals_used uniforms uniforms_used exponentials exponentials_used].
    specialize (IH (mkRng nm (nu + length row) um uu em eu)).
    destruct (randn_like rest _) as [zs g2]. simpl in *. subst g2. f_equal. lia.
Qed.

Lemma EulerMaruyama_step_shaped (sde : SDE) (x : Tensor) (t h : R) (g : Rng) :
  returns_state_shaped sde ->
  (0 <= h ->
   exists y, step (EulerMaruyamaSimulator sde) x t h g
             = Ok (y, mkRng (normals g) (normals_used g + numel x)
                        (uniforms g) (uniforms_used g) (exponentials g) (exponentials_used g)) /\
             shape y = shape x) /\
  (h < 0 -> step (EulerMaruyamaSimulator sde) x t h g = Raise MathDomainError).
Proof.
  intros Hsde. destruct (Hsde x t) as (d & s & Hd & Hs & Hsd & Hss).
  split.
  - intros Hh. simpl. unfold EulerMaruyama_step, bind, lift, draw, ret.
    rewrite Hd, Hs. simpl.
    pose proof (randn_like_shape x g) as Hz. pose proof (randn_like_generator x g) as Hg.
    destruct (randn_like x g) as [z g1]. simpl in Hz, Hg. subst g1.
    rewrite (math_sqrt_nonneg h Hh). simpl.
    eexists. split; [reflexivity|].
    assert (HA : shape (tadd x (smul h d)) = shape x).
    { apply tadd_shape. unfold smul. rewrite tmap_shape. exact Hsd. }
    rewrite tadd_shape; [exact HA|].
    rewrite HA. unfold muls. rewrite tmap_shape.
    rewrite tmul_shape by congruence. exact Hss.
  - intros Hh. eapply EulerMaruyama_step_negative; eassumption.
Qed.

Lemma EulerMaruyama_states_invariant (sde : SDE) :
  returns_state_shaped sde ->
  forall incs x g ys g',
    states (EulerMaruyamaSimulator sde) incs x g = Ok (ys, g') ->
    Forall (fun y => shape y = shape x) ys /\
    g' = mkRng (normals g) (normals_used g + length incs * numel x)
           (uniforms g) (uniforms_used g) (exponentials g) (exponentials_used g) /\
    Forall (fun th => 0 <= snd th) incs.
Proof.
  intros Hsde. induction incs as [|[t h] incs IH]; intros x g ys g' Hrun.
  - cbn in Hrun. unfold ret in Hrun. injection Hrun as <- <-.
    split; [constructor|]. split; [|constructor].
    destruct g. simpl. f_equal. lia.
  - cbn [states] in Hrun. rewrite bind_unfold in Hrun.
    destruct (EulerMaruyama_step_shaped sde x t h g Hsde) as [Hok Hbad].
    destruct (Rle_dec 0 h) as [Hh|Hh].
    + destruct (Hok Hh) as (y & Hy & Hshape). rewrite Hy in Hrun.
      rewrite bind_unfold in Hrun.
      destruct (states _ incs y _) as [[ys1 g1]|e] eqn:E; [|discriminate].
      unfold ret in Hrun. injection Hrun as <- <-.
      destruct (IH _ _ _ _ E) as (Hshapes & Hg & Hincs).
      split; [|split].
      * constructor; [exact Hshape|].
        eapply Forall_impl; [|exact Hshapes]. simpl. intros z Hz. congruence.
      * rewrite Hg. cbn [normals normals_used uniforms uniforms_used length].
        unfold numel. rewrite Hshape. f_equal. lia.
      * constructor; [exact Hh | exact Hincs].
    + rewrite Hbad in Hrun by lra. discriminate.
Qed.

Lemma EulerMaruyama_states_raise (sde : SDE) :
  returns_state_shaped sde ->
  forall incs x g,
    Exists (fun th => snd th < 0) incs ->
    states (EulerMaruyamaSimulator sde) incs x g = Raise MathDomainError.
Proof.
  intros Hsde. induction incs as [|[t h] incs IH]; intros x g Hex.
  - inversion Hex.
  - cbn [states]. rewrite bind_unfold.
    destruct (EulerMaruyama_step_shaped sde x t h g Hsde) as [Hok Hbad].
    destruct (Rle_dec 0 h) as [Hh|Hh].
    + destruct (Hok Hh) as (y & -> & _). rewrite bind_unfold.
      inversion Hex as [? ? Hneg|? ? Hrest]; subst; [simpl in Hneg; lra|].
      rewrite (IH _ _ Hrest). reflexivity.
    + rewrite Hbad by lra. reflexivity.
Qed.

Lemma EulerMaruyama_states_total (sde : SDE) :
  returns_state_shaped sde ->
  forall incs x g,
    Forall (fun th => 0 <= snd th) incs ->
    exists ys g', states (EulerMaruyamaSimulator sde) incs x g = Ok (ys, g').
Proof.
  intros Hsde incs x g Hincs.
  apply (states_total _ (fun h => 0 <= h)); [|exact Hincs].
  intros x0 t h g0 Hh.
  destruct (EulerMaruyama_step_shaped sde x0 t h g0 Hsde) as [Hok _].
  destruct (Hok Hh) as (y & Hy & _). eexists _, _. exact Hy.
Qed.

Lemma increments_sign (ts : list R) (P : R -> Prop) :
  (Forall (fun th => P (snd th)) (increments ts) <->
   forall i, (i + 1 < length ts)%nat -> P (item ts (i + 1) - item ts i)) /\
  (Exists (fun th => P (snd th)) (increments ts) <->
   exists i, (i + 1 < length ts)%nat /\ P (item ts (i + 1) - item ts i)).
Proof.
  split; split.
  - intros H i Hi. rewrite Forall_forall in H.
    specialize (H (nth i (increments ts) (0, 0))).
    rewrite increments_nth in H by exact Hi. apply H.
    rewrite <- increments_nth by exact Hi. apply nth_In. rewrite increments_length. lia.
  - intros H. apply Forall_forall. intros th Hin.
    destruct (In_nth _ _ (0, 0) Hin) as (i & Hi & <-).
    rewrite increments_length in Hi. rewrite increments_nth by lia. apply H. lia.
  - intros H. apply Exists_exists in H as (th & Hin & Hth).
    destruct (In_nth _ _ (0, 0) Hin) as (i & Hi & <-).
    rewrite increments_length in Hi. rewrite increments_nth in Hth by lia.
    exists i. split; [lia | exact Hth].
  - intros (i & Hi & HP). apply Exists_exists.
    exists (nth i (increments ts) (0, 0)). split.
    + apply nth_In. rewrite increments_length. lia.
    + rewrite increments_nth by exact Hi. exact HP.
Qed.

(** X7. With drift and diffusion coefficients of the shape of the state,
    every state of an Euler-Maruyama trajectory has the shape of the initial
    state (so [torch.stack] finds tensors of one size). *)
Theorem EulerMaruyama_trajectory_shapes
  (sde : SDE) (x : Tensor) (ts : list R) (g : Rng) (traj : Trajectory) (g' : Rng) :
  returns_state_shaped sde ->
  simulate_with_trajectory (EulerMaruyamaSimulator sde) x ts g = Ok (traj, g') ->
  Forall (fun y => shape y = shape x) traj.
Proof.
  intros Hsde Hrun.
  rewrite simulate_with_trajectory_states, bind_unfold in Hrun.
  destruct (states _ (increments ts) x g) as [[ys g1]|e] eqn:E; [|discriminate].
  unfold ret in Hrun. injection Hrun as <- <-.
  constructor; [reflexivity|].
  apply (EulerMaruyama_states_invariant sde Hsde _ _ _ _ _ E).
Qed.


Lemma EulerMaruyama_runs (sde : SDE) (x : Tensor) (ts : list R) (g : Rng) :
  returns_state_shaped sde ->
  (forall i, (i + 1 < length ts)%nat -> 0 <= item ts (i + 1) - item ts i) ->
  (exists traj g', simulate_with_trajectory (EulerMaruyamaSimulator sde) x ts g = Ok (traj, g')) /\
  (exists y g', simulate (EulerMaruyamaSimulator sde) x ts g = Ok (y, g')).
Proof.
  intros Hsde Hts.
  apply (proj1 (increments_sign ts (fun h => 0 <= h))) in Hts.
  destruct (EulerMaruyama_states_total sde Hsde _ x g Hts) as (ys & g' & Hys).
  split.
  - exists (x :: ys), g'. rewrite simulate_with_trajectory_states, bind_unfold, Hys. reflexivity.
  - exists (last ys x), g'. rewrite simulate_steps, steps_states, Hys. reflexivity.
Qed.

Lemma example_schedule_nondecreasing :
  forall i, (i + 1 < length [0; 1; 2])%nat -> 0 <= item [0; 1; 2] (i + 1) - item [0; 1; 2] i.
Proof.
  intros [|[|i]] Hi; simpl in Hi; try lia; unfold item; simpl; lra.
Qed.

Lemma EulerMaruyama_trajectory_shapes_witness :
  exists traj g',
    simulate_with_trajectory (EulerMaruyamaSimulator (OUProcess 1 1)) [[1; 2]] [0; 1; 2] rng0
      = Ok (traj, g') /\
    Forall (fun y => shape y = shape [[1; 2]]) traj.
Proof.
  destruct (proj1 (EulerMaruyama_runs (OUProcess 1 1) [[1; 2]] [0; 1; 2] rng0
                     (OUProcess_returns_state_shaped 1 1) example_schedule_nondecreasing))
    as (traj & g' & Hrun).
  exists traj, g'. split; [exact Hrun|].
  apply (EulerMaruyama_trajectory_shapes (OUProcess 1 1) [[1; 2]] [0; 1; 2] rng0 traj g').
  - apply OUProcess_returns_state_shaped.
  - exact Hrun.
Defined.


(** X9. For an SDE whose coefficients always return, an Euler-Maruyama
    simulation fails exactly when the schedule decreases somewhere, and then
    with the [ValueError] of [math.sqrt]; it returns exactly when no timestep
    is smaller than the one before (equal timesteps are accepted). *)
Theorem EulerMaruyama_simulate_raises_iff
  (sde : SDE) (x : Tensor) (ts : list R) (g : Rng) :
  returns_state_shaped sde ->
  (simulate (EulerMaruyamaSimulator sde) x ts g = Raise MathDomainError <->
   exists i, (i + 1 < length ts)%nat /\ item ts (i + 1) < item ts i) /\
  ((exists y g', simulate (EulerMaruyamaSimulator sde) x ts g = Ok (y, g')) <->
   forall i, (i + 1 < length ts)%nat -> item ts i <= item ts (i + 1)).
Proof.
  intros Hsde.
  assert (Hbad : (exists i, (i + 1 < length ts)%nat /\ item ts (i + 1) < item ts i) ->
                 simulate (EulerMaruyamaSimulator sde) x ts g = Raise MathDomainError).
  { intros (i & Hi & Hlt). rewrite simulate_steps, steps_states.
    rewrite (EulerMaruyama_states_raise sde Hsde); [reflexivity|].
    apply (proj2 (increments_sign ts (fun h => h < 0))). exists i. split; [exact Hi | lra]. }
  assert (Hgood : (forall i, (i + 1 < length ts)%nat -> item ts i <= item ts (i + 1)) ->
                  exists y g', simulate (EulerMaruyamaSimulator sde) x ts g = Ok (y, g')).
  { intros Hts. apply EulerMaruyama_runs; [exact Hsde|].
    intros i Hi. specialize (Hts i Hi). lra. }
  assert (Hdec : (forall i, (i + 1 < length ts)%nat -> item ts i <= item ts (i + 1)) \/
                 (exists i, (i + 1 < length ts)%nat /\ item ts (i + 1) < item ts i)).
  { destruct (Forall_Exists_dec (fun th : R * R => 0 <= snd th)
                (fun th => Rle_dec 0 (snd th)) (increments ts)) as [Hall|Hex].
    - left. intros i Hi.
      pose proof (proj1 (proj1 (increments_sign ts (fun h => 0 <= h))) Hall i Hi). lra.
    - right. apply (proj2 (increments_sign ts (fun h => ~ 0 <= h))) in Hex.
      destruct Hex as (i & Hi & Hn). exists i. split; [exact Hi | lra]. }
  split; split.
  - intros Hraise. destruct Hdec as [Hall|Hex]; [|exact Hex].
    destruct (Hgood Hall) as (y & g' & Hok). rewrite Hok in Hraise. discriminate.
  - exact Hbad.
  - intros (y & g' & Hok). destruct Hdec as [Hall|Hex]; [exact Hall|].
    rewrite (Hbad Hex) in Hok. discriminate.
  - exact Hgood.
Qed.

Lemma EulerMaruyama_simulate_raises_iff_witness :
  (simulate (EulerMaruyamaSimulator (OUProcess 1 1)) [[1]] [0; 1; 2] rng0
     = Raise MathDomainError <->
   exists i, (i + 1 < length [0; 1; 2])%nat /\ item [0; 1; 2] (i + 1) < item [0; 1; 2] i) /\
  ((exists y g', simulate (EulerMaruyamaSimulator (OUProcess 1 1)) [[1]] [0; 1; 2] rng0
                 = Ok (y, g')) <->
   forall i, (i + 1 < length [0; 1; 2])%nat -> item [0; 1; 2] i <= item [0; 1; 2] (i + 1)).
Proof.
  apply (EulerMaruyama_simulate_raises_iff (OUProcess 1 1) [[1]] [0; 1; 2] rng0).
  apply OUProcess_returns_state_shaped.
Defined.

(** ** The Ornstein-Uhlenbeck drift under the Euler scheme *)

Lemma entry_smul (c : R) (x : Tensor) (b i : nat) :
  entry (smul c x) b i = c * entry x b i.
Proof.
  unfold entry, smul, tmap.
  destruct (Nat.lt_ge_cases b (length x)) as [Hb|Hb].
  - rewrite (nth_indep _ [] (map (fun v => c * v) [])) by (rewrite length_map; exact Hb).
    rewrite map_nth.
    destruct (Nat.lt_ge_cases i (length (nth b x []))) as [Hi|Hi].
    + rewrite (nth_indep _ 0 (c * 0)) by (rewrite length_map; exact Hi).
      apply (map_nth (fun v => c * v)).
    + rewrite !nth_overflow by (rewrite ?length_map; exact Hi). ring.
  - rewrite (nth_overflow (map _ x)) by (rewrite length_map; exact Hb).
    rewrite (nth_overflow x) by exact Hb. destruct i; simpl; ring.
Qed.

Lemma smul_smul (a b : R) (x : Tensor) : smul a (smul b x) = smul (a * b) x.
Proof.
  unfold smul, tmap. rewrite map_map. apply map_ext. intros row.
  rewrite map_map. apply map_ext. intros v. ring.
Qed.

Lemma smul_one (x : Tensor) : smul 1 x = x.
Proof.
  unfold smul, tmap. rewrite <- (map_id x) at 2. apply map_ext. intros row.
  rewrite <- (map_id row) at 2. apply map_ext. intros v. ring.
Qed.

Lemma Euler_OU_step (theta h : R) (x : Tensor) :
  tadd x (smul h (smul (- theta) x)) = smul (1 - theta * h) x.
Proof.
  unfold tadd, smul, tmap. induction x as [|row x IH]; [reflexivity|].
  cbn [map zip_with]. rewrite IH. f_equal.
  clear IH. induction row as [|v row IH]; [reflexivity|].
  cbn [map zip_with]. rewrite IH. f_equal. ring.
Qed.

Lemma Euler_OU_states (theta sigma : R) (incs : list (R * R)) :
  forall x g,
    states (EulerSimulator (ode_of (OUProcess theta sigma))) incs x g
    = Ok (map (fun k => smul (decay_factor theta (firstn (S k) incs)) x)
            (seq 0 (length incs)), g).
Proof.
  induction incs as [|[t h] incs IH]; intros x g; [reflexivity|].
  cbn [states]. rewrite bind_unfold.
  cbn [step EulerSimulator]. unfold lift, Euler_step.
  cbn [ode_of ode_drift_coefficient OUProcess drift_coefficient result_bind result_map].
  rewrite Euler_OU_step, bind_unfold, IH. unfold ret.
  cbn [length seq map]. apply f_equal. apply (f_equal (fun l => (l, g))).
  apply f_equal2.
  - apply (f_equal (fun c => smul c x)). cbn. ring.
  - rewrite <- seq_shift, map_map. apply map_ext. intros k.
    rewrite smul_smul. apply (f_equal (fun c => smul c x)).
    change (firstn (S (S k)) ((t, h) :: incs)) with ((t, h) :: firstn (S k) incs).
    unfold decay_factor. cbn [fold_right snd]. ring.
Qed.

Lemma Euler_OU_trajectory
  (theta sigma : R) (x : Tensor) (ts : list R) (g : Rng) :
  simulate_with_trajectory (EulerSimulator (ode_of (OUProcess theta sigma))) x ts g
    = Ok (map (fun k => smul (decay_factor theta (firstn k (increments ts))) x)
            (seq 0 (S (length ts - 1))), g).
Proof.
  rewrite simulate_with_trajectory_states, bind_unfold, Euler_OU_states. unfold ret.
  rewrite increments_length. apply f_equal. apply (f_equal (fun l => (l, g))).
  cbn [seq map]. apply f_equal2.
  - cbn. symmetry. apply smul_one.
  - rewrite <- seq_shift, map_map. reflexivity.
Qed.

(** X10. Under the Euler scheme the Ornstein-Uhlenbeck drift gives a closed
    form: every step multiplies the state by [1 - theta * h], so [simulate]
    returns the initial state times the product of these factors, and entry
    [k] of the trajectory is the initial state times the product over the
    first [k] steps.  No schedule makes it fail. *)
Theorem Euler_OUProcess_closed_form
  (theta sigma : R) (x : Tensor) (ts : list R) (g : Rng) :
  simulate (EulerSimulator (ode_of (OUProcess theta sigma))) x ts g
    = Ok (smul (decay_factor theta (increments ts)) x, g) /\
  simulate_with_trajectory (EulerSimulator (ode_of (OUProcess theta sigma))) x ts g
    = Ok (map (fun k => smul (decay_factor theta (firstn k (increments ts))) x)
            (seq 0 (S (length ts - 1))), g).
Proof.
  split.
  - rewrite simulate_steps, steps_states, Euler_OU_states.
    do 2 f_equal. set (incs := increments ts).
    destruct (length incs) as [|n] eqn:En.
    + destruct incs; [|discriminate]. cbn. symmetry. apply smul_one.
    + rewrite last_is_nth, length_map, length_seq.
      rewrite nth_map_seq by lia.
      replace (S (S n - 1)) with (length incs) by lia.
      rewrite firstn_all. reflexivity.
  - apply Euler_OU_trajectory.
Qed.

Lemma decay_factor_app (theta : R) (l1 l2 : list (R * R)) :
  decay_factor theta (l1 ++ l2) = decay_factor theta l1 * decay_factor theta l2.
Proof.
  unfold decay_factor. induction l1 as [|a l1 IH]; simpl; [ring|]. rewrite IH. ring.
Qed.

Lemma decay_factor_bounds (theta : R) (incs : list (R * R)) :
  Forall (fun th => 0 <= theta * snd th <= 1) incs ->
  0 <= decay_factor theta incs <= 1.
Proof.
  unfold decay_factor. induction 1 as [|a l Ha _ IH]; simpl; [lra|]. nra.
Qed.

Lemma firstn_S_nth {A} (l : list A) (d : A) :
  forall k, (k < length l)%nat -> firstn (S k) l = firstn k l ++ [nth k l d].
Proof.
  induction l as [|a l IH]; intros k Hk; [simpl in Hk; lia|].
  destruct k as [|k]; [reflexivity|].
  cbn [firstn nth app]. f_equal. apply IH. simpl in Hk. lia.
Qed.

(** X11. When every step size satisfies [0 <= theta * h <= 1], the Euler
    trajectory of the Ornstein-Uhlenbeck drift decays monotonically toward
    zero: from one recorded state to the next no entry grows in absolute
    value, and no entry changes its sign. *)
Theorem Euler_OUProcess_decays
  (theta sigma : R) (x : Tensor) (ts : list R) (g : Rng) :
  (forall i, (i + 1 < length ts)%nat ->
     0 <= theta * (item ts (i + 1) - item ts i) <= 1) ->
  exists traj,
    simulate_with_trajectory (EulerSimulator (ode_of (OUProcess theta sigma))) x ts g
      = Ok (traj, g) /\
    forall k b j, (S k < length traj)%nat ->
      Rabs (entry (nth (S k) traj []) b j) <= Rabs (entry (nth k traj []) b j) /\
      0 <= entry (nth (S k) traj []) b j * entry x b j.
Proof.
  intros Hts.
  apply (proj2 (proj1 (increments_sign ts (fun h => 0 <= theta * h <= 1)))) in Hts.
  eexists. split; [apply Euler_OU_trajectory|].
  intros k b j Hk. rewrite length_map, length_seq in Hk.
  rewrite !nth_map_seq by lia. rewrite !entry_smul.
  assert (Hlen : (k < length (increments ts))%nat) by (rewrite increments_length; lia).
  rewrite (firstn_S_nth _ (0, 0) k Hlen), decay_factor_app.
  assert (Hc : 0 <= decay_factor theta (firstn k (increments ts)) <= 1).
  { apply decay_factor_bounds. apply Forall_forall. intros th Hin.
    rewrite Forall_forall in Hts. apply Hts.
    rewrite <- (firstn_skipn k (increments ts)). apply in_or_app. left. exact Hin. }
  assert (Hf : 0 <= decay_factor theta [nth k (increments ts) (0, 0)] <= 1).
  { apply decay_factor_bounds. constructor; [|constructor].
    rewrite Forall_forall in Hts. apply Hts. apply nth_In. exact Hlen. }
  set (c := decay_factor theta (firstn k (increments ts))) in *.
  set (f := decay_factor theta [nth k (increments ts) (0, 0)]) in *.
  set (e := entry x b j). split.
  - rewrite !Rabs_mult. rewrite (Rabs_pos_eq c) by lra. rewrite (Rabs_pos_eq f) by lra.
    pose proof (Rabs_pos e). assert (0 <= c * Rabs e) by nra. nra.
  - assert (0 <= e * e) by nra. assert (0 <= c * f) by nra. nra.
Qed.

Lemma Euler_OUProcess_decays_witness :
  exists traj,
    simulate_with_trajectory (EulerSimulator (ode_of (OUProcess (1 / 4) 0))) [[10]]
      [0; 1; 2] rng0 = Ok (traj, rng0) /\
    forall k b j, (S k < length traj)%nat ->
      Rabs (entry (nth (S k) traj []) b j) <= Rabs (entry (nth k traj []) b j) /\
      0 <= entry (nth (S k) traj []) b j * entry [[10]] b j.
Proof.
  apply (Euler_OUProcess_decays (1 / 4) 0 [[10]] [0; 1; 2] rng0).
  intros [|[|i]] Hi; simpl in Hi; try lia; unfold item; simpl; lra.
Defined.

(** ** Time-independent dynamics *)

Lemma increments_shift (c : R) (ts : list R) :
  increments (map (fun t => t + c) ts)
  = map (fun th => (fst th + c, snd th)) (increments ts).
Proof.
  induction ts as [|t ts IH]; [reflexivity|].
  destruct ts as [|t' ts]; [reflexivity|].
  change (increments (map (fun t => t + c) (t :: t' :: ts)))
    with ((t + c, t' + c - (t + c)) :: increments (map (fun t => t + c) (t' :: ts))).
  rewrite IH. cbn [increments map fst snd]. f_equal. f_equal. ring.
Qed.

Lemma autonomous_states_shift (sde : SDE) (c : R) :
  autonomous sde ->
  forall incs x g,
    states (EulerMaruyamaSimulator sde) (map (fun th => (fst th + c, snd th)) incs) x g
    = states (EulerMaruyamaSimulator sde) incs x g /\
    states (EulerSimulator (ode_of sde)) (map (fun th => (fst th + c, snd th)) incs) x g
    = states (EulerSimulator (ode_of sde)) incs x g.
Proof.
  intros Haut. induction incs as [|[t h] incs IH]; intros x g; [split; reflexivity|].
  destruct (Haut x (t + c) t) as [Hd Hs].
  cbn [map states fst snd]. rewrite !bind_unfold. split.
  - assert (Hstep : step (EulerMaruyamaSimulator sde) x (t + c) h g
                    = step (EulerMaruyamaSimulator sde) x t h g).
    { simpl. unfold EulerMaruyama_step, bind, lift. rewrite Hd, Hs. reflexivity. }
    rewrite Hstep. destruct (step _ x t h g) as [[y g1]|e]; [|reflexivity].
    rewrite !bind_unfold, (proj1 (IH y g1)). reflexivity.
  - assert (Hstep : step (EulerSimulator (ode_of sde)) x (t + c) h g
                    = step (EulerSimulator (ode_of sde)) x t h g).
    { simpl. unfold lift, Euler_step. simpl. rewrite Hd. reflexivity. }
    rewrite Hstep. destruct (step _ x t h g) as [[y g1]|e]; [|reflexivity].
    rewrite !bind_unfold, (proj2 (IH y g1)). reflexivity.
Qed.

Lemma implemented_processes_autonomous (sigma theta : R) (density : Density) :
  autonomous (BrownianMotion sigma) /\ autonomous (OUProcess theta sigma) /\
  autonomous (LangevinSDE sigma density).
Proof. repeat split. Qed.

(** X12. The coefficients of Brownian motion, of the Ornstein-Uhlenbeck
    process and of the Langevin SDE do not depend on the time, so a
    simulation depends on the schedule only through its increments:
    shifting every timestep by the same amount changes neither the state
    returned, nor the trajectory, nor the generator's state, for
    Euler-Maruyama and for Euler on the same drift. *)
Theorem simulate_time_shift
  (sde : SDE) (c : R) (x : Tensor) (ts : list R) (g : Rng) :
  autonomous sde ->
  simulate (EulerMaruyamaSimulator sde) x (map (fun t => t + c) ts) g
    = simulate (EulerMaruyamaSimulator sde) x ts g /\
  simulate_with_trajectory (EulerMaruyamaSimulator sde) x (map (fun t => t + c) ts) g
    = simulate_with_trajectory (EulerMaruyamaSimulator sde) x ts g /\
  simulate (EulerSimulator (ode_of sde)) x (map (fun t => t + c) ts) g
    = simulate (EulerSimulator (ode_of sde)) x ts g /\
  simulate_with_trajectory (EulerSimulator (ode_of sde)) x (map (fun t => t + c) ts) g
    = simulate_with_trajectory (EulerSimulator (ode_of sde)) x ts g.
Proof.
  intros Haut.
  pose proof (autonomous_states_shift sde c Haut (increments ts) x g) as [HM HE].
  repeat split.
  - rewrite !simulate_steps, !steps_states, increments_shift, HM. reflexivity.
  - rewrite !simulate_with_trajectory_states, !bind_unfold, increments_shift, HM. reflexivity.
  - rewrite !simulate_steps, !steps_states, increments_shift, HE. reflexivity.
  - rewrite !simulate_with_trajectory_states, !bind_unfold, increments_shift, HE. reflexivity.
Qed.

Lemma simulate_time_shift_witness :
  simulate (EulerMaruyamaSimulator (LangevinSDE 1 (Gaussian_density (mkGaussian [0; 0] [[1; 0]; [0; 1]]))))
    [[1; 2]] (map (fun t => t + 5) [0; 1]) rng0
    = simulate (EulerMaruyamaSimulator (LangevinSDE 1 (Gaussian_density (mkGaussian [0; 0] [[1; 0]; [0; 1]]))))
        [[1; 2]] [0; 1] rng0 /\
  simulate_with_trajectory (EulerMaruyamaSimulator (LangevinSDE 1 (Gaussian_density (mkGaussian [0; 0] [[1; 0]; [0; 1]]))))
    [[1; 2]] (map (fun t => t + 5) [0; 1]) rng0
    = simulate_with_trajectory (EulerMaruyamaSimulator (LangevinSDE 1 (Gaussian_density (mkGaussian [0; 0] [[1; 0]; [0; 1]]))))
        [[1; 2]] [0; 1] rng0 /\
  simulate (EulerSimulator (ode_of (LangevinSDE 1 (Gaussian_density (mkGaussian [0; 0] [[1; 0]; [0; 1]])))))
    [[1; 2]] (map (fun t => t + 5) [0; 1]) rng0
    = simulate (EulerSimulator (ode_of (LangevinSDE 1 (Gaussian_density (mkGaussian [0; 0] [[1; 0]; [0; 1]])))))
        [[1; 2]] [0; 1] rng0 /\
  simulate_with_trajectory (EulerSimulator (ode_of (LangevinSDE 1 (Gaussian_density (mkGaussian [0; 0] [[1; 0]; [0; 1]])))))
    [[1; 2]] (map (fun t => t + 5) [0; 1]) rng0
    = simulate_with_trajectory (EulerSimulator (ode_of (LangevinSDE 1 (Gaussian_density (mkGaussian [0; 0] [[1; 0]; [0; 1]])))))
        [[1; 2]] [0; 1] rng0.
Proof.
  apply (simulate_time_shift
           (LangevinSDE 1 (Gaussian_density (mkGaussian [0; 0] [[1; 0]; [0; 1]])))
           5 [[1; 2]] [0; 1] rng0).
  apply implemented_processes_autonomous; exact 0.
Defined.

(** ** The Gaussian *)

(** X14. The Cholesky factor that [MultivariateNormal] keeps reproduces the
    covariance: for a symmetric positive definite covariance [[a, c], [c, d]]
    the factor [L] has a positive diagonal and [L L^T] is the covariance. *)
Theorem cholesky_reconstructs (a c d : R) (L : Tril2) :
  cholesky [[a; c]; [c; d]] = Ok L ->
  0 < l11 L /\ 0 < l22 L /\
  l11 L * l11 L = a /\ l21 L * l11 L = c /\ l21 L * l21 L + l22 L * l22 L = d.
Proof.
  unfold cholesky.
  destruct (Rlt_dec 0 a) as [Ha|]; [|discriminate].
  destruct (Rlt_dec 0 (d - c / sqrt a * (c / sqrt a))) as [Hd|]; [|discriminate].
  intros H. injection H as <-. cbn [l11 l21 l22].
  assert (Hs : sqrt a * sqrt a = a) by (apply sqrt_sqrt; lra).
  assert (Hs0 : 0 < sqrt a) by (apply sqrt_lt_R0; exact Ha).
  split; [exact Hs0|]. split; [apply sqrt_lt_R0; exact Hd|].
  split; [exact Hs|]. split; [field; lra|].
  rewrite sqrt_sqrt by lra. ring.
Qed.

Lemma cholesky_reconstructs_witness :
  0 < l11 (mkTril2 (sqrt 4) 0 (sqrt 4)) /\ 0 < l22 (mkTril2 (sqrt 4) 0 (sqrt 4)) /\
  l11 (mkTril2 (sqrt 4) 0 (sqrt 4)) * l11 (mkTril2 (sqrt 4) 0 (sqrt 4)) = 4 /\
  l21 (mkTril2 (sqrt 4) 0 (sqrt 4)) * l11 (mkTril2 (sqrt 4) 0 (sqrt 4)) = 0 /\
  l21 (mkTril2 (sqrt 4) 0 (sqrt 4)) * l21 (mkTril2 (sqrt 4) 0 (sqrt 4))
    + l22 (mkTril2 (sqrt 4) 0 (sqrt 4)) * l22 (mkTril2 (sqrt 4) 0 (sqrt 4)) = 4.
Proof.
  apply (cholesky_reconstructs 4 0 4 (mkTril2 (sqrt 4) 0 (sqrt 4))).
  apply cholesky_isotropic. lra.
Defined.

Lemma Gaussian_distribution_mean (G : Gaussian) (d : MultivariateNormal) :
  Gaussian_distribution G = Ok d ->
  mean G = [loc1 d; loc2 d] /\ 0 < l11 (scale_tril d) /\ 0 < l22 (scale_tril d).
Proof.
  intros Hd. pose proof (MultivariateNormal_init_positive _ _ _ Hd) as [H1 H2].
  split; [|split; assumption].
  unfold Gaussian_distribution, MultivariateNormal_init in Hd.
  destruct (mean G) as [|m1 [|m2 [|? ?]]]; try discriminate.
  destruct (cholesky (cov G)); [|discriminate]. injection Hd as <-. reflexivity.
Qed.

Lemma tadd_smul_zeros (x : Tensor) (h : R) : tadd x (smul h (zeros_like x)) = x.
Proof.
  unfold tadd, smul, zeros_like, tmap.
  induction x as [|row x IH]; [reflexivity|].
  cbn [map zip_with]. rewrite IH. f_equal.
  clear. induction row as [|v row IH]; [reflexivity|].
  cbn [map zip_with]. rewrite IH. f_equal. ring.
Qed.

(** X15. The mean of a Gaussian is its mode and the rest point of its
    Langevin dynamics: no point has a larger log-density than the mean, the
    Langevin drift vanishes on a batch of copies of the mean (at least one
    copy), and an Euler step of that drift leaves such a batch where it is. *)
Theorem Gaussian_mean_is_mode
  (G : Gaussian) (d : MultivariateNormal) (sigma : R) (x : Tensor) (t h : R) (g : Rng) :
  Gaussian_distribution G = Ok d ->
  x <> [] ->
  Forall (fun p => p = mean G) x ->
  (forall x1 x2, exists v m,
     Gaussian_log_density G [[x1; x2]] = Ok [[v]] /\
     Gaussian_log_density G [mean G] = Ok [[m]] /\ v <= m) /\
  drift_coefficient (LangevinSDE sigma (Gaussian_density G)) x t = Ok (zeros_like x) /\
  step (EulerSimulator (ode_of (LangevinSDE sigma (Gaussian_density G)))) x t h g = Ok (x, g).
Proof.
  intros Hd Hne Hx. destruct (Gaussian_distribution_mean G d Hd) as (Hmean & H1 & H2).
  assert (Hdrift : drift_coefficient (LangevinSDE sigma (Gaussian_density G)) x t
                   = Ok (zeros_like x)).
  { cbn [LangevinSDE drift_coefficient].
    rewrite (score_rows _ (fun _ => [0; 0]) x Hne).
    - cbn [result_map]. f_equal. unfold divs, smul, zeros_like, tmap. rewrite !map_map.
      apply map_ext_in. intros p Hp. rewrite Forall_forall in Hx. rewrite (Hx p Hp), Hmean.
      cbn [map]. f_equal; [|f_equal]; unfold Rdiv; ring.
    - intros p Hp. rewrite Forall_forall in Hx. rewrite (Hx p Hp), Hmean.
      cbn [Gaussian_density jacrev_log_density]. unfold Gaussian_jacrev. rewrite Hd.
      cbn [result_bind]. unfold MVN_grad_log_prob, whiten. cbv zeta.
      do 2 f_equal; [|f_equal]; unfold Rdiv; ring. }
  split; [|split; [exact Hdrift|]].
  - intros x1 x2. unfold Gaussian_log_density. rewrite Hd, Hmean. cbn.
    eexists _, _. split; [reflexivity|]. split; [reflexivity|].
    unfold MVN_log_prob, whiten. cbv zeta.
    set (y1 := (x1 - loc1 d) / l11 (scale_tril d)).
    set (y2 := (x2 - loc2 d - l21 (scale_tril d) * y1) / l22 (scale_tril d)).
    replace ((loc1 d - loc1 d) / l11 (scale_tril d)) with 0 by (unfold Rdiv; ring).
    replace ((loc2 d - loc2 d - l21 (scale_tril d) * 0) / l22 (scale_tril d)) with 0
      by (unfold Rdiv; ring).
    assert (0 <= y1 * y1) by nra. assert (0 <= y2 * y2) by nra. lra.
  - cbn [step EulerSimulator]. unfold lift, Euler_step.
    cbn [ode_of ode_drift_coefficient]. rewrite Hdrift. cbn [result_bind result_map].
    rewrite tadd_smul_zeros. reflexivity.
Qed.

Lemma Gaussian_mean_is_mode_witness :
  (forall x1 x2, exists v m,
     Gaussian_log_density (mkGaussian [1; 2] [[4; 0]; [0; 4]]) [[x1; x2]] = Ok [[v]] /\
     Gaussian_log_density (mkGaussian [1; 2] [[4; 0]; [0; 4]])
       [mean (mkGaussian [1; 2] [[4; 0]; [0; 4]])] = Ok [[m]] /\ v <= m) /\
  drift_coefficient (LangevinSDE 1 (Gaussian_density (mkGaussian [1; 2] [[4; 0]; [0; 4]])))
    [[1; 2]; [1; 2]] 0 = Ok (zeros_like [[1; 2]; [1; 2]]) /\
  step (EulerSimulator (ode_of (LangevinSDE 1
          (Gaussian_density (mkGaussian [1; 2] [[4; 0]; [0; 4]])))))
    [[1; 2]; [1; 2]] 0 (1 / 2) rng0 = Ok ([[1; 2]; [1; 2]], rng0).
Proof.
  apply (Gaussian_mean_is_mode (mkGaussian [1; 2] [[4; 0]; [0; 4]])
           (mkMVN 1 2 (mkTril2 (sqrt 4) 0 (sqrt 4))) 1 [[1; 2]; [1; 2]] 0 (1 / 2) rng0).
  - unfold Gaussian_distribution, MultivariateNormal_init. cbn [mean cov].
    rewrite (cholesky_isotropic 4) by lra. reflexivity.
  - discriminate.
  - repeat constructor.
Defined.





(** ** Mixture weights *)

Lemma total_scaled (c : R) (ws : list R) : total (map (fun w => c * w) ws) = c * total ws.
Proof.
  induction ws as [|w ws IH]; simpl; [ring|]. rewrite IH. ring.
Qed.

Lemma Categorical_init_scaled (c : R) (ws : list R) :
  c <> 0 -> Categorical_init (map (fun w => c * w) ws) = Categorical_init ws.
Proof.
  intros Hc. unfold Categorical_init. rewrite total_scaled, length_map.
  destruct (Req_dec_T (total ws) 0) as [Hz|Hnz].
  - destruct (Req_dec_T (c * total ws) 0) as [_|Hn]; [reflexivity|].
    exfalso. apply Hn. rewrite Hz. ring.
  - destruct (Req_dec_T (c * total ws) 0) as [Hz|_].
    + exfalso. apply Rmult_integral in Hz. tauto.
    + do 2 f_equal. rewrite map_map. apply map_ext. intros w. field. split; assumption.
Qed.

(** X17. Only the ratios of the mixture weights matter: multiplying all
    weights by the same non-zero number changes nothing in what
    [GaussianMixture.sample] returns, exceptions and generator state
    included. *)
Theorem GaussianMixture_sample_scale_invariant
  (k : nat) (mus : Tensor) (sigmas : list Tensor) (ws : list R) (c : R) (n : nat) (g : Rng) :
  c <> 0 ->
  GaussianMixture_sample (mkGaussianMixture k mus sigmas (map (fun w => c * w) ws)) n g
  = GaussianMixture_sample (mkGaussianMixture k mus sigmas ws) n g.
Proof.
  intros Hc. unfold GaussianMixture_sample, GaussianMixture_distribution.
  cbn [means covs weights]. rewrite (Categorical_init_scaled c ws Hc).
  reflexivity.
Qed.

Lemma GaussianMixture_sample_scale_invariant_witness :
  GaussianMixture_sample
    (mkGaussianMixture 2 two_means two_covs (map (fun w => 5 * w) two_weights)) 3 rng0
  = GaussianMixture_sample (mkGaussianMixture 2 two_means two_covs two_weights) 3 rng0.
Proof.
  apply (GaussianMixture_sample_scale_invariant 2 two_means two_covs two_weights 5 3 rng0).
  lra.
Defined.

(** ** Mixture constructors *)

Lemma total_constant (v : R) (n : nat) :
  total (map (fun _ => v) (seq 0 n)) = INR n * v.
Proof.
  generalize 0%nat. induction n as [|n IH]; intros s.
  - simpl. ring.
  - cbn [seq map total fold_right]. fold (total (map (fun _ => v) (seq (S s) n))).
    rewrite IH, S_INR. ring.
Qed.

Lemma MultivariateNormal_batch_isotropic (v : R) (mus : list (R * R)) :
  0 < v ->
  MultivariateNormal_batch (map (fun m => [fst m; snd m]) mus)
    (map (fun _ => [[v; 0]; [0; v]]) mus)
  = Ok (map (fun m => mkMVN (fst m) (snd m) (mkTril2 (sqrt v) 0 (sqrt v))) mus).
Proof.
  intros Hv. induction mus as [|m mus IH]; [reflexivity|].
  cbn [map MultivariateNormal_batch MultivariateNormal_init].
  rewrite (cholesky_isotropic v Hv). cbn [result_map result_bind].
  rewrite IH. reflexivity.
Qed.

Lemma map_constant_length {A B C} (v : C) (l1 : list A) (l2 : list B) :
  length l1 = length l2 -> map (fun _ => v) l1 = map (fun _ => v) l2.
Proof.
  revert l2; induction l1 as [|a l1 IH]; intros [|b l2] Hl; try discriminate; [reflexivity|].
  cbn [map]. f_equal. apply IH. simpl in Hl. lia.
Qed.

(** X18. For at least one mode, [symmetric_2D] builds a mixture whose
    means lie on the circle of radius [|scale|] around the origin, mean [k]
    at the angle [2 pi k / nmodes], whose weights are already normalised
    (they sum to one), and whose components all factorise when [std] is not
    zero, so that its component distribution can be built. *)
Theorem symmetric_2D_spec (n : nat) (std scale : R) :
  (1 <= n)%nat ->
  exists gm,
    symmetric_2D n std scale = Ok gm /\
    nmodes gm = n /\ length (means gm) = n /\ length (covs gm) = n /\
    length (weights gm) = n /\
    total (weights gm) = 1 /\
    (forall k, (k < n)%nat ->
       nth k (means gm) []
         = [cos (INR k * (2 * PI / INR n)) * scale; sin (INR k * (2 * PI / INR n)) * scale] /\
       entry (means gm) k 0 * entry (means gm) k 0
         + entry (means gm) k 1 * entry (means gm) k 1 = scale * scale) /\
    (std <> 0 -> exists comps, MultivariateNormal_batch (means gm) (covs gm) = Ok comps).
Proof.
  intros Hn. eexists. split; [reflexivity|].
  cbn [nmodes means covs weights].
  assert (Hlin : length (linspace 0 (2 * PI) (n + 1)) = (n + 1)%nat).
  { unfold linspace. rewrite length_map, length_seq. reflexivity. }
  assert (Hangles : length (firstn n (linspace 0 (2 * PI) (n + 1))) = n).
  { rewrite length_firstn, Hlin. lia. }
  assert (Hmean : forall k, (k < n)%nat ->
            nth k (map (fun a => [cos a * scale; sin a * scale])
                     (firstn n (linspace 0 (2 * PI) (n + 1)))) []
            = [cos (INR k * (2 * PI / INR n)) * scale;
               sin (INR k * (2 * PI / INR n)) * scale]).
  { intros k Hk.
    rewrite (nth_indep _ [] ((fun a => [cos a * scale; sin a * scale]) 0))
      by (rewrite length_map, Hangles; exact Hk).
    rewrite (map_nth (fun a => [cos a * scale; sin a * scale])).
    rewrite nth_firstn. destruct (Nat.ltb_spec k n) as [_|Hge]; [|lia].
    unfold linspace. rewrite nth_map_seq by lia.
    replace (n + 1 - 1)%nat with n by lia.
    replace (0 + INR k * ((2 * PI - 0) / INR n)) with (INR k * (2 * PI / INR n))
      by (unfold Rdiv; ring).
    reflexivity. }
  split; [rewrite length_map; exact Hangles|].
  split; [rewrite length_map; exact Hangles|].
  split; [rewrite length_map, length_seq; reflexivity|].
  split; [rewrite length_map, length_seq; reflexivity|].
  split; [rewrite total_constant; field; apply not_0_INR; lia|].
  split.
  - intros k Hk. split; [apply Hmean; exact Hk|].
    unfold entry. rewrite (Hmean k) by assumption. cbn [nth].
    set (a := INR k * (2 * PI / INR n)).
    pose proof (sin2_cos2 a) as Hsc. unfold Rsqr in Hsc. nra.
  - intros Hstd.
    assert (Hv : 0 < 1 * std ^ 2) by (simpl; nra).
    set (pts := map (fun a => (cos a * scale, sin a * scale))
                  (firstn n (linspace 0 (2 * PI) (n + 1)))).
    replace (map (fun a => [cos a * scale; sin a * scale])
               (firstn n (linspace 0 (2 * PI) (n + 1))))
      with (map (fun m : R * R => [fst m; snd m]) pts)
      by (unfold pts; rewrite map_map; reflexivity).
    replace (map (fun _ : nat => [[1 * std ^ 2; 0]; [0; 1 * std ^ 2]]) (seq 0 n))
      with (map (fun _ : R * R => [[1 * std ^ 2; 0]; [0; 1 * std ^ 2]]) pts).
    + eexists. apply (MultivariateNormal_batch_isotropic (1 * std ^ 2) pts Hv).
    + apply map_constant_length.
      unfold pts. rewrite length_map, Hangles, length_seq. reflexivity.
Qed.

Lemma symmetric_2D_spec_witness :
  exists gm,
    symmetric_2D 5 1 8 = Ok gm /\
    nmodes gm = 5%nat /\ length (means gm) = 5%nat /\ length (covs gm) = 5%nat /\
    length (weights gm) = 5%nat /\
    total (weights gm) = 1 /\
    (forall k, (k < 5)%nat ->
       nth k (means gm) []
         = [cos (INR k * (2 * PI / INR 5)) * 8; sin (INR k * (2 * PI / INR 5)) * 8] /\
       entry (means gm) k 0 * entry (means gm) k 0
         + entry (means gm) k 1 * entry (means gm) k 1 = 8 * 8) /\
    (1 <> 0 -> exists comps, MultivariateNormal_batch (means gm) (covs gm) = Ok comps).
Proof.
  apply (symmetric_2D_spec 5 1 8). lia.
Defined.




(** ** Euler-Maruyama without diffusion, over a whole schedule *)

Lemma EulerMaruyama_zero_diffusion_step
  (sde : SDE) (ode : ODE) (x : Tensor) (t h : R) (g g0 : Rng) :
  (forall x s, diffusion_coefficient sde x s = Ok (zeros_like x)) ->
  (forall x s, ode_drift_coefficient ode x s = drift_coefficient sde x s) ->
  0 <= h ->
  value (step (EulerMaruyamaSimulator sde) x t h g) = value (step (EulerSimulator ode) x t h g0).
Proof.
  intros Hzero Hdrift Hh. simpl.
  unfold EulerMaruyama_step, Euler_step, bind, lift, draw, ret, value.
  rewrite Hdrift, Hzero, (math_sqrt_nonneg h Hh).
  destruct (drift_coefficient sde x t) as [d|e]; simpl; [|reflexivity].
  pose proof (randn_like_shape x g) as Hshape.
  destruct (randn_like x g) as [z g']. simpl in *.
  rewrite tmul_zeros_like by assumption.
  rewrite muls_zeros_like, tadd_zeros_like. reflexivity.
Qed.

Lemma EulerMaruyama_zero_diffusion_states (sde : SDE) (ode : ODE) :
  (forall x s, diffusion_coefficient sde x s = Ok (zeros_like x)) ->
  (forall x s, ode_drift_coefficient ode x s = drift_coefficient sde x s) ->
  forall incs, Forall (fun th => 0 <= snd th) incs ->
  forall x g g0,
    value (states (EulerMaruyamaSimulator sde) incs x g)
    = value (states (EulerSimulator ode) incs x g0).
Proof.
  intros Hzero Hdrift incs Hincs.
  induction Hincs as [|[t h] incs Hh _ IH]; intros x g g0; [reflexivity|].
  cbn [states]. rewrite !bind_unfold.
  pose proof (EulerMaruyama_zero_diffusion_step sde ode x t h g g0 Hzero Hdrift Hh) as Hstep.
  destruct (step (EulerMaruyamaSimulator sde) x t h g) as [[y g1]|e];
    destruct (step (EulerSimulator ode) x t h g0) as [[y' g1']|e'];
    cbn in Hstep; try discriminate.
  - injection Hstep as <-. rewrite !bind_unfold.
    specialize (IH y g1 g1').
    destruct (states (EulerMaruyamaSimulator sde) incs y g1) as [[ys g2]|e];
      destruct (states (EulerSimulator ode) incs y g1') as [[ys' g2']|e'];
      cbn in IH; try discriminate.
    + injection IH as <-. reflexivity.
    + injection IH as <-. reflexivity.
  - injection Hstep as <-. reflexivity.
Qed.

(** X20. Without diffusion Euler-Maruyama is the Euler scheme over a whole
    schedule: on a schedule that never decreases, [simulate] and
    [simulate_with_trajectory] of an SDE with zero diffusion return the state
    and the trajectory that the Euler simulator of the same drift returns,
    whatever the random draws. *)
Theorem EulerMaruyama_zero_diffusion_simulate
  (sde : SDE) (ode : ODE) (x : Tensor) (ts : list R) (g g0 : Rng) :
  (forall x s, diffusion_coefficient sde x s = Ok (zeros_like x)) ->
  (forall x s, ode_drift_coefficient ode x s = drift_coefficient sde x s) ->
  (forall i, (i + 1 < length ts)%nat -> item ts i <= item ts (i + 1)) ->
  value (simulate (EulerMaruyamaSimulator sde) x ts g)
    = value (simulate (EulerSimulator ode) x ts g0) /\
  value (simulate_with_trajectory (EulerMaruyamaSimulator sde) x ts g)
    = value (simulate_with_trajectory (EulerSimulator ode) x ts g0).
Proof.
  intros Hzero Hdrift Hts.
  assert (Hincs : Forall (fun th => 0 <= snd th) (increments ts)).
  { apply (proj2 (proj1 (increments_sign ts (fun h => 0 <= h)))).
    intros i Hi. specialize (Hts i Hi). lra. }
  pose proof (EulerMaruyama_zero_diffusion_states sde ode Hzero Hdrift _ Hincs x g g0) as Hst.
  split.
  - rewrite !simulate_steps, !steps_states.
    destruct (states (EulerMaruyamaSimulator sde) _ x g) as [[ys g1]|e];
      destruct (states (EulerSimulator ode) _ x g0) as [[ys' g1']|e'];
      cbn in Hst; try discriminate; injection Hst as <-; reflexivity.
  - rewrite !simulate_with_trajectory_states, !bind_unfold.
    destruct (states (EulerMaruyamaSimulator sde) _ x g) as [[ys g1]|e];
      destruct (states (EulerSimulator ode) _ x g0) as [[ys' g1']|e'];
      cbn in Hst; try discriminate; injection Hst as <-; reflexivity.
Qed.

Lemma EulerMaruyama_zero_diffusion_simulate_witness :
  value (simulate (EulerMaruyamaSimulator (OUProcess (1 / 4) 0)) [[10]] [0; 1; 2] rng0)
    = value (simulate (EulerSimulator (ode_of (OUProcess (1 / 4) 0))) [[10]] [0; 1; 2] rng0) /\
  value (simulate_with_trajectory (EulerMaruyamaSimulator (OUProcess (1 / 4) 0)) [[10]]
           [0; 1; 2] rng0)
    = value (simulate_with_trajectory (EulerSimulator (ode_of (OUProcess (1 / 4) 0))) [[10]]
               [0; 1; 2] rng0).
Proof.
  apply (EulerMaruyama_zero_diffusion_simulate (OUProcess (1 / 4) 0)
           (ode_of (OUProcess (1 / 4) 0)) [[10]] [0; 1; 2] rng0 rng0).
  - intros x s. apply OUProcess_zero_sigma_diffusion.
  - reflexivity.
  - intros i Hi. pose proof (example_schedule_nondecreasing i Hi). lra.
Defined.

(** ** The object [simulate] returns *)

Lemma EulerSimulator_makes_new_object (ode : ODE) : makes_new_object (Obj.EulerSimulator ode).
Proof.
  intros xt t h H g r H' g' Hxt. simpl. obj_simpl.
  destruct (ode_drift_coefficient ode (Obj.load H xt) t) as [d|e]; simpl; [|discriminate].
  intros Heq. injection Heq as <- <- <-. split.
  - eexists. rewrite <- !app_assoc. reflexivity.
  - rewrite !length_app. simpl. lia.
Qed.

Lemma EulerMaruyamaSimulator_makes_new_object (sde : SDE) :
  makes_new_object (Obj.EulerMaruyamaSimulator sde).
Proof.
  intros xt t h H g r H' g' Hxt. simpl. obj_simpl.
  destruct (drift_coefficient sde (Obj.load H xt) t) as [d|e]; simpl; [|discriminate].
  destruct (diffusion_coefficient sde _ t) as [s|e]; simpl; [|discriminate].
  destruct (randn_like _ g) as [z g1].
  destruct (math_sqrt h) as [q|e]; simpl; [|discriminate].
  intros Heq. injection Heq as <- <- <-. split.
  - eexists. rewrite <- !app_assoc. reflexivity.
  - rewrite !length_app. simpl. lia.
Qed.

Lemma simulate_loop_object (osim : Obj.Simulator) (ts : list R) :
  makes_new_object osim ->
  forall idxs (x : Obj.ref) (H : Obj.Heap) g r H' g',
    (x < length H)%nat ->
    for_each idxs
      (fun t_idx x => Obj.step osim x (item ts t_idx) (item ts (t_idx + 1) - item ts t_idx))
      x (H, g) = Ok (r, (H', g')) ->
    extends H H' /\ (r < length H')%nat /\ (idxs <> [] -> (length H <= r)%nat).
Proof.
  intros Hnew. induction idxs as [|i idxs IH]; intros x H g r H' g' Hx Hrun.
  - cbn in Hrun. unfold ret in Hrun. injection Hrun as <- <- <-.
    split; [apply extends_refl|]. split; [exact Hx|]. intros Hne. contradiction.
  - cbn [for_each] in Hrun. rewrite bind_unfold in Hrun.
    destruct (Obj.step osim x _ _ (H, g)) as [[y [H1 g1]]|e] eqn:Es; [|discriminate].
    destruct (Hnew _ _ _ _ _ _ _ _ Hx Es) as (Hext & Hy).
    destruct (IH y H1 g1 r H' g' ltac:(lia) Hrun) as (Hext' & Hr & Hfresh).
    split; [eapply extends_trans; eassumption|]. split; [exact Hr|].
    intros _. destruct idxs as [|j idxs].
    + cbn in Hrun. unfold ret in Hrun. injection Hrun as <- <- <-. lia.
    + pose proof (extends_length _ _ Hext). specialize (Hfresh ltac:(discriminate)). lia.
Qed.

(** X21. [simulate] hands back the caller's own tensor when the schedule
    has fewer than two timesteps: no step is taken, nothing is allocated and
    the object returned is the object passed in, not a copy.  With two or
    more timesteps and a step that returns a new tensor, as both simulators
    of the lab do, the object returned is a new one and every tensor that
    existed before is unchanged. *)
Theorem simulate_returns_argument_or_new_object
  (osim : Obj.Simulator) (x : Obj.ref) (ts : list R) (H : Obj.Heap) (g : Rng)
  (r : Obj.ref) (H' : Obj.Heap) (g' : Rng) :
  makes_new_object osim ->
  (x < length H)%nat ->
  Obj.simulate osim x ts (H, g) = Ok (r, (H', g')) ->
  ((length ts <= 1)%nat -> r = x /\ H' = H /\ g' = g) /\
  ((2 <= length ts)%nat -> (length H <= r < length H')%nat /\ r <> x /\ extends H H').
Proof.
  intros Hnew Hx Hrun. unfold Obj.simulate in Hrun. split.
  - intros Hts. replace (length ts - 1)%nat with 0%nat in Hrun by lia.
    cbn in Hrun. unfold ret in Hrun. injection Hrun as <- <- <-. auto.
  - intros Hts.
    destruct (simulate_loop_object osim ts Hnew _ _ _ _ _ _ _ Hx Hrun) as (Hext & Hr & Hfresh).
    assert (Hne : range (length ts - 1) <> []).
    { unfold range. destruct (length ts - 1)%nat eqn:E; [lia|]. discriminate. }
    specialize (Hfresh Hne). repeat split; try assumption; lia.
Qed.

Lemma simulate_returns_argument_or_new_object_witness :
  exists r H' g',
    Obj.simulate (Obj.EulerSimulator (ode_of (OUProcess 1 0))) 0%nat [0; 1] ([[[1]]], rng0)
      = Ok (r, (H', g')) /\
    ((length [0; 1] <= 1)%nat -> r = 0%nat /\ H' = [[[1]]] /\ g' = rng0) /\
    ((2 <= length [0; 1])%nat ->
       (length [[[1]]] <= r < length H')%nat /\ r <> 0%nat /\ extends [[[1]]] H').
Proof.
  eexists _, _, _. split; [reflexivity|].
  eapply (simulate_returns_argument_or_new_object
            (Obj.EulerSimulator (ode_of (OUProcess 1 0))) 0%nat [0; 1] [[[1]]] rng0).
  - apply EulerSimulator_makes_new_object.
  - simpl. lia.
  - reflexivity.
Defined.

(** ** What sampling a mixture draws *)

(** X22. For weights in the number of the components, non-negative with a
    positive sum, and components that factorise, [GaussianMixture.sample(n)]
    with [n >= 1] returns [n] rows of two coordinates.  It draws
    [2 * nmodes * n] standard-normal numbers: it samples every component for
    every row and keeps the one selected.  For the indices it draws [n]
    uniform numbers when [n >= 2], and [nmodes] exponential numbers when
    [n = 1]. *)
Theorem GaussianMixture_sample_draws
  (mus : Tensor) (sigmas : list Tensor) (ws : list R)
  (comps : list MultivariateNormal) (n : nat) (g : Rng) :
  MultivariateNormal_batch mus sigmas = Ok comps ->
  length ws = length mus ->
  Forall (fun w => 0 <= w) ws ->
  0 < total ws ->
  (forall j, 0 <= uniforms g j < 1) ->
  (1 <= n)%nat ->
  exists xs,
    GaussianMixture_sample (mkGaussianMixture (length mus) mus sigmas ws) n g
      = Ok (xs, mkRng (normals g) (normals_used g + 2 * (n * length mus))
                  (uniforms g) (uniforms_used g + (if Nat.eqb n 1 then 0 else n))
                  (exponentials g)
                  (exponentials_used g + (if Nat.eqb n 1 then length mus else 0))) /\
    length xs = n /\
    Forall (fun row => length row = 2%nat) xs.
Proof.
  intros Hcomps Hlen Hws HW Hu Hn.
  set (p := map (fun w => w / total ws) ws).
  assert (Hp1 : total p = 1) by (unfold p; rewrite total_normalized; field; lra).
  assert (Hlp : length p = length ws) by (unfold p; apply length_map).
  destruct (MultivariateNormal_batch_nth _ _ _ Hcomps) as [HK _].
  rewrite (GaussianMixture_sample_unfold _ _ _ _ _ _ _ Hcomps Hlen).
  rewrite bind_unfold.
  assert (Hrows : forall (g1 : Rng) (mix : list nat),
            length mix = n -> Forall (fun k => (k < length comps)%nat) mix ->
            length (gather (component_rows comps g1 n) mix) = n /\
            Forall (fun row => length row = 2%nat) (gather (component_rows comps g1 n) mix)).
  { intros g1 mix Hmix Hks.
    assert (Hl : length (gather (component_rows comps g1 n) mix) = n).
    { rewrite gather_length; [exact Hmix|].
      unfold component_rows. rewrite length_map, length_seq. symmetry. exact Hmix. }
    split; [exact Hl|]. apply Forall_forall. intros row Hrow.
    destruct (In_nth _ _ [] Hrow) as (i & Hi & <-). rewrite Hl in Hi.
    rewrite (gather_row comps g1 n i mix (mkMVN 0 0 (mkTril2 0 0 0)) Hi Hmix).
    - reflexivity.
    - rewrite Forall_forall in Hks. apply Hks. apply nth_In. lia. }
  destruct n as [|[|n']]; [lia| |].
  - rewrite (multinomial_one ws g Hws HW). fold p.
    set (ratios := zip_with Rdiv p (map (exponentials g) (seq (exponentials_used g) (length ws)))).
    assert (Hlr : length ratios = length ws).
    { unfold ratios. rewrite zip_with_length, length_map, length_seq, Hlp. apply Nat.min_id. }
    assert (Hne : ratios <> []).
    { intros E. rewrite E in Hlr. simpl in Hlr. destruct ws; [simpl in HW; lra|discriminate]. }
    destruct (argmax_spec ratios Hne) as [Hk _].
    rewrite bind_unfold. unfold draw. rewrite component_samples_rows. unfold ret.
    cbn [normals normals_used uniforms uniforms_used exponentials exponentials_used Nat.eqb].
    rewrite HK, Hlen, Nat.add_0_r.
    eexists. split; [reflexivity|].
    apply Hrows; [reflexivity|]. constructor; [lia|constructor].
  - set (n := S (S n')) in *.
    assert (Hn2 : (2 <= n)%nat) by (unfold n; lia).
    rewrite (multinomial_many ws n g Hws HW Hn2). fold p.
    rewrite bind_unfold. unfold draw. rewrite component_samples_rows. unfold ret.
    cbn [normals normals_used uniforms uniforms_used exponentials exponentials_used].
    replace (Nat.eqb n 1) with false by (unfold n; reflexivity).
    rewrite HK, Nat.add_0_r.
    eexists. split; [reflexivity|].
    apply Hrows; [rewrite !length_map, length_seq; reflexivity|].
    apply Forall_forall. intros k Hk. apply in_map_iff in Hk as (u & <- & Hin).
    apply in_map_iff in Hin as (j & <- & _).
    destruct (pick_spec p (uniforms g j)) as (Hlt & _).
    { rewrite Hp1. destruct (Hu j). lra. }
    { right. intros E. rewrite E in Hp1. simpl in Hp1. lra. }
    lia.
Qed.

Lemma GaussianMixture_sample_draws_witness :
  exists xs,
    GaussianMixture_sample (mkGaussianMixture (length two_means) two_means two_covs two_weights)
      3 rng1
      = Ok (xs, mkRng (normals rng1) (normals_used rng1 + 2 * (3 * length two_means))
                  (uniforms rng1) (uniforms_used rng1 + (if Nat.eqb 3 1 then 0 else 3))
                  (exponentials rng1)
                  (exponentials_used rng1 + (if Nat.eqb 3 1 then length two_means else 0))) /\
    length xs = 3%nat /\
    Forall (fun row => length row = 2%nat) xs.
Proof.
  apply (GaussianMixture_sample_draws two_means two_covs two_weights
           [mkMVN 0 0 (mkTril2 (sqrt 1) 0 (sqrt 1)); mkMVN 1 1 (mkTril2 (sqrt 1) 0 (sqrt 1))]
           3 rng1).
  - unfold two_means, two_covs. cbn [MultivariateNormal_batch MultivariateNormal_init].
    rewrite (cholesky_isotropic 1) by lra. reflexivity.
  - reflexivity.
  - unfold two_weights. repeat constructor; lra.
  - unfold two_weights. simpl. lra.
  - intros j. simpl. lra.
  - lia.
Defined.
